(** * Incremental reads of the Python source SDK

    A shallow embedding of [AbstractSource.read] and the functions it drives
    (base_python/sdk/abstract_source.py), together with the incremental
    message streams of the Slack connector (source_slack/source.py).

    Python dictionaries are objects with identity: [read] deep-copies the
    caller's state, [_checkpoint_state] stores a reference to the stream state
    in the connector state, and [get_updated_state] may update its argument in
    place.  The embedding therefore keeps dictionaries in an object store and
    passes references. *)

From stdpp Require Import gmap strings list fin_maps.
From Stdlib Require Import ZArith Lia.

Local Open Scope string_scope.
Local Open Scope list_scope.
Local Open Scope Z_scope.

(** ** Results and lazy sequences *)

(** Exceptions that can travel through a sync. *)
Inductive exn :=
| KeyError (key : string)
| TypeError (msg : string)
| OverflowError (msg : string)
| StreamError (msg : string).

Inductive res (A : Type) :=
| Ok (a : A)
| Err (e : exn).
Arguments Ok {A} a.
Arguments Err {A} e.

(** A generator that is consumed once: it yields finitely many items and then
    either stops or raises. *)
Inductive gen (A : Type) :=
| Done
| Yield (a : A) (rest : gen A)
| Raise (e : exn).
Arguments Done {A}.
Arguments Yield {A} a rest.
Arguments Raise {A} e.

Fixpoint of_list {A} (l : list A) : gen A :=
  match l with
  | [] => Done
  | a :: l' => Yield a (of_list l')
  end.

(** [yield from g] followed by the rest of the enclosing generator. *)
Fixpoint gen_app {A} (g k : gen A) : gen A :=
  match g with
  | Done => k
  | Yield a rest => Yield a (gen_app rest k)
  | Raise e => Raise e
  end.

(** ** Protocol data *)

Inductive SyncMode := full_refresh | incremental.

#[global] Instance SyncMode_eq_dec : EqDecision SyncMode.
Proof. solve_decision. Defined.

Definition SyncMode_eqb (a b : SyncMode) : bool :=
  match a, b with
  | full_refresh, full_refresh | incremental, incremental => true
  | _, _ => false
  end.

(** Finite floats (timestamps, cursor values) are represented by integers; on
    them Python's [max] and [<=] are the integer ones. *)
Abbreviation blob := (gmap string Z).
Abbreviation record_data := (gmap string Z).
Abbreviation slice := (option (gmap string Z)).
Abbreviation snapshot := (gmap string (gmap string Z)).

Abbreviation loc := positive.

Record ConfiguredAirbyteStream := {
  stream_name : string;              (* configured_stream.stream.name *)
  sync_mode : SyncMode;
  cursor_field : list string
}.

(** The [data] of a STATE message is the content of the connector state when
    the message is handed to the consumer. *)
Inductive AirbyteMessage :=
| RECORD (stream : string) (data : record_data) (emitted_at : Z)
| STATE (data : snapshot).

Inductive log_arg :=
| AStr (s : string)
| ANat (n : nat)
| AVal (v : option Z)
| ABlob (b : blob).

(** A log line: the f-string's template and the values interpolated in it. *)
Inductive log_entry :=
| INFO (template : string) (args : list log_arg)
| EXCEPTION (template : string) (args : list log_arg).

Inductive event :=
| Emit (m : AirbyteMessage)
| Log (l : log_entry).

(** ** The object store *)

Record heap := Heap {
  blobs : gmap loc (gmap string Z);       (* per-stream state dictionaries *)
  tops : gmap loc (gmap string loc)       (* connector-state dictionaries *)
}.

Definition content (h : heap) (s : loc) : blob := default ∅ (blobs h !! s).
Definition entries (h : heap) (c : loc) : gmap string loc := default ∅ (tops h !! c).

(** What a consumer reads through a connector-state reference. *)
Definition view (h : heap) (c : loc) : snapshot := content h <$> entries h c.

(** ** The sync monad: a trace of events, the store, and a result *)

Record run (A : Type) := Run {
  trace : list event;
  store : heap;
  outcome : res A
}.
Arguments Run {A} trace store outcome.
Arguments trace {A} r.
Arguments store {A} r.
Arguments outcome {A} r.

Definition M (A : Type) : Type := heap -> run A.

Definition ret {A} (a : A) : M A := fun h => Run [] h (Ok a).

Definition bind {A B} (m : M A) (f : A -> M B) : M B := fun h =>
  let r := m h in
  match outcome r with
  | Ok a => let r' := f a (store r) in
            Run (trace r ++ trace r') (store r') (outcome r')
  | Err e => Run (trace r) (store r) (Err e)
  end.

Definition raise {A} (e : exn) : M A := fun h => Run [] h (Err e).

(** [try: m except Exception as e: handler e] *)
Definition try_except {A} (m : M A) (handler : exn -> M A) : M A := fun h =>
  let r := m h in
  match outcome r with
  | Ok a => r
  | Err e => let r' := handler e (store r) in
             Run (trace r ++ trace r') (store r') (outcome r')
  end.

Definition emit (m : AirbyteMessage) : M unit := fun h => Run [Emit m] h (Ok tt).
Definition log (l : log_entry) : M unit := fun h => Run [Log l] h (Ok tt).

Declare Scope sync_scope.
Delimit Scope sync_scope with sync.
Notation "x <- m ;; k" := (bind m (fun x => k))
  (at level 100, m at next level, right associativity) : sync_scope.
Notation "m ;; k" := (bind m (fun _ => k))
  (at level 100, right associativity) : sync_scope.
Local Open Scope sync_scope.

(** Store primitives. *)
Definition new_dict (b : blob) : M loc := fun h =>
  let l := fresh (dom (blobs h)) in
  Run [] (Heap (<[l := b]> (blobs h)) (tops h)) (Ok l).

Definition new_top (t : gmap string loc) : M loc := fun h =>
  let l := fresh (dom (tops h)) in
  Run [] (Heap (blobs h) (<[l := t]> (tops h))) (Ok l).

Definition write_dict (s : loc) (b : blob) : M unit := fun h =>
  Run [] (Heap (<[s := b]> (blobs h)) (tops h)) (Ok tt).

Definition read_dict (s : loc) : M blob := fun h => Run [] h (Ok (content h s)).

(** [connector_state[key] = s] *)
Definition set_item (c : loc) (key : string) (s : loc) : M unit := fun h =>
  Run [] (Heap (blobs h) (<[c := <[key := s]> (entries h c)]> (tops h))) (Ok tt).

(** [connector_state.get(key)] *)
Definition get_item (c : loc) (key : string) : M (option loc) := fun h =>
  Run [] h (Ok (entries h c !! key)).

(** [copy.deepcopy] of a connector state: every stream dictionary is copied to
    a new object; [memo] keeps the copy of an object met before, so that shared
    dictionaries stay shared in the copy. *)
Fixpoint deepcopy_items (items : list (string * loc)) (memo : gmap loc loc)
    (acc : gmap string loc) : M (gmap string loc) :=
  match items with
  | [] => ret acc
  | (k, l) :: rest =>
      match memo !! l with
      | Some l' => deepcopy_items rest memo (<[k := l']> acc)
      | None =>
          b <- read_dict l ;;
          l' <- new_dict b ;;
          deepcopy_items rest (<[l := l']> memo) (<[k := l']> acc)
      end
  end.

(** [copy.deepcopy(state or {})]: [None] and the empty dictionary both stand
    for [{}]. *)
Definition deepcopy (state : option loc) : M loc := fun h =>
  let t := match state with
           | None => ∅
           | Some l => entries h l
           end in
  (t' <- deepcopy_items (map_to_list t) ∅ ∅ ;; new_top t') h.

(** ** The stream interface (base_python.sdk.streams.core.Stream) *)

(** [get_updated_state] either updates the dictionary it is given and returns
    it ([InPlace], with the new content), or returns a new dictionary
    ([NewDict]). *)
Inductive state_update :=
| InPlace (b : blob)
| NewDict (b : blob).

Definition updated (u : state_update) : blob :=
  match u with
  | InPlace b | NewDict b => b
  end.

(** The slices and the records are the sequences the generators yield for the
    arguments of the call; a stream state is passed with the content it has
    when the call is made. *)
Record Stream := {
  name : string;
  supports_incremental : bool;
  state_checkpoint_interval : option Z;
  stream_slices : SyncMode -> option (list string) -> option blob -> gen slice;
  read_records :
    SyncMode -> option (list string) -> slice -> option blob -> gen record_data;
  get_updated_state : blob -> record_data -> res state_update
}.

Record Source := {
  source_name : string;              (* self.name: the class name of the source *)
  streams : list Stream
}.

(** ** AbstractSource *)

Definition is_record (e : event) : bool :=
  match e with
  | Emit (RECORD _ _ _) => true
  | _ => false
  end.

Definition is_state (e : event) : bool :=
  match e with
  | Emit (STATE _) => true
  | _ => false
  end.

Fixpoint count_records (tr : list event) : nat :=
  match tr with
  | [] => O
  | e :: tr' => ((if is_record e then 1 else 0) + count_records tr')%nat
  end.

Fixpoint count_states (tr : list event) : nat :=
  match tr with
  | [] => O
  | e :: tr' => ((if is_state e then 1 else 0) + count_states tr')%nat
  end.

Fixpoint messages (tr : list event) : list AirbyteMessage :=
  match tr with
  | [] => []
  | Emit m :: tr' => m :: messages tr'
  | Log _ :: tr' => messages tr'
  end.

(** [for record in record_iterator: ...; yield record]: every message of the
    iterator is passed on, and the RECORD messages are counted. *)
Definition iterate (record_iterator : M unit) : M nat := fun h =>
  let r := record_iterator h in
  Run (trace r) (store r)
      match outcome r with
      | Ok _ => Ok (count_records (trace r))
      | Err e => Err e
      end.

(** [checkpoint_interval and record_counter % checkpoint_interval == 0] *)
Definition checkpoint_due (checkpoint_interval : option Z) (record_counter : nat) : bool :=
  match checkpoint_interval with
  | None => false
  | Some k => negb (k =? 0) && (Z.of_nat record_counter mod k =? 0)
  end.

(** [cursor_field or None] *)
Definition or_None (cursor_field : list string) : option (list string) :=
  match cursor_field with
  | [] => None
  | _ => Some cursor_field
  end.

Section AbstractSource.

(** [int(datetime.now().timestamp()) * 1000], the clock being read from the
    environment. *)
Variable now_millis : Z.

Definition _as_airbyte_record (stream_name : string) (data : record_data) : AirbyteMessage :=
  RECORD stream_name data now_millis.

Definition _checkpoint_state (stream_name : string) (stream_state connector_state : loc)
    : M AirbyteMessage :=
  b <- read_dict stream_state ;;
  log (INFO "Setting state of {} stream to {}" [AStr stream_name; ABlob b]) ;;
  set_item connector_state stream_name stream_state ;;
  fun h => Run [] h (Ok (STATE (view h connector_state))).

Fixpoint _read_full_refresh_records (stream_name : string)
    (records : gen record_data) : M unit :=
  match records with
  | Done => ret tt
  | Raise e => raise e
  | Yield record rest =>
      emit (_as_airbyte_record stream_name record) ;;
      _read_full_refresh_records stream_name rest
  end.

Fixpoint _read_full_refresh_slices (stream_instance : Stream)
    (configured_stream : ConfiguredAirbyteStream) (slices : gen slice) : M unit :=
  match slices with
  | Done => ret tt
  | Raise e => raise e
  | Yield slices' rest =>
      _read_full_refresh_records (stream_name configured_stream)
        (read_records stream_instance full_refresh
           (Some (cursor_field configured_stream)) slices' None) ;;
      _read_full_refresh_slices stream_instance configured_stream rest
  end.

Definition _read_full_refresh (stream_instance : Stream)
    (configured_stream : ConfiguredAirbyteStream) : M unit :=
  _read_full_refresh_slices stream_instance configured_stream
    (stream_slices stream_instance full_refresh
       (Some (cursor_field configured_stream)) None).

(** [stream_state = stream_instance.get_updated_state(stream_state, record_data)] *)
Definition call_get_updated_state (stream_instance : Stream) (stream_state : loc)
    (record_data : record_data) : M loc :=
  b <- read_dict stream_state ;;
  match get_updated_state stream_instance b record_data with
  | Err e => raise e
  | Ok (InPlace b') => write_dict stream_state b' ;; ret stream_state
  | Ok (NewDict b') => new_dict b'
  end.

(** The loop over the records of one slice; it returns the stream state the
    slice ends with. *)
Fixpoint _read_incremental_records (stream_instance : Stream) (stream_name : string)
    (connector_state : loc) (records : gen record_data) (record_counter : nat)
    (stream_state : loc) : M loc :=
  match records with
  | Done => ret stream_state
  | Raise e => raise e
  | Yield record_data rest =>
      let record_counter := S record_counter in
      emit (_as_airbyte_record stream_name record_data) ;;
      stream_state <- call_get_updated_state stream_instance stream_state record_data ;;
      (if checkpoint_due (state_checkpoint_interval stream_instance) record_counter
       then m <- _checkpoint_state stream_name stream_state connector_state ;; emit m
       else ret tt) ;;
      _read_incremental_records stream_instance stream_name connector_state
        rest record_counter stream_state
  end.

(** The loop over the slices. *)
Fixpoint _read_incremental_slices (stream_instance : Stream)
    (configured_stream : ConfiguredAirbyteStream) (connector_state : loc)
    (slices : gen slice) (stream_state : loc) : M unit :=
  match slices with
  | Done => ret tt
  | Raise e => raise e
  | Yield slice rest =>
      b <- read_dict stream_state ;;
      let records :=
        read_records stream_instance incremental
          (or_None (cursor_field configured_stream)) slice (Some b) in
      stream_state <-
        _read_incremental_records stream_instance (stream_name configured_stream)
          connector_state records 0 stream_state ;;
      m <- _checkpoint_state (stream_name configured_stream) stream_state
             connector_state ;;
      emit m ;;
      _read_incremental_slices stream_instance configured_stream connector_state
        rest stream_state
  end.

Definition _read_incremental (stream_instance : Stream)
    (configured_stream : ConfiguredAirbyteStream) (connector_state : loc) : M unit :=
  let stream_name := stream_name configured_stream in
  o <- get_item connector_state stream_name ;;
  stream_state <- match o with
                  | Some s => ret s
                  | None => new_dict ∅
                  end ;;
  b <- read_dict stream_state ;;
  (if bool_decide (b = ∅) then ret tt
   else log (INFO "Setting state of {} stream to {}"
               [AStr stream_name; AVal (b !! stream_name)])) ;;
  let slices :=
    stream_slices stream_instance incremental
      (Some (cursor_field configured_stream)) (Some b) in
  _read_incremental_slices stream_instance configured_stream connector_state
    slices stream_state.

Definition use_incremental (configured_stream : ConfiguredAirbyteStream)
    (stream_instance : Stream) : bool :=
  SyncMode_eqb (sync_mode configured_stream) incremental
  && supports_incremental stream_instance.

Definition _read_stream (stream_instance : Stream)
    (configured_stream : ConfiguredAirbyteStream) (connector_state : loc) : M unit :=
  let record_iterator :=
    if use_incremental configured_stream stream_instance
    then _read_incremental stream_instance configured_stream connector_state
    else _read_full_refresh stream_instance configured_stream in
  let stream_name := stream_name configured_stream in
  log (INFO "Syncing stream: {} " [AStr stream_name]) ;;
  record_counter <- iterate record_iterator ;;
  log (INFO "Read {} records from {} stream" [ANat record_counter; AStr stream_name]).

(** [{s.name: s for s in self.streams(config)}]: a later stream of the same
    name replaces an earlier one. *)
Definition stream_instances (src : Source) : gmap string Stream :=
  foldl (fun m s => <[name s := s]> m) ∅ (streams src).

(** The body of the [try] in [read]. *)
Definition read_configured (src : Source) (connector_state : loc)
    (configured_stream : ConfiguredAirbyteStream) : M unit :=
  match stream_instances src !! stream_name configured_stream with
  | None => raise (KeyError (stream_name configured_stream))
  | Some stream_instance =>
      _read_stream stream_instance configured_stream connector_state
  end.

Definition on_exception (src : Source) (e : exn) : M unit :=
  log (EXCEPTION "Encountered an exception while reading stream {}"
         [AStr (source_name src)]) ;;
  raise e.

Fixpoint read_catalog (src : Source) (connector_state : loc)
    (catalog : list ConfiguredAirbyteStream) : M unit :=
  match catalog with
  | [] => ret tt
  | configured_stream :: rest =>
      try_except (read_configured src connector_state configured_stream)
                 (on_exception src) ;;
      read_catalog src connector_state rest
  end.

Definition read (src : Source) (catalog : list ConfiguredAirbyteStream)
    (state : option loc) : M unit :=
  connector_state <- deepcopy state ;;
  log (INFO "Starting syncing {}" [AStr (source_name src)]) ;;
  read_catalog src connector_state catalog ;;
  log (INFO "Finished syncing {}" [AStr (source_name src)]).

End AbstractSource.

(** ** The Slack connector: incremental message streams *)

Module Slack.

(** Timestamps are in seconds; [add(days=n)] adds [n] days of 86400 seconds. *)
Definition day : Z := 86400.

Definition chunk (start_date interval : Z) : gmap string Z :=
  {[ "oldest" := start_date; "latest" := start_date + interval * day ]}.

(** The [while start_date <= now] loop of [chunk_date_range]. *)
Fixpoint chunk_loop (fuel : nat) (start_date now interval : Z)
    (intervals : list (gmap string Z)) : option (list (gmap string Z)) :=
  if start_date <=? now then
    match fuel with
    | O => None
    | S fuel' =>
        chunk_loop fuel' (start_date + day) now interval
          (intervals ++ [chunk start_date interval])
    end
  else Some intervals.

(** One iteration for every day from [start_date] up to [now]. *)
Definition chunk_fuel (start_date now : Z) : nat :=
  Z.to_nat ((now - start_date) / day + 1).

(** [now] is the value of [pendulum.now()] in the call. *)
Definition chunk_date_range (start_date now interval : Z) : list (gmap string Z) :=
  default [] (chunk_loop (chunk_fuel start_date now) start_date now interval []).

(** [float(z)] of an integer: the double nearest to it, the one with the even
    significand when two are as near.  Up to 2^53 in magnitude that is the
    integer itself; beyond, the bits below the 53 leading ones are rounded
    away; an integer that rounds to 2^1024 or more raises OverflowError. *)
Definition float (z : Z) : res Z :=
  let a := Z.abs z in
  if a <? 2 ^ 53 then Ok z
  else
    let e := Z.log2 a - 52 in
    let q := Z.shiftr a e in
    let r := Z.land a (Z.ones e) in
    let half := Z.shiftl 1 (e - 1) in
    let q' := if (half <? r) || ((r =? half) && Z.odd q) then q + 1 else q in
    let m := Z.shiftl q' e in
    if 2 ^ 1024 <=? m then Err (OverflowError "int too large to convert to float")
    else Ok (Z.sgn z * m).

(** [IncrementalMessageStream.get_updated_state]: the empty dictionary is
    falsy, so [current_stream_state or {}] is a new dictionary then, and the
    given one otherwise.  The value of the record is converted by [float];
    the value tracked so far is taken as it is. *)
Definition get_updated_state (current_stream_state : blob)
    (latest_record : record_data) : res state_update :=
  match latest_record !! "ts" with
  | None => Err (KeyError "ts")
  | Some ts =>
      match float ts with
      | Err e => Err e
      | Ok ts =>
          let ts' := Z.max ts (default 0 (current_stream_state !! "ts")) in
          if bool_decide (current_stream_state = ∅)
          then Ok (NewDict (<["ts" := ts']> ∅))
          else Ok (InPlace (<["ts" := ts']> current_stream_state))
      end
  end.

(** [ChannelMessages.stream_slices]; [pendulum.from_timestamp] is the identity
    on timestamps. *)
Definition stream_slices (default_start_date now : Z) (stream_state : option blob)
    : list (gmap string Z) :=
  let stream_state := default ∅ stream_state in
  let start_date := default default_start_date (stream_state !! "start_ts") in
  chunk_date_range start_date now 1.

(** The Slack workspace as the connector sees it: the ids of the channels that
    [Channels.read_records] yields, and the messages that
    [HttpStream.read_records] yields for the request parameters of a slice. *)
Record Api := {
  channels : gen Z;
  history : gmap string Z -> gen record_data
}.

(** [ChannelMessages.read_records] *)
Definition read_records (api : Api) (stream_slice : slice) : gen record_data :=
  match stream_slice with
  | None => Raise (TypeError "argument of type 'NoneType' is not iterable")
  | Some stream_slice =>
      if bool_decide (is_Some (stream_slice !! "channel"))
      then history api stream_slice
      else
        (fix go chs :=
           match chs with
           | Done => Done
           | Raise e => Raise e
           | Yield id rest =>
               gen_app (history api (<["channel" := id]> stream_slice)) (go rest)
           end) (channels api)
  end.

(** The [ChannelMessages] stream: its name, its support of incremental syncs
    (it declares the cursor field "ts"), its checkpoint interval, then
    [stream_slices], [read_records] and [get_updated_state].  The first three
    are inherited from base classes; the interval is a parameter here. *)
Definition ChannelMessages (checkpoint_interval : option Z)
    (default_start_date now : Z) (api : Api) : Stream :=
  Build_Stream "channel_messages" true checkpoint_interval
    (fun _ _ stream_state =>
       of_list (Some <$> stream_slices default_start_date now stream_state))
    (fun _ _ stream_slice _ => read_records api stream_slice)
    get_updated_state.

(** [SourceSlack] restricted to the [ChannelMessages] stream; the default
    start date is [pendulum.now().subtract(days=14)]. *)
Definition SourceSlack (now : Z) (api : Api) : Source := {|
  source_name := "SourceSlack";
  streams := [ChannelMessages None (now - 14 * day) now api]
|}.

(** A workspace with one channel and two messages. *)
Definition two_messages : list record_data :=
  [ {[ "ts" := 15 * day + 100 ]}; {[ "ts" := 16 * day + 200 ]} ].

Definition in_window (params : gmap string Z) (r : record_data) : bool :=
  match r !! "ts", params !! "oldest", params !! "latest" with
  | Some ts, Some oldest, Some latest => (oldest <? ts) && (ts <? latest)
  | _, _, _ => false
  end.

Definition workspace : Api := {|
  channels := of_list [1];
  history := fun params => of_list (filter (fun r => in_window params r = true) two_messages)
|}.

Definition catalog : list ConfiguredAirbyteStream :=
  [ {| stream_name := "channel_messages"; sync_mode := incremental;
       cursor_field := ["ts"] |} ].

Definition empty_heap : heap := Heap ∅ ∅.

(** A store that holds a caller's state with one stream entry. *)
Definition seeded (stream : string) (b : blob) : heap :=
  Heap {[ 1%positive := b ]} {[ 1%positive := {[ stream := 1%positive ]} ]}.

End Slack.


(** * The vocabulary of the properties *)

(** Every event of the trace is a log line or a RECORD of the given stream. *)
Definition records_only (stream_name : string) (now : Z) (tr : list event) : Prop :=
  Forall (fun e => match e with
                   | Emit (RECORD n _ t) => n = stream_name /\ t = now
                   | Emit (STATE _) => False
                   | Log _ => True
                   end) tr.

(** The number of record counters in [1..n] at which a checkpoint is due. *)
Definition intermediate (checkpoint_interval : option Z) (n : nat) : Z :=
  match checkpoint_interval with
  | Some k => Z.of_nat n / k
  | None => 0
  end.

(** The store after [connector_state[stream_name] = stream_state]. *)
Definition checkpointed (stream_name : string) (stream_state connector_state : loc)
    (h : heap) : heap :=
  store (_checkpoint_state stream_name stream_state connector_state h).

(** The events of [yield self._checkpoint_state(...)]. *)
Definition checkpoint_events (stream_name : string) (stream_state connector_state : loc)
    (h : heap) : list event :=
  [ Log (INFO "Setting state of {} stream to {}"
           [AStr stream_name; ABlob (content h stream_state)]);
    Emit (STATE (view (checkpointed stream_name stream_state connector_state h)
                   connector_state)) ].

(** [MessageType] *)
Inductive MessageType := Type_RECORD | Type_STATE.

(** [message.type] *)
Definition type_of (m : AirbyteMessage) : MessageType :=
  match m with
  | RECORD _ _ _ => Type_RECORD
  | STATE _ => Type_STATE
  end.

(** What follows the i-th record of a slice: a STATE message when [i] is a
    multiple of the checkpoint interval, nothing otherwise. *)
Definition after_record (checkpoint_interval : option Z) (i : nat) : list MessageType :=
  match checkpoint_interval with
  | Some k => if Z.of_nat i mod k =? 0 then [Type_STATE] else []
  | None => []
  end.

(** The message types of the records [from + 1 .. from + n] of a slice. *)
Definition record_types (checkpoint_interval : option Z) (from n : nat)
    : list MessageType :=
  flat_map (fun i => Type_RECORD :: after_record checkpoint_interval i)
    (seq (S from) n).

(** The message types of a slice of [n] records: the records with their
    intermediate checkpoints, and the checkpoint at the end of the slice. *)
Definition slice_types (checkpoint_interval : option Z) (n : nat) : list MessageType :=
  record_types checkpoint_interval 0 n ++ [Type_STATE].

(** Records on which [get_updated_state] does not raise. *)
Definition accepted (stream_instance : Stream) (record_data : record_data) : Prop :=
  forall b, exists u, get_updated_state stream_instance b record_data = Ok u.

(** The checkpoints of a run over slices of the given sizes: the intermediate
    ones of each slice and one more at its end. *)
Definition checkpoints_of_slices (checkpoint_interval : option Z) (sizes : list nat)
    : Z :=
  foldr (fun n acc => intermediate checkpoint_interval n + 1 + acc) 0 sizes.

(** Every slice of the list yields as many records as [size] says, all of
    them accepted, whatever the stream state. *)
Definition yields_accepted (stream_instance : Stream)
    (configured_stream : ConfiguredAirbyteStream) (size : slice -> nat)
    (slices : list slice) : Prop :=
  forall sl, sl ∈ slices -> forall b, exists rs,
    read_records stream_instance incremental
      (or_None (cursor_field configured_stream)) sl (Some b) = of_list rs
    /\ length rs = size sl
    /\ Forall (accepted stream_instance) rs.

(** The log line written when a stream fails. *)
Definition failure_log (src : Source) : event :=
  Log (EXCEPTION "Encountered an exception while reading stream {}"
         [AStr (source_name src)]).

(** Whether the values interpolated in a log line include the stream name, and
    whether they include the record count. *)
Definition mentions_stream (stream : string) (args : list log_arg) : bool :=
  existsb (fun a => match a with
                    | AStr s => String.eqb s stream
                    | _ => false
                    end) args.

Definition mentions_count (n : nat) (args : list log_arg) : bool :=
  existsb (fun a => match a with
                    | ANat m => Nat.eqb m n
                    | _ => false
                    end) args.

Definition reports_failure (stream : string) (n : nat) (tr : list event) : bool :=
  existsb (fun e => match e with
                    | Log (EXCEPTION _ args) =>
                        mentions_stream stream args && mentions_count n args
                    | _ => false
                    end) tr.

(** A connector state whose stream entries are distinct, existing
    dictionaries, as one parsed from JSON is. *)
Definition tree (h : heap) (c : loc) : Prop :=
  (forall n1 n2 l,
      entries h c !! n1 = Some l -> entries h c !! n2 = Some l -> n1 = n2)
  /\ (forall n l, entries h c !! n = Some l -> l ∈ dom (blobs h)).

(** The stream state [s] of the stream [cur] being read: an existing
    dictionary that no entry of another stream refers to. *)
Definition attached (h : heap) (c : loc) (cur : string) (s : loc) : Prop :=
  tree h c
  /\ s ∈ dom (blobs h)
  /\ (forall n, entries h c !! n = Some s -> n = cur).

(** Two snapshots that agree on every stream but [cur]. *)
Definition agree_off (cur : string) (S1 S2 : snapshot) : Prop :=
  forall n, n <> cur -> S1 !! n = S2 !! n.

(** The connector states of the STATE messages of a trace, in order. *)
Fixpoint states (tr : list event) : list snapshot :=
  match tr with
  | [] => []
  | Emit (STATE data) :: tr' => data :: states tr'
  | _ :: tr' => states tr'
  end.

(** Every snapshot of the list is the one before it (at first [prev]) with
    the entry of one of the streams [names] replaced. *)
Fixpoint full_maps (names : list string) (prev : snapshot) (ds : list snapshot) : Prop :=
  match ds with
  | [] => True
  | D :: ds' =>
      (exists n b, n ∈ names /\ D = <[n := b]> prev) /\ full_maps names D ds'
  end.

(** The last snapshot of the list, or [B] when there is none. *)
Definition last_or (B : snapshot) (ds : list snapshot) : snapshot :=
  default B (last ds).

(** The connector states of the STATE messages of a list of messages. *)
Definition snapshots (ms : list AirbyteMessage) : list snapshot :=
  omap (fun m => match m with
                 | STATE D => Some D
                 | RECORD _ _ _ => None
                 end) ms.

(** The messages [ms] of an incremental pass over the stream [n], from the
    point where the stream state reads [b] and the connector state read [prev]
    at the last STATE message (at first, when the pass began).  Every record
    updates the stream state by [get_updated_state], and every STATE message
    carries [prev] with the entry of [n] replaced by the stream state as it
    is then; a record on which the update raises is the last message. *)
Fixpoint current_entries (stream_instance : Stream) (n : string) (prev : snapshot)
    (b : blob) (ms : list AirbyteMessage) : Prop :=
  match ms with
  | [] => True
  | RECORD _ x _ :: ms' =>
      match get_updated_state stream_instance b x with
      | Ok u => current_entries stream_instance n prev (updated u) ms'
      | Err _ => ms' = []
      end
  | STATE D :: ms' =>
      D = <[n := b]> prev /\ current_entries stream_instance n D b ms'
  end.

(** The messages of the pass over one configured stream, begun when the
    connector state read [prev]: an incremental pass starts from the entry of
    the stream in [prev], or from the empty dictionary when there is none; any
    other pass has no STATE message, and a stream that the source lacks has no
    message at all. *)
Definition pass_entries (src : Source) (configured_stream : ConfiguredAirbyteStream)
    (prev : snapshot) (ms : list AirbyteMessage) : Prop :=
  match stream_instances src !! stream_name configured_stream with
  | None => ms = []
  | Some stream_instance =>
      if use_incremental configured_stream stream_instance
      then current_entries stream_instance (stream_name configured_stream) prev
             (default ∅ (prev !! stream_name configured_stream)) ms
      else snapshots ms = []
  end.

(** The passes of a run over the catalog, from the connector state [prev]:
    every pass begins with the connector state of the last STATE message
    before it. *)
Fixpoint run_entries (src : Source) (catalog : list ConfiguredAirbyteStream)
    (prev : snapshot) (ps : list (list AirbyteMessage)) {struct ps} : Prop :=
  match ps with
  | [] => True
  | ms :: ps' =>
      match catalog with
      | [] => False
      | configured_stream :: catalog' =>
          pass_entries src configured_stream prev ms
          /\ run_entries src catalog' (last_or prev (snapshots ms)) ps'
      end
  end.

(** The messages of the loop of [read], pass by pass: one list for every
    configured stream that the loop reaches. *)
Fixpoint passes (now : Z) (src : Source) (connector_state : loc)
    (catalog : list ConfiguredAirbyteStream) (h : heap) : list (list AirbyteMessage) :=
  match catalog with
  | [] => []
  | configured_stream :: rest =>
      let r := try_except (read_configured now src connector_state configured_stream)
                 (on_exception src) h in
      messages (trace r)
      :: match outcome r with
         | Ok _ => passes now src connector_state rest (store r)
         | Err _ => []
         end
  end.

(** The content of the dictionary [state or {}]. *)
Definition seed_entries (h : heap) (state : option loc) : gmap string loc :=
  match state with
  | None => ∅
  | Some l => entries h l
  end.

(** What the caller's state reads as. *)
Definition seed_view (h : heap) (state : option loc) : snapshot :=
  content h <$> seed_entries h state.

(** An entry map without sharing whose targets exist. *)
Definition separate (t : gmap string loc) (h : heap) : Prop :=
  (forall n1 n2 l, t !! n1 = Some l -> t !! n2 = Some l -> n1 = n2)
  /\ (forall n l, t !! n = Some l -> l ∈ dom (blobs h)).

(** The objects of [h0] are in [h] as they were. *)
Definition kept (h0 h : heap) : Prop :=
  blobs h0 ⊆ blobs h /\ tops h0 ⊆ tops h.

(** The connector state [c] and the dictionaries it refers to are objects
    that [h0] does not have. *)
Definition private (h0 : heap) (c : loc) (h : heap) : Prop :=
  (c ∉ dom (tops h0))
  /\ forall k l, entries h c !! k = Some l -> l ∉ dom (blobs h0).

(** The value [stream_state.get("ts", 0)] of a stream state. *)
Definition tracked (h : heap) (s : loc) : Z := default 0 (content h s !! "ts").

(** That value for the stream state a run of the records loop returns. *)
Definition tracked_after (r : run loc) : option Z :=
  match outcome r with
  | Ok s' => Some (tracked (store r) s')
  | Err _ => None
  end.



(** A record with a cursor value that [float] converts. *)
Definition convertible (r : record_data) : Prop :=
  exists ts v, r !! "ts" = Some ts /\ Slack.float ts = Ok v.

(** A record on which the state update of the Slack message streams raises
    [e]: it has no cursor value, or one beyond the range of [float]. *)
Definition refused (r : record_data) (e : exn) : Prop :=
  (r !! "ts" = None /\ e = KeyError "ts")
  \/ (exists ts, r !! "ts" = Some ts /\ Slack.float ts = Err e).

(** A record with a cursor value that a double holds as it is: an integer of
    magnitude 2^53 at most. *)
Definition exact (r : record_data) : Prop :=
  exists ts, r !! "ts" = Some ts /\ Z.abs ts <= 2 ^ 53.

(** The dictionary [b] tracks a cursor value at least that of the record. *)
Definition covers_blob (k : string) (b : blob) (x : record_data) : Prop :=
  forall v, x !! k = Some v -> exists t, b !! k = Some t /\ v <= t.

(** The snapshot has an entry for the stream that covers the record;
    [cursor] gives the cursor field of every stream, by stream name. *)
Definition covers (cursor : string -> string) (D : snapshot) (n : string)
    (x : record_data) : Prop :=
  forall v, x !! cursor n = Some v ->
    exists b t, D !! n = Some b /\ b !! cursor n = Some t /\ v <= t.

(** [get_updated_state] raises on a record without the cursor field and
    otherwise tracks the maximum of the record's cursor value and the value
    tracked so far (0 when there is none). *)
Definition folds_max (k : string) (stream_instance : Stream) : Prop :=
  forall b x u,
    get_updated_state stream_instance b x = Ok u ->
    exists v, x !! k = Some v
              /\ updated u !! k = Some (Z.max v (default 0 (b !! k))).

(** The records met when the messages [ms] follow the records [seen]. *)
Fixpoint seen_after (seen : list (string * record_data)) (ms : list AirbyteMessage)
    : list (string * record_data) :=
  match ms with
  | [] => seen
  | RECORD n x _ :: ms' => seen_after ((n, x) :: seen) ms'
  | STATE _ :: ms' => seen_after seen ms'
  end.

(** Every STATE message covers the records before it. *)
Fixpoint ordered (cursor : string -> string) (seen : list (string * record_data))
    (ms : list AirbyteMessage) : Prop :=
  match ms with
  | [] => True
  | RECORD n x _ :: ms' => ordered cursor ((n, x) :: seen) ms'
  | STATE D :: ms' =>
      (forall n x, (n, x) ∈ seen -> covers cursor D n x) /\ ordered cursor seen ms'
  end.

(** The records seen of the streams other than [cur] are covered by the
    connector state [c]. *)
Definition others_covered (cursor : string -> string) (c : loc) (cur : string)
    (seen : list (string * record_data)) (h : heap) : Prop :=
  forall n x, (n, x) ∈ seen -> n <> cur -> covers cursor (view h c) n x.

(** The records seen of the stream [cur] are covered by its stream state [s]. *)
Definition own_covered (cursor : string -> string) (cur : string)
    (seen : list (string * record_data)) (h : heap) (s : loc) : Prop :=
  forall x, (cur, x) ∈ seen -> covers_blob (cursor cur) (content h s) x.

(** All records seen are covered by the connector state [c]. *)
Definition all_covered (cursor : string -> string) (c : loc)
    (seen : list (string * record_data)) (h : heap) : Prop :=
  forall n x, (n, x) ∈ seen -> covers cursor (view h c) n x.

(** Every configured stream that the source knows is read incrementally and
    its [get_updated_state] folds the maximum. *)
Definition incremental_read (cursor : string -> string) (src : Source)
    (catalog : list ConfiguredAirbyteStream) : Prop :=
  Forall (fun cs =>
            forall inst, stream_instances src !! stream_name cs = Some inst ->
              use_incremental cs inst = true
              /\ folds_max (cursor (stream_name cs)) inst) catalog.

(** The exception-level log lines of a trace. *)
Definition exception_logs (tr : list event) : list log_entry :=
  omap (fun e => match e with
                 | Log (EXCEPTION t a) => Some (EXCEPTION t a)
                 | _ => None
                 end) tr.

(** ** Inputs of the examples *)

Definition full_refresh_stream : Stream := {|
  name := "users";
  supports_incremental := false;
  state_checkpoint_interval := None;
  stream_slices := fun _ _ _ => of_list [None];
  read_records := fun _ _ _ _ =>
    of_list [ ({[ "id" := 1 ]} : record_data); {[ "id" := 2 ]} ];
  get_updated_state := fun _ _ => Ok (NewDict ∅)
|}.

Definition users_incremental : ConfiguredAirbyteStream :=
  {| stream_name := "users"; sync_mode := incremental; cursor_field := [] |}.

(** A stream with one slice holding the records ts = 1..5, checkpointing every
    second record, with the state updates of the Slack message streams. *)
Definition five_records : Stream := {|
  name := "messages";
  supports_incremental := true;
  state_checkpoint_interval := Some 2;
  stream_slices := fun _ _ _ => of_list [None];
  read_records := fun _ _ _ _ =>
    of_list ((fun ts => ({[ "ts" := ts ]} : record_data)) <$> [1; 2; 3; 4; 5]);
  get_updated_state := Slack.get_updated_state
|}.

Definition messages_incremental : ConfiguredAirbyteStream :=
  {| stream_name := "messages"; sync_mode := incremental; cursor_field := ["ts"] |}.

Definition five_source : Source :=
  {| source_name := "Five"; streams := [five_records] |}.

(** A state update that tracks the maximum of the cursor "ts" as the records
    give it, without a conversion:
    [state["ts"] = max(record["ts"], state.get("ts", 0))]. *)
Definition track_max (current_stream_state : blob) (latest_record : record_data)
    : res state_update :=
  match latest_record !! "ts" with
  | None => Err (KeyError "ts")
  | Some ts =>
      Ok (InPlace (<["ts" := Z.max ts (default 0 (current_stream_state !! "ts"))]>
                     current_stream_state))
  end.

(** The stream of the five records with that state update, and its source. *)
Definition exact_records : Stream :=
  Build_Stream "messages" true (Some 2)
    (stream_slices five_records) (read_records five_records) track_max.

Definition exact_source : Source :=
  {| source_name := "Exact"; streams := [exact_records] |}.

(** The records ts = 1, 2 read into a stream state that tracks ts = 10. *)
Definition two_records : list record_data := [ {[ "ts" := 1 ]}; {[ "ts" := 2 ]} ].

Definition tracking_ten : heap := Heap {[ 1%positive := {[ "ts" := 10 ]} ]} ∅.

(** The time of the syncs, and the source at that time. *)
Definition sync_time : Z := 28 * Slack.day.

Definition slack_source : Source := Slack.SourceSlack sync_time Slack.workspace.

(** A workspace whose API fails from the third day of the sync window on. *)
Definition failing_workspace : Slack.Api := {|
  Slack.channels := of_list [1];
  Slack.history := fun params =>
    match params !! "oldest" with
    | Some oldest =>
        if oldest <? 16 * Slack.day
        then of_list (filter (fun r => Slack.in_window params r = true)
                        Slack.two_messages)
        else Raise (StreamError "HTTP 500")
    | None => Raise (StreamError "HTTP 500")
    end
|}.

Definition failing_source : Source := Slack.SourceSlack sync_time failing_workspace.

Definition channel_messages_incremental : ConfiguredAirbyteStream :=
  {| stream_name := "channel_messages"; sync_mode := incremental;
     cursor_field := ["ts"] |}.

(** * More of the code *)

(** ** Inputs of further examples *)

(** A record without the cursor field. *)
Definition no_ts : record_data := {[ "text" := 0 ]}.

(** The RECORD messages of a run, in the order of their emission. *)
Definition record_messages (tr : list event) : list AirbyteMessage :=
  omap (fun e => match e with
                 | Emit (RECORD n d t) => Some (RECORD n d t)
                 | _ => None
                 end) tr.

(** The stream of the five records with a checkpoint interval of zero. *)
Definition zero_interval : Stream :=
  Build_Stream "messages" true (Some 0)
    (stream_slices five_records) (read_records five_records)
    Slack.get_updated_state.

(** ** Connection checks *)

Inductive Status := SUCCEEDED | FAILED.

Record AirbyteConnectionStatus := {
  status : Status;
  message : option string
}.

(** [str(e)] of an exception: a KeyError prints its key in quotes. *)
Definition str_exn (e : exn) : string :=
  match e with
  | KeyError key => String.append "'" (String.append key "'")
  | TypeError msg => msg
  | OverflowError msg => msg
  | StreamError msg => msg
  end.

(** [str(error)] of the error object of a failed check, [None] included. *)
Definition str_error (error : option string) : string := default "None" error.

(** [AbstractSource.check], on what [check_connection] returns or raises. *)
Definition check (check_connection : res (bool * option string))
    : AirbyteConnectionStatus :=
  match check_connection with
  | Ok (check_succeeded, error) =>
      if check_succeeded
      then {| status := SUCCEEDED; message := None |}
      else {| status := FAILED; message := Some (str_error error) |}
  | Err e => {| status := FAILED; message := Some (str_exn e) |}
  end.

(** ** The other streams of the Slack connector *)

(** [for a in g: yield from f a] *)
Fixpoint gen_bind {A B} (g : gen A) (f : A -> gen B) : gen B :=
  match g with
  | Done => Done
  | Raise e => Raise e
  | Yield a rest => gen_app (f a) (gen_bind rest f)
  end.

(** The value of a request parameter. *)
Inductive param :=
| PNum (z : Z)
| PStr (s : string).

Module SlackStream.

(** What a stream looks at in the body of a response:
    [response_metadata.next_cursor] and the list under the stream's data
    field. *)
Record Response (A : Type) := {
  next_cursor : option string;
  data : option (list A)
}.
Arguments next_cursor {A} r.
Arguments data {A} r.

Definition next_page_token {A} (response : Response A) : option (gmap string param) :=
  match next_cursor response with
  | Some cursor =>
      if bool_decide (cursor = "") then None else Some {[ "cursor" := PStr cursor ]}
  | None => None
  end.

(** [params.update] with the token: the keys of the token override. *)
Definition request_params (next_page_token : option (gmap string param))
    : gmap string param :=
  match next_page_token with
  | Some token => token ∪ {[ "limit" := PNum 100 ]}
  | None => {[ "limit" := PNum 100 ]}
  end.

Definition parse_response {A} (response : Response A) : list A :=
  default [] (data response).

End SlackStream.

Module Channels.

Definition request_params (next_page_token : option (gmap string param))
    : gmap string param :=
  <["types" := PStr "public_channel"]> (SlackStream.request_params next_page_token).

End Channels.

Module ChannelMembers.

Definition request_params (stream_slice : slice)
    (next_page_token : option (gmap string param)) : res (gmap string param) :=
  let params := SlackStream.request_params next_page_token in
  match stream_slice with
  | None => Err (TypeError "'NoneType' object is not subscriptable")
  | Some stream_slice =>
      match stream_slice !! "channel_id" with
      | None => Err (KeyError "channel_id")
      | Some channel_id => Ok (<["channel" := PNum channel_id]> params)
      end
  end.

(** The member ids of a page, each put beside the channel of the slice; the
    slice is looked at when a member is yielded. *)
Definition parse_response (response : SlackStream.Response Z) (stream_slice : slice)
    : gen record_data :=
  (fix go members :=
     match members with
     | [] => Done
     | member_id :: rest =>
         match stream_slice with
         | None => Raise (TypeError "'NoneType' object is not subscriptable")
         | Some stream_slice =>
             match stream_slice !! "channel_id" with
             | None => Raise (KeyError "channel_id")
             | Some channel_id =>
                 Yield {[ "member_id" := member_id; "channel_id" := channel_id ]}
                       (go rest)
             end
         end
     end) (SlackStream.parse_response response).

(** One slice for every record of the [Channels] stream. *)
Definition stream_slices (channel_records : gen record_data) : gen slice :=
  gen_bind channel_records
    (fun channel_record =>
       match channel_record !! "id" with
       | None => Raise (KeyError "id")
       | Some id => Yield (Some {[ "channel_id" := id ]}) Done
       end).

End ChannelMembers.

Module IncrementalMessageStream.

(** [params.update] with the slice: the keys of the slice override.  Without
    a slice the call raises a TypeError; its message is given without the
    name of the callee that precedes it. *)
Definition request_params (stream_slice : slice)
    (next_page_token : option (gmap string param)) : res (gmap string param) :=
  let params := SlackStream.request_params next_page_token in
  match stream_slice with
  | None => Err (TypeError "argument after ** must be a mapping, not NoneType")
  | Some stream_slice => Ok ((PNum <$> stream_slice) ∪ params)
  end.

End IncrementalMessageStream.

Module Threads.

(** [Threads.stream_slices], with a lookback window of [lookback] days. *)
Definition stream_slices (lookback default_start_date now : Z) (api : Slack.Api)
    (stream_state : option blob) : gen slice :=
  let stream_state := default ∅ stream_state in
  let messages_start_date :=
    match stream_state !! "start_ts" with
    | Some start_ts => start_ts - lookback * Slack.day
    | None => default_start_date
    end in
  gen_bind
    (of_list (Slack.stream_slices messages_start_date now
                (Some {[ "start_ts" := messages_start_date ]})))
    (fun message_chunk =>
       gen_bind (Slack.channels api)
         (fun channel =>
            gen_bind
              (Slack.read_records api (Some (<["channel" := channel]> message_chunk)))
              (fun message =>
                 match message !! "ts" with
                 | None => Raise (KeyError "ts")
                 | Some ts => Yield (Some {[ "channel" := channel; "ts" := ts ]}) Done
                 end))).

End Threads.

Module SourceSlackCheck.

(** [SourceSlack.check_connection], on what making the client and calling
    [users_list(limit=1)] returns or raises: the list under "members" of the
    response, when there is one. *)
Definition check_connection (users_list : res (option (list Z)))
    : res (bool * option string) :=
  match users_list with
  | Err e => Err e
  | Ok members =>
      let users := default [] members in
      if (0 <? length users)%nat then Ok (true, None)
      else Ok (false, Some "There are no users in the given Slack instance")
  end.

End SourceSlackCheck.

(** ** Dictionaries that keep the order of their keys *)

Module Dict.

(** A dictionary with its keys in the order of their first insertion, as
    [keys()] and [items()] list them. *)
Definition t (V : Type) := list (string * V).

(** [d[key] = value] *)
Fixpoint setitem {V} (d : t V) (key : string) (value : V) : t V :=
  match d with
  | [] => [(key, value)]
  | (k, v) :: d' =>
      if String.eqb k key then (k, value) :: d' else (k, v) :: setitem d' key value
  end.

(** [d.get(key)] *)
Fixpoint get {V} (d : t V) (key : string) : option V :=
  match d with
  | [] => None
  | (k, v) :: d' => if String.eqb k key then Some v else get d' key
  end.

(** [d.keys()] *)
Definition keys {V} (d : t V) : list string := d.*1.

End Dict.

(** ** The base client *)

Module Client.

(** [s.startswith(prefix)] *)
Fixpoint startswith (s prefix : string) {struct prefix} : bool :=
  match prefix with
  | EmptyString => true
  | String a prefix' =>
      match s with
      | EmptyString => false
      | String b s' => Ascii.eqb a b && startswith s' prefix'
      end
  end.

(** [s[n:]] *)
Fixpoint from (n : nat) (s : string) {struct n} : string :=
  match n with
  | O => s
  | S n' =>
      match s with
      | EmptyString => EmptyString
      | String _ s' => from n' s'
      end
  end.

Record AirbyteStream (Schema : Type) := {
  stream_name : string;
  json_schema : Schema;
  supported_sync_modes : list SyncMode;
  source_defined_cursor : bool
}.
Arguments stream_name {Schema} a.
Arguments json_schema {Schema} a.
Arguments supported_sync_modes {Schema} a.
Arguments source_defined_cursor {Schema} a.

(** What [_get_stream_method] gives: the method, or the message of its
    ValueError. *)
Inductive lookup_result (Method : Type) :=
| Found (method : Method)
| ValueError (msg : string).
Arguments Found {Method} method.
Arguments ValueError {Method} msg.

Section BaseClient.

(** The functions of the client's class and the schemas of the schema
    loader; [stream_has_state] is the method of that name, which a client may
    override. *)
Variable Method Schema : Type.
Variable get_schema : string -> res Schema.
Variable stream_has_state : string -> bool.

Definition prefix : string := "stream__".

(** [members] is what [inspect.getmembers] lists: the functions of the class
    with their names. *)
Definition _enumerate_methods (members : list (string * Method)) : Dict.t Method :=
  foldl (fun mapping '(name, method) =>
           if startswith name prefix
           then Dict.setitem mapping (from (String.length prefix) name) method
           else mapping)
        [] members.

(** A method is never falsy, so the error is raised for the names that the
    mapping lacks. *)
Definition _get_stream_method (_stream_methods : Dict.t Method) (name : string)
    : lookup_result Method :=
  match Dict.get _stream_methods name with
  | Some method => Found method
  | None =>
      ValueError
        (String.append "Client does not know how to read stream `"
           (String.append name "`"))
  end.

Fixpoint streams (_stream_methods : Dict.t Method) : gen (AirbyteStream Schema) :=
  match _stream_methods with
  | [] => Done
  | (name, _) :: rest =>
      let supported_sync_modes :=
        if stream_has_state name then [full_refresh; incremental] else [full_refresh] in
      let source_defined_cursor := if stream_has_state name then true else false in
      match get_schema name with
      | Err e => Raise e
      | Ok schema =>
          Yield {| stream_name := name;
                   json_schema := schema;
                   supported_sync_modes := supported_sync_modes;
                   source_defined_cursor := source_defined_cursor |}
                (streams rest)
      end
  end.

End BaseClient.

End Client.

(** The functions of a client with two streams, as [inspect.getmembers] lists
    them; the methods are numbered. *)
Definition client_members : list (string * nat) :=
  [ ("health_check", 0%nat); ("stream__accounts", 1%nat); ("stream__users", 2%nat) ].

(** ** The Smartsheets connector *)

Module Smartsheets.

(** *** The schema of a sheet *)

(** The JSON-schema of a column: its "type" and, when there is one, its
    "format". *)
Record Prop_ := {
  type : string;
  format : option string
}.

Definition get_prop (col_type : string) : Prop_ :=
  if bool_decide (col_type = "TEXT_NUMBER") then {| type := "string"; format := None |}
  else if bool_decide (col_type = "DATE")
  then {| type := "string"; format := Some "date" |}
  else if bool_decide (col_type = "DATETIME")
  then {| type := "string"; format := Some "date-time" |}
  else {| type := "string"; format := None |}.

(** The exceptions that the connector's own code raises, the error of an API
    call, and the [Exception] that [discover] raises with the text of
    another. *)
Inductive error :=
| KeyError (key : string)
| UnboundLocalError (variable : string)
| ApiError (msg : string)
| Exception (template : string) (cause : error).

Inductive answer (A : Type) :=
| Returned (a : A)
| Raised (e : error).
Arguments Returned {A} a.
Arguments Raised {A} e.

(** A column of the sheet as the API gives it: the values under "title" and
    "type", when the keys are there. *)
Record Column := {
  title : option string;
  col_type : option string
}.

(** The "properties" of [get_json_schema]: the dictionary comprehension
    evaluates the title of a column before its type, and a later column of
    the same title replaces the property of an earlier one. *)
Fixpoint column_info (columns : list Column) (acc : Dict.t Prop_)
    : answer (Dict.t Prop_) :=
  match columns with
  | [] => Returned acc
  | i :: rest =>
      match title i with
      | None => Raised (KeyError "title")
      | Some t =>
          match col_type i with
          | None => Raised (KeyError "type")
          | Some ty => column_info rest (Dict.setitem acc t (get_prop ty))
          end
      end
  end.

(** [sheet_columns] is the value under "columns" of the sheet, when the key is
    there; the result is the value under "properties" of the schema. *)
Definition get_json_schema (sheet_columns : option (list Column))
    : answer (Dict.t Prop_) :=
  match sheet_columns with
  | None => Raised (KeyError "columns")
  | Some columns => column_info columns []
  end.

(** *** Reading a sheet *)

(** A cell is the value under its "value", when the key is there; a row is
    the list under its "cells". *)
Abbreviation Cell := (option Z).
Abbreviation Row := (option (list Cell)).

(** A sheet as the API gives it, made subscriptable: the values under
    "name", "totalRowCount", "columns" and "rows", when the keys are there. *)
Record Sheet := {
  sheet_name : option string;
  totalRowCount : option Z;
  sheet_columns : option (list Column);
  rows : option (list Row)
}.

(** The "properties" of the JSON-schema of a configured stream: a list of
    dictionaries, a dictionary, each given by its keys in order, or a value of
    another type. *)
Inductive Properties :=
| PList (dcts : list (list string))
| PDict (keys : list string)
| POther.

Record ConfiguredStream := {
  name : string;
  properties : option Properties
}.

Record Config := {
  access_token : option string;
  spreadsheet_id : option string
}.

Inductive arg :=
| Str (s : string)
| Num (z : Z)
| Exn (e : error).

(** What the generator does, in order: the messages it yields and the lines
    it logs, each line with its template and the values interpolated. *)
Inductive event :=
| Yielded (m : AirbyteMessage)
| Info (template : string) (args : list arg)
| Error (template : string) (args : list arg).

(** [tuple(i["value"] for i in cells)] *)
Fixpoint cell_values (cells : list Cell) : answer (list Z) :=
  match cells with
  | [] => Returned []
  | None :: _ => Raised (KeyError "value")
  | Some value :: rest =>
      match cell_values rest with
      | Returned values => Returned (value :: values)
      | Raised e => Raised e
      end
  end.

Definition row_values (row : Row) : answer (list Z) :=
  match row with
  | None => Raised (KeyError "cells")
  | Some cells => cell_values cells
  end.

(** [dict(zip(columns, values))]: the pairs stop with the shorter of the two,
    and a later pair of the same column replaces an earlier one. *)
Definition data_of (columns : list string) (values : list Z) : record_data :=
  foldl (fun data '(column, value) => <[column := value]> data) ∅
        (zip columns values).

Section Read.

(** [now] is [int(datetime.now().timestamp())]; [get_sheet n] is the sheet
    that the n-th call of [Sheets.get_sheet] returns, made subscriptable, or
    what the call raises. *)
Variable now : Z.
Variable get_sheet : nat -> answer Sheet.

(** The inner [try]: [columns] is unbound when no stream so far had its
    properties read. *)
Definition encode (columns : option (list string)) (name : string)
    (values : list Z) : event :=
  match columns with
  | None =>
      Error "Unable to encode row into an AirbyteMessage with the following error: {}"
            [Exn (UnboundLocalError "columns")]
  | Some columns => Yielded (RECORD name (data_of columns values) (now * 1000))
  end.

(** The loop over the rows: the events, and the exception that ends it. *)
Fixpoint read_rows (columns : option (list string)) (name : string)
    (sheet_rows : list Row) : list event * option error :=
  match sheet_rows with
  | [] => ([], None)
  | row :: rest =>
      match row_values row with
      | Raised e => ([], Some e)
      | Returned values =>
          let '(events, raised) := read_rows columns name rest in
          (encode columns name values :: events, raised)
      end
  end.

(** The body of the outer [try]. *)
Definition read_sheet (columns : option (list string)) (name : string)
    (sheet : answer Sheet) : list event * option error :=
  match sheet with
  | Raised e => ([], Some e)
  | Returned sheet =>
      match sheet_name sheet with
      | None => ([], Some (KeyError "name"))
      | Some sheet_name =>
          let starting := Info "Starting syncing spreadsheet {}" [Str sheet_name] in
          match totalRowCount sheet with
          | None => ([starting], Some (KeyError "totalRowCount"))
          | Some count =>
              let row_count := Info "Row count: {}" [Num count] in
              match rows sheet with
              | None => ([starting; row_count], Some (KeyError "rows"))
              | Some sheet_rows =>
                  let '(events, raised) := read_rows columns name sheet_rows in
                  (starting :: row_count :: events, raised)
              end
          end
      end
  end.

(** The loop over the configured streams; [call] counts the calls of the API
    and [columns] is the local variable of that name, which keeps its value
    from one stream to the next. *)
Fixpoint read_streams (spreadsheet_id : string) (call : nat)
    (columns : option (list string)) (streams : list ConfiguredStream)
    : list event * option error :=
  match streams with
  | [] =>
      ([Info "Finished syncing spreadsheet with ID: {}" [Str spreadsheet_id]], None)
  | stream :: rest =>
      match properties stream with
      | None => ([], Some (KeyError "properties"))
      | Some stream_properties =>
          let '(columns, complaint) :=
            match stream_properties with
            | PList dcts => (Some (concat dcts), [])
            | PDict keys => (Some keys, [])
            | POther =>
                (columns,
                 [Error "Could not read properties from the JSONschema in this stream" []])
            end in
          let '(events, raised) := read_sheet columns (name stream) (get_sheet call) in
          match raised with
          | Some e =>
              (complaint ++ events
                 ++ [Error "Could not read smartsheet: {}" [Str (name stream)]],
               Some e)
          | None =>
              let '(later, raised) := read_streams spreadsheet_id (S call) columns rest in
              (complaint ++ events ++ later, raised)
          end
      end
  end.

Definition read (config : Config) (catalog : list ConfiguredStream)
    : list event * option error :=
  match access_token config with
  | None => ([], Some (KeyError "access_token"))
  | Some _ =>
      match spreadsheet_id config with
      | None => ([], Some (KeyError "spreadsheet_id"))
      | Some spreadsheet_id => read_streams spreadsheet_id 0 None catalog
      end
  end.

End Read.

(** *** Discovery *)

(** The stream of a catalog: its name and the "properties" of its schema. *)
Record AirbyteStream := {
  stream : string;
  json_schema : Dict.t Prop_
}.

(** [discover], on what [Sheets.get_sheet] returns or raises: the line it
    logs, and the streams of the catalog or the exception. *)
Definition discover (config : Config) (sheet : answer Sheet)
    : list event * answer (list AirbyteStream) :=
  match access_token config with
  | None => ([], Raised (KeyError "access_token"))
  | Some _ =>
      match spreadsheet_id config with
      | None => ([], Raised (KeyError "spreadsheet_id"))
      | Some spreadsheet_id =>
          let failed e := Raised (Exception "Could not run discovery: {}" e) in
          match sheet with
          | Raised e => ([], failed e)
          | Returned sheet =>
              match get_json_schema (sheet_columns sheet) with
              | Raised e => ([], failed e)
              | Returned sheet_json_schema =>
                  match sheet_name sheet with
                  | None => ([], failed (KeyError "name"))
                  | Some sheet_name =>
                      ([Info "Running discovery on sheet: {} with {}"
                          [Str sheet_name; Str spreadsheet_id]],
                       Returned [ {| stream := sheet_name;
                                     json_schema := sheet_json_schema |} ])
                  end
              end
          end
      end
  end.

(** The RECORD messages among the events. *)
Definition records (events : list event) : list AirbyteMessage :=
  omap (fun e => match e with Yielded m => Some m | _ => None end) events.

(** A sheet of two columns and its rows: the second row has a cell without
    value. *)
Definition people : ConfiguredStream :=
  {| name := "people"; properties := Some (PDict ["name"; "age"]) |}.

Definition full_row : Row := Some [Some 1; Some 30].
Definition row_with_empty_cell : Row := Some [Some 2; None].

Definition sheet_of (sheet_rows : list Row) : Sheet :=
  {| sheet_name := Some "People";
     totalRowCount := Some (Z.of_nat (length sheet_rows));
     sheet_columns :=
       Some [ {| title := Some "name"; col_type := Some "TEXT_NUMBER" |};
              {| title := Some "age"; col_type := Some "TEXT_NUMBER" |} ];
     rows := Some sheet_rows |}.

Definition credentials : Config :=
  {| access_token := Some "token"; spreadsheet_id := Some "42" |}.

(** A stream whose "properties" are neither a list nor a dictionary. *)
Definition untyped : ConfiguredStream :=
  {| name := "untyped"; properties := Some POther |}.

End Smartsheets.

(** * Properties *)

Arguments bind {A B} m f h : simpl never.

(** ** Runs of composed computations *)

Lemma bind_Ok {A B} (m : M A) (f : A -> M B) h a :
  outcome (m h) = Ok a ->
  bind m f h =
    Run (trace (m h) ++ trace (f a (store (m h))))
        (store (f a (store (m h)))) (outcome (f a (store (m h)))).
Proof. intros H. unfold bind. now rewrite H. Qed.

Lemma bind_Err {A B} (m : M A) (f : A -> M B) h e :
  outcome (m h) = Err e ->
  bind m f h = Run (trace (m h)) (store (m h)) (Err e).
Proof. intros H. unfold bind. now rewrite H. Qed.

Lemma count_records_app tr1 tr2 :
  count_records (tr1 ++ tr2) = (count_records tr1 + count_records tr2)%nat.
Proof. induction tr1 as [|e tr1 IH]; simpl; [reflexivity | rewrite IH; lia]. Qed.

Lemma count_states_app tr1 tr2 :
  count_states (tr1 ++ tr2) = (count_states tr1 + count_states tr2)%nat.
Proof. induction tr1 as [|e tr1 IH]; simpl; [reflexivity | rewrite IH; lia]. Qed.

Lemma messages_app tr1 tr2 : messages (tr1 ++ tr2) = messages tr1 ++ messages tr2.
Proof.
  induction tr1 as [|[m|l] tr1 IH]; simpl; [reflexivity | now rewrite IH | exact IH].
Qed.

(** ** The full-refresh path *)

Lemma records_only_count_states n now tr : records_only n now tr -> count_states tr = O.
Proof.
  induction 1 as [|e tr He _ IH]; simpl; [reflexivity|].
  rewrite IH. destruct e as [[]|]; simpl; tauto.
Qed.

Ltac step_bind :=
  match goal with
  | |- context [bind ?m ?f ?h] =>
      let E := fresh "E" in
      destruct (outcome (m h)) eqn:E;
      [ first [ exfalso; cbn in E; discriminate E
              | rewrite (bind_Ok m f h _ E) ]
      | first [ exfalso; cbn in E; discriminate E
              | rewrite (bind_Err m f h _ E) ] ]
  end.

Lemma _read_full_refresh_records_only now n records h :
  records_only n now (trace (_read_full_refresh_records now n records h))
  /\ store (_read_full_refresh_records now n records h) = h.
Proof.
  induction records as [|record rest IH|e]; simpl.
  - split; [constructor | reflexivity].
  - destruct IH as [IH1 IH2].
    split; [constructor; [split; reflexivity | exact IH1] | exact IH2].
  - split; [constructor | reflexivity].
Qed.

Lemma _read_full_refresh_only now stream_instance configured_stream h :
  records_only (stream_name configured_stream) now
    (trace (_read_full_refresh now stream_instance configured_stream h))
  /\ store (_read_full_refresh now stream_instance configured_stream h) = h.
Proof.
  unfold _read_full_refresh.
  generalize (stream_slices stream_instance full_refresh
                (Some (cursor_field configured_stream)) None).
  intros slices. induction slices as [|sl rest IH|e]; cbn.
  - split; [constructor | reflexivity].
  - destruct (_read_full_refresh_records_only now (stream_name configured_stream)
                (read_records stream_instance full_refresh
                   (Some (cursor_field configured_stream)) sl None) h) as [H1 H2].
    step_bind; simpl.
    + rewrite H2. destruct IH as [IH1 IH2]. split; [|exact IH2].
      apply Forall_app. split; assumption.
    + split; assumption.
  - split; [constructor | reflexivity].
Qed.

Lemma records_only_app n now tr1 tr2 :
  records_only n now tr1 -> records_only n now tr2 -> records_only n now (tr1 ++ tr2).
Proof. intros H1 H2. apply Forall_app. split; assumption. Qed.

(** ** The choice of the path in [_read_stream] *)

(** What [_read_stream] adds around the iterator it has chosen: a log line
    before it and, when the iterator is exhausted, a log line with the number
    of its RECORD messages. *)
Lemma _read_stream_unfold now stream_instance configured_stream connector_state h :
  let path :=
    (if use_incremental configured_stream stream_instance
     then _read_incremental now stream_instance configured_stream connector_state
     else _read_full_refresh now stream_instance configured_stream) h in
  let r := _read_stream now stream_instance configured_stream connector_state h in
  trace r =
    Log (INFO "Syncing stream: {} " [AStr (stream_name configured_stream)])
    :: trace path
    ++ match outcome path with
       | Ok _ => [Log (INFO "Read {} records from {} stream"
                         [ANat (count_records (trace path));
                          AStr (stream_name configured_stream)])]
       | Err _ => []
       end
  /\ store r = store path
  /\ outcome r = outcome path.
Proof.
  cbv zeta. unfold _read_stream.
  set (it := if use_incremental configured_stream stream_instance then _ else _).
  step_bind. cbn [trace store outcome log].
  destruct (outcome (it h)) as [[]|e] eqn:Eit.
  - rewrite (bind_Ok (iterate it) _ h (count_records (trace (it h)))).
    + cbn. repeat split.
    + unfold iterate. cbn. now rewrite Eit.
  - rewrite (bind_Err (iterate it) _ h e).
    + cbn. rewrite app_nil_r. repeat split.
    + unfold iterate. cbn. now rewrite Eit.
Qed.

(** C8: [_read_stream] runs the incremental path exactly when the configured
    sync mode is incremental and the stream instance supports incremental
    syncs, and the full-refresh path in every other case: its messages, its
    effect on the store and its outcome are those of that path. *)
Theorem read_stream_chooses_path now stream_instance configured_stream
    connector_state h :
  let path :=
    if decide (sync_mode configured_stream = incremental
               /\ supports_incremental stream_instance = true)
    then _read_incremental now stream_instance configured_stream connector_state
    else _read_full_refresh now stream_instance configured_stream in
  let r := _read_stream now stream_instance configured_stream connector_state h in
  messages (trace r) = messages (trace (path h))
  /\ store r = store (path h)
  /\ outcome r = outcome (path h).
Proof.
  cbv zeta.
  destruct (_read_stream_unfold now stream_instance configured_stream
              connector_state h) as (Ht & Hs & Ho).
  assert (Hpath :
    (if decide (sync_mode configured_stream = incremental
                /\ supports_incremental stream_instance = true)
     then _read_incremental now stream_instance configured_stream connector_state
     else _read_full_refresh now stream_instance configured_stream)
    = (if use_incremental configured_stream stream_instance
       then _read_incremental now stream_instance configured_stream connector_state
       else _read_full_refresh now stream_instance configured_stream)).
  { unfold use_incremental.
    destruct (sync_mode configured_stream), (supports_incremental stream_instance);
      cbn; case_decide as Hd; try reflexivity; exfalso;
      first [ apply Hd; split; reflexivity | destruct Hd; discriminate ]. }
  rewrite Hpath, Ht, Hs, Ho. repeat split.
  cbn [messages]. rewrite messages_app.
  destruct (outcome _); cbn; now rewrite app_nil_r.
Qed.

(** C7: when [_read_stream] takes the full-refresh path, every message it
    emits is a RECORD of the configured stream, none is a STATE, and the store
    is left as it was, whatever slices and records the stream produces. *)
Theorem full_refresh_emits_no_state now stream_instance configured_stream
    connector_state h :
  use_incremental configured_stream stream_instance = false ->
  let r := _read_stream now stream_instance configured_stream connector_state h in
  records_only (stream_name configured_stream) now (trace r)
  /\ count_states (trace r) = O
  /\ store r = h.
Proof.
  intros Hfull. cbv zeta.
  destruct (_read_stream_unfold now stream_instance configured_stream
              connector_state h) as (Ht & Hs & _).
  rewrite Hfull in Ht, Hs.
  destruct (_read_full_refresh_only now stream_instance configured_stream h)
    as [Hrec Hstore].
  assert (Hall : records_only (stream_name configured_stream) now
                   (trace (_read_stream now stream_instance configured_stream
                             connector_state h))).
  { rewrite Ht. constructor; [exact I|].
    apply records_only_app; [exact Hrec|].
    destruct (outcome _); repeat constructor. }
  split; [exact Hall|]. split.
  - eapply records_only_count_states, Hall.
  - now rewrite Hs.
Qed.

Lemma full_refresh_emits_no_state_witness :
  use_incremental users_incremental full_refresh_stream = false
  /\ count_states
       (trace (_read_stream 0 full_refresh_stream users_incremental 1%positive
                 (Heap ∅ ∅))) = O.
Proof.
  split; [reflexivity|].
  apply (full_refresh_emits_no_state 0 full_refresh_stream users_incremental
           1%positive (Heap ∅ ∅)).
  reflexivity.
Defined.

(** ** Runs of the store-level steps of the incremental path *)

Lemma _checkpoint_state_run stream_name stream_state connector_state h :
  let r := _checkpoint_state stream_name stream_state connector_state h in
  trace r = [Log (INFO "Setting state of {} stream to {}"
                    [AStr stream_name; ABlob (content h stream_state)])]
  /\ store r = Heap (blobs h)
                 (<[connector_state :=
                      <[stream_name := stream_state]> (entries h connector_state)]>
                    (tops h))
  /\ outcome r = Ok (STATE (view (store r) connector_state)).
Proof. cbv zeta. repeat split. Qed.

Lemma call_get_updated_state_run stream_instance stream_state record_data h :
  let r := call_get_updated_state stream_instance stream_state record_data h in
  trace r = []
  /\ match get_updated_state stream_instance (content h stream_state) record_data with
     | Err e => outcome r = Err e /\ store r = h
     | Ok (InPlace b) =>
         outcome r = Ok stream_state
         /\ store r = Heap (<[stream_state := b]> (blobs h)) (tops h)
     | Ok (NewDict b) =>
         outcome r = Ok (fresh (dom (blobs h)))
         /\ store r = Heap (<[fresh (dom (blobs h)) := b]> (blobs h)) (tops h)
     end.
Proof.
  cbv zeta. unfold call_get_updated_state.
  rewrite (bind_Ok (read_dict stream_state) _ h (content h stream_state) eq_refl).
  cbn [trace store outcome read_dict app].
  destruct (get_updated_state stream_instance (content h stream_state) record_data)
    as [[b|b]|e]; repeat split.
Qed.

(** ** Checkpoint cadence *)

Lemma intermediate_S checkpoint_interval n :
  (forall k, checkpoint_interval = Some k -> 0 < k) ->
  intermediate checkpoint_interval (S n) =
  intermediate checkpoint_interval n
  + (if checkpoint_due checkpoint_interval (S n) then 1 else 0).
Proof.
  intros Hk. unfold intermediate, checkpoint_due.
  destruct checkpoint_interval as [k|]; [|reflexivity].
  specialize (Hk k eq_refl).
  replace (k =? 0) with false by (symmetry; apply Z.eqb_neq; lia).
  cbn [negb andb]. rewrite Nat2Z.inj_succ.
  destruct (Z.eqb_spec (Z.succ (Z.of_nat n) mod k) 0) as [H0|H0];
    Z.div_mod_to_equations; nia.
Qed.

(** One turn of the loop over the records of a slice. *)
Lemma _read_incremental_records_Yield now stream_instance stream_name connector_state
    record_data rest record_counter stream_state h :
  _read_incremental_records now stream_instance stream_name connector_state
    (Yield record_data rest) record_counter stream_state h =
  let g := call_get_updated_state stream_instance stream_state record_data h in
  match outcome g with
  | Err e => Run [Emit (RECORD stream_name record_data now)] (store g) (Err e)
  | Ok s1 =>
      if checkpoint_due (state_checkpoint_interval stream_instance) (S record_counter)
      then
        let k := _read_incremental_records now stream_instance stream_name
                   connector_state rest (S record_counter) s1
                   (checkpointed stream_name s1 connector_state (store g)) in
        Run (Emit (RECORD stream_name record_data now)
             :: checkpoint_events stream_name s1 connector_state (store g)
             ++ trace k)
            (store k) (outcome k)
      else
        let k := _read_incremental_records now stream_instance stream_name
                   connector_state rest (S record_counter) s1 (store g) in
        Run (Emit (RECORD stream_name record_data now) :: trace k)
            (store k) (outcome k)
  end.
Proof.
  cbv zeta. cbn [_read_incremental_records].
  destruct (call_get_updated_state_run stream_instance stream_state record_data h)
    as [Htr _].
  unfold bind. cbn [emit trace store outcome]. rewrite Htr.
  destruct (outcome (call_get_updated_state _ _ _ h)); [|reflexivity].
  destruct (checkpoint_due _ _); reflexivity.
Qed.

(** One turn of the loop over the slices. *)
Lemma _read_incremental_slices_Yield now stream_instance configured_stream
    connector_state sl rest stream_state h :
  _read_incremental_slices now stream_instance configured_stream connector_state
    (Yield sl rest) stream_state h =
  let k1 := _read_incremental_records now stream_instance
              (stream_name configured_stream) connector_state
              (read_records stream_instance incremental
                 (or_None (cursor_field configured_stream)) sl
                 (Some (content h stream_state)))
              0 stream_state h in
  match outcome k1 with
  | Err e => Run (trace k1) (store k1) (Err e)
  | Ok s1 =>
      let k2 := _read_incremental_slices now stream_instance configured_stream
                  connector_state rest s1
                  (checkpointed (stream_name configured_stream) s1 connector_state
                     (store k1)) in
      Run (trace k1
           ++ checkpoint_events (stream_name configured_stream) s1 connector_state
                (store k1)
           ++ trace k2)
          (store k2) (outcome k2)
  end.
Proof.
  cbv zeta. cbn [_read_incremental_slices].
  unfold bind. cbn [read_dict trace store outcome app].
  destruct (outcome (_read_incremental_records _ _ _ _ _ _ _ h)); reflexivity.
Qed.

Lemma after_record_due checkpoint_interval i :
  (forall k, checkpoint_interval = Some k -> 0 < k) ->
  after_record checkpoint_interval i =
  if checkpoint_due checkpoint_interval i then [Type_STATE] else [].
Proof.
  intros Hk. unfold after_record, checkpoint_due.
  destruct checkpoint_interval as [k|]; [|reflexivity].
  specialize (Hk k eq_refl).
  replace (k =? 0) with false by (symmetry; apply Z.eqb_neq; lia).
  reflexivity.
Qed.

Section Cadence.

Variable now : Z.
Variable stream_instance : Stream.
Variable configured_stream : ConfiguredAirbyteStream.
Variable connector_state : loc.

Let interval := state_checkpoint_interval stream_instance.

Hypothesis interval_positive : forall k, interval = Some k -> 0 < k.

Lemma records_cadence rs : forall record_counter stream_state h,
  Forall (accepted stream_instance) rs ->
  let r := _read_incremental_records now stream_instance
             (stream_name configured_stream) connector_state (of_list rs)
             record_counter stream_state h in
  (exists s', outcome r = Ok s')
  /\ count_records (trace r) = length rs
  /\ Z.of_nat (count_states (trace r)) =
     intermediate interval (record_counter + length rs)
     - intermediate interval record_counter.
Proof.
  induction rs as [|record_data rs IH]; intros record_counter stream_state h Hacc.
  - cbn. rewrite Nat.add_0_r. split; [eauto|]. split; [reflexivity | lia].
  - apply Forall_cons in Hacc as [Ha Hacc].
    cbv zeta. cbn [of_list]. rewrite _read_incremental_records_Yield. cbv zeta.
    destruct (call_get_updated_state_run stream_instance stream_state record_data h)
      as [_ Hrun].
    destruct (Ha (content h stream_state)) as [u Hu]. rewrite Hu in Hrun.
    assert (Hs1 : exists s1, outcome (call_get_updated_state stream_instance
                                        stream_state record_data h) = Ok s1)
      by (destruct u; destruct Hrun; eauto).
    destruct Hs1 as [s1 Hs1]. rewrite Hs1.
    pose proof (intermediate_S interval record_counter interval_positive) as HS.
    fold interval.
    replace (record_counter + length (record_data :: rs))%nat
      with (S record_counter + length rs)%nat by (cbn; lia).
    destruct (checkpoint_due interval (S record_counter));
      match goal with
      | |- context [_read_incremental_records ?a ?b ?c ?d ?e ?f ?g ?h'] =>
          destruct (IH (S record_counter) s1 h' Hacc) as (Hok & Hrec & Hst)
      end;
      cbn [trace store outcome checkpoint_events app count_records count_states
           is_record is_state length];
      (split; [exact Hok|]); (split; [rewrite ?count_records_app; cbn; lia|]); lia.
Qed.

Lemma records_types rs : forall record_counter stream_state h,
  Forall (accepted stream_instance) rs ->
  type_of <$> messages
                (trace (_read_incremental_records now stream_instance
                          (stream_name configured_stream) connector_state
                          (of_list rs) record_counter stream_state h))
  = record_types interval record_counter (length rs).
Proof.
  induction rs as [|record_data rs IH]; intros record_counter stream_state h Hacc.
  - reflexivity.
  - apply Forall_cons in Hacc as [Ha Hacc].
    cbn [of_list]. rewrite _read_incremental_records_Yield. cbv zeta.
    destruct (call_get_updated_state_run stream_instance stream_state record_data h)
      as [_ Hrun].
    destruct (Ha (content h stream_state)) as [u Hu]. rewrite Hu in Hrun.
    assert (Hs1 : exists s1, outcome (call_get_updated_state stream_instance
                                        stream_state record_data h) = Ok s1)
      by (destruct u; destruct Hrun; eauto).
    destruct Hs1 as [s1 Hs1]. rewrite Hs1.
    unfold record_types. cbn [length seq flat_map app].
    rewrite (after_record_due interval (S record_counter) interval_positive).
    fold interval. fold (record_types interval (S record_counter) (length rs)).
    destruct (checkpoint_due interval (S record_counter));
      cbn [trace checkpoint_events app messages fmap list_fmap type_of];
      f_equal; try f_equal; apply IH, Hacc.
Qed.

Variable size : slice -> nat.

Lemma slices_cadence slices : forall stream_state h,
  yields_accepted stream_instance configured_stream size slices ->
  let r := _read_incremental_slices now stream_instance configured_stream
             connector_state (of_list slices) stream_state h in
  outcome r = Ok tt
  /\ count_records (trace r) = sum_list_with size slices
  /\ Z.of_nat (count_states (trace r)) = checkpoints_of_slices interval (size <$> slices).
Proof.
  induction slices as [|sl slices IH]; intros stream_state h Hy.
  - cbn. repeat split.
  - cbv zeta. cbn [of_list]. rewrite _read_incremental_slices_Yield. cbv zeta.
    destruct (Hy sl (list_elem_of_here _ _) (content h stream_state))
      as (rs & Hrs & Hlen & Hacc).
    rewrite Hrs.
    destruct (records_cadence rs 0 stream_state h Hacc) as ([s1 Hok] & Hrec & Hst).
    rewrite Hok.
    match goal with
    | |- context [_read_incremental_slices ?a ?b ?c ?d ?e ?f ?h'] =>
        destruct (IH f h') as (Hok' & Hrec' & Hst')
    end.
    { intros sl' Hin. apply Hy. now apply list_elem_of_further. }
    cbn [trace store outcome]. split; [exact Hok'|].
    rewrite !count_records_app, !count_states_app.
    cbn [checkpoint_events count_records count_states is_record is_state
         sum_list_with fmap list_fmap checkpoints_of_slices foldr].
    fold (checkpoints_of_slices interval (size <$> slices)).
    rewrite <- Hlen. cbn [intermediate] in Hst.
    assert (intermediate interval 0 = 0)
      by (unfold intermediate; destruct interval; [apply Zdiv_0_l | reflexivity]).
    change (0 + length rs)%nat with (length rs) in Hst.
    unfold interval in *. split; lia.
Qed.

Lemma slices_types slices : forall stream_state h,
  yields_accepted stream_instance configured_stream size slices ->
  type_of <$> messages
                (trace (_read_incremental_slices now stream_instance
                          configured_stream connector_state (of_list slices)
                          stream_state h))
  = concat ((fun sl => slice_types interval (size sl)) <$> slices).
Proof.
  induction slices as [|sl slices IH]; intros stream_state h Hy.
  - reflexivity.
  - cbn [of_list]. rewrite _read_incremental_slices_Yield. cbv zeta.
    destruct (Hy sl (list_elem_of_here _ _) (content h stream_state))
      as (rs & Hrs & Hlen & Hacc).
    rewrite Hrs.
    destruct (records_cadence rs 0 stream_state h Hacc) as ([s1 Hok] & _ & _).
    rewrite Hok. cbn [trace store outcome].
    rewrite !messages_app, !fmap_app, records_types by exact Hacc.
    cbn [checkpoint_events messages fmap list_fmap type_of concat].
    unfold slice_types at 1. rewrite Hlen, <- app_assoc.
    do 2 f_equal. apply IH.
    intros sl' Hin. apply Hy. now apply list_elem_of_further.
Qed.

End Cadence.

(** C3: over slices whose records are all accepted by [get_updated_state], and
    with a checkpoint interval that is positive when present, the loop over the
    slices ends normally.  Its messages are, slice after slice, the records of
    the slice, each followed by a STATE message exactly when its number in the
    slice (counted from 1 in every slice) is a multiple of the interval, and
    one more STATE message at the end of the slice.  For a slice of n records
    that makes floor(n/k) intermediate STATE messages, none when the interval
    is absent, and always the one at the end. *)
Theorem checkpoint_cadence now stream_instance configured_stream connector_state
    (size : slice -> nat) slices stream_state h :
  (forall k, state_checkpoint_interval stream_instance = Some k -> 0 < k) ->
  yields_accepted stream_instance configured_stream size slices ->
  let interval := state_checkpoint_interval stream_instance in
  let r := _read_incremental_slices now stream_instance configured_stream
             connector_state (of_list slices) stream_state h in
  outcome r = Ok tt
  /\ type_of <$> messages (trace r)
     = concat ((fun sl => slice_types interval (size sl)) <$> slices)
  /\ count_records (trace r) = sum_list_with size slices
  /\ Z.of_nat (count_states (trace r))
     = checkpoints_of_slices interval (size <$> slices).
Proof.
  intros Hk Hy interval r.
  destruct (slices_cadence now stream_instance configured_stream connector_state Hk
              size slices stream_state h Hy) as (Hok & Hrec & Hst).
  split; [exact Hok|]. split; [|split; [exact Hrec | exact Hst]].
  exact (slices_types now stream_instance configured_stream connector_state Hk
           size slices stream_state h Hy).
Qed.

Lemma Slack_get_updated_state_accepted stream_instance (r : record_data) :
  get_updated_state stream_instance = Slack.get_updated_state ->
  convertible r -> accepted stream_instance r.
Proof.
  intros Hg (ts & v & Hts & Hv) b. rewrite Hg. unfold Slack.get_updated_state.
  rewrite Hts, Hv. destruct (bool_decide (b = ∅)); eauto.
Qed.

(** [float] keeps the integers that a double holds. *)
Lemma float_exact z : Z.abs z <= 2 ^ 53 -> Slack.float z = Ok z.
Proof.
  intros Hz. destruct (Z.ltb_spec (Z.abs z) (2 ^ 53)) as [Hlt|Hge].
  - unfold Slack.float. cbv zeta.
    now rewrite (proj2 (Z.ltb_lt _ _) Hlt).
  - assert (Ha : Z.abs z = 2 ^ 53) by lia.
    destruct (Z.abs_eq_or_opp z) as [E|E]; rewrite E in Ha.
    + subst z. vm_compute. reflexivity.
    + assert (Hz' : z = - 2 ^ 53) by lia. subst z. vm_compute. reflexivity.
Qed.

Lemma exact_convertible (r : record_data) : exact r -> convertible r.
Proof. intros (ts & Hts & Hz). exists ts, ts. split; [exact Hts|now apply float_exact]. Qed.

Lemma small_convertible ts : Z.abs ts <= 2 ^ 53 -> convertible {[ "ts" := ts ]}.
Proof.
  intros Hz. apply exact_convertible. exists ts.
  split; [apply lookup_singleton_eq|exact Hz].
Qed.

Lemma five_accepted stream_instance :
  get_updated_state stream_instance = Slack.get_updated_state ->
  Forall (accepted stream_instance)
    ((fun ts => ({[ "ts" := ts ]} : record_data)) <$> [1; 2; 3; 4; 5]).
Proof.
  intros Hg. cbn [fmap list_fmap].
  repeat (apply Forall_cons; split;
          [apply (Slack_get_updated_state_accepted _ _ Hg), small_convertible;
           vm_compute; discriminate|]).
  apply Forall_nil_2.
Qed.

Lemma checkpoint_cadence_witness :
  let r := _read_incremental_slices 0 five_records messages_incremental 1%positive
             (of_list [None]) 1%positive (Heap {[ 1%positive := ∅ ]} ∅) in
  outcome r = Ok tt
  /\ type_of <$> messages (trace r)
     = [ Type_RECORD; Type_RECORD; Type_STATE; Type_RECORD; Type_RECORD; Type_STATE;
         Type_RECORD; Type_STATE ]
  /\ count_records (trace r) = 5%nat
  /\ Z.of_nat (count_states (trace r)) = 5 / 2 + 1 + 0.
Proof.
  apply (checkpoint_cadence 0 five_records messages_incremental 1%positive
           (fun _ => 5%nat) [None] 1%positive (Heap {[ 1%positive := ∅ ]} ∅)).
  - intros k [= <-]. lia.
  - intros sl _ b. eexists. split; [reflexivity|]. split; [reflexivity|].
    exact (five_accepted five_records eq_refl).
Defined.

(** ** Exceptions abort the sync *)

Lemma bind_assoc {A B C} (m : M A) (f : A -> M B) (g : B -> M C) h :
  bind (bind m f) g h = bind m (fun a => bind (f a) g) h.
Proof.
  unfold bind. destruct (outcome (m h)); cbn; [|reflexivity].
  destruct (outcome (f a (store (m h)))); cbn; now rewrite ?app_assoc.
Qed.

Lemma read_catalog_app now src connector_state pre post h :
  read_catalog now src connector_state (pre ++ post) h =
  bind (read_catalog now src connector_state pre)
       (fun _ => read_catalog now src connector_state post) h.
Proof.
  revert h. induction pre as [|cs pre IH]; intros h; cbn [app read_catalog].
  - unfold bind. cbn. now destruct (read_catalog now src connector_state post h).
  - rewrite bind_assoc.
    destruct (outcome (try_except (read_configured now src connector_state cs)
                         (on_exception src) h)) eqn:E.
    + rewrite !(bind_Ok (try_except _ _) _ h _ E). now rewrite IH.
    + now rewrite !(bind_Err (try_except _ _) _ h _ E).
Qed.

Lemma deepcopy_items_Ok items : forall memo acc h,
  exists t, outcome (deepcopy_items items memo acc h) = Ok t
            /\ trace (deepcopy_items items memo acc h) = [].
Proof.
  induction items as [|[k l] items IH]; intros memo acc h; cbn.
  - eauto.
  - destruct (memo !! l); [apply IH|].
    unfold bind. cbn.
    match goal with |- context [deepcopy_items items ?m ?a ?h'] =>
      destruct (IH m a h') as (t & Ho & Ht) end.
    rewrite Ho. cbn. eauto.
Qed.

Lemma deepcopy_Ok state h :
  exists c, outcome (deepcopy state h) = Ok c /\ trace (deepcopy state h) = [].
Proof.
  unfold deepcopy.
  match goal with |- context [deepcopy_items ?i ?m ?a] =>
    destruct (deepcopy_items_Ok i m a h) as (t & Ho & Ht) end.
  unfold bind. rewrite Ho, Ht. cbn. eauto.
Qed.

(** C9 (as amended): when the streams configured before a stream are read
    without exception and reading that stream raises [e], [read] raises the
    same [e]; its trace is the start-up log line, the events of the earlier
    streams, the events of the failing stream up to the exception and one
    exception log line, which carries no record count.  Nothing is emitted for
    the streams configured after it and no end-of-sync line is logged. *)
Theorem sync_aborts_on_exception now src pre configured_stream post state h
    connector_state e :
  outcome (deepcopy state h) = Ok connector_state ->
  let before :=
    read_catalog now src connector_state pre (store (deepcopy state h)) in
  let failing :=
    read_configured now src connector_state configured_stream (store before) in
  outcome before = Ok tt ->
  outcome failing = Err e ->
  let r := read now src (pre ++ configured_stream :: post) state h in
  outcome r = Err e
  /\ (exists template args,
        trace r =
          Log (INFO "Starting syncing {}" [AStr (source_name src)])
          :: trace before ++ trace failing ++ [Log (EXCEPTION template args)]
        /\ forall n, mentions_count n args = false)
  /\ store r = store failing.
Proof.
  intros Hd before failing Hbefore Hfailing r. subst r. unfold read.
  destruct (deepcopy_Ok state h) as (c & Hc & Htr).
  rewrite Hd in Hc. injection Hc as <-.
  rewrite (bind_Ok _ _ h connector_state Hd), Htr.
  cbn [trace store outcome app].
  rewrite (bind_Ok (log _) _ _ tt eq_refl). cbn [trace store outcome log app].
  assert (Hcat :
    let rc := read_catalog now src connector_state (pre ++ configured_stream :: post)
                (store (deepcopy state h)) in
    outcome rc = Err e
    /\ trace rc = trace before ++ trace failing ++ [failure_log src]
    /\ store rc = store failing).
  { cbv zeta. rewrite read_catalog_app.
    rewrite (bind_Ok _ _ _ tt Hbefore). cbn [trace store outcome].
    cbn [read_catalog]. fold before.
    assert (Htry :
      let t := try_except
                 (read_configured now src connector_state configured_stream)
                 (on_exception src) (store before) in
      outcome t = Err e /\ trace t = trace failing ++ [failure_log src]
      /\ store t = store failing).
    { cbv zeta. unfold try_except. fold failing. rewrite Hfailing.
      cbn. repeat split. }
    destruct Htry as (Ho & Ht & Hs).
    rewrite (bind_Err _ _ _ e Ho). cbn [trace store outcome].
    rewrite Ht, Hs. repeat split. }
  destruct Hcat as (Ho & Ht & Hs).
  rewrite (bind_Err _ _ _ e Ho). cbn [trace store outcome].
  rewrite Ht, Hs. split; [reflexivity|]. split; [|reflexivity].
  eexists _, _. split; [reflexivity|]. reflexivity.
Qed.

(** ** Connector states without sharing *)

Lemma view_lookup h c n : view h c !! n = content h <$> entries h c !! n.
Proof. unfold view. apply lookup_fmap. Qed.

Lemma write_attached h c cur s b :
  attached h c cur s ->
  let h' := Heap (<[s := b]> (blobs h)) (tops h) in
  attached h' c cur s /\ content h' s = b /\ agree_off cur (view h' c) (view h c).
Proof.
  intros ((Hinj & Halloc) & Hs & Hcur) h'.
  assert (He : entries h' c = entries h c) by reflexivity.
  split; [|split].
  - split; [split|split]; rewrite ?He; cbn; try assumption.
    + intros n l Hn. rewrite dom_insert_L. specialize (Halloc n l Hn). set_solver.
    + rewrite dom_insert_L. set_solver.
  - unfold content. cbn. now rewrite lookup_insert_eq.
  - intros n Hn. rewrite !view_lookup, He.
    destruct (entries h c !! n) as [l|] eqn:El; [|reflexivity]. cbn. f_equal.
    unfold content. cbn. rewrite lookup_insert_ne; [reflexivity|].
    intros <-. now apply Hcur in El.
Qed.

Lemma alloc_attached h c cur b :
  tree h c ->
  let l := fresh (dom (blobs h)) in
  let h' := Heap (<[l := b]> (blobs h)) (tops h) in
  attached h' c cur l /\ content h' l = b /\ view h' c = view h c.
Proof.
  intros (Hinj & Halloc) l h'.
  assert (He : entries h' c = entries h c) by reflexivity.
  assert (Hl : l ∉ dom (blobs h)) by apply is_fresh.
  split; [|split].
  - split; [split|split]; rewrite ?He; cbn; try assumption.
    + intros n l' Hn. rewrite dom_insert_L. specialize (Halloc n l' Hn). set_solver.
    + rewrite dom_insert_L. set_solver.
    + intros n Hn. exfalso. apply Hl. eapply Halloc, Hn.
  - unfold content. cbn. now rewrite lookup_insert_eq.
  - apply map_eq. intros n. rewrite !view_lookup, He.
    destruct (entries h c !! n) as [l'|] eqn:El; [|reflexivity]. cbn. f_equal.
    unfold content. cbn. rewrite lookup_insert_ne; [reflexivity|].
    intros <-. apply Hl. eapply Halloc, El.
Qed.

Lemma checkpointed_view stream_name s c h :
  let h' := checkpointed stream_name s c h in
  view h' c = <[stream_name := content h s]> (view h c)
  /\ blobs h' = blobs h
  /\ entries h' c = <[stream_name := s]> (entries h c).
Proof.
  cbv zeta. unfold checkpointed.
  destruct (_checkpoint_state_run stream_name s c h) as (_ & Hst & _).
  rewrite Hst.
  assert (He : entries (Heap (blobs h) (<[c := <[stream_name := s]> (entries h c)]>
                                          (tops h))) c
               = <[stream_name := s]> (entries h c)).
  { unfold entries at 1. cbn. now rewrite lookup_insert_eq. }
  split; [|split; [reflexivity | exact He]].
  unfold view. rewrite He, fmap_insert. reflexivity.
Qed.

Lemma checkpointed_content stream_name s c h l :
  content (checkpointed stream_name s c h) l = content h l.
Proof.
  destruct (checkpointed_view stream_name s c h) as (_ & Hb & _).
  unfold content. now rewrite Hb.
Qed.

Lemma checkpointed_attached cur s c h :
  attached h c cur s ->
  attached (checkpointed cur s c h) c cur s.
Proof.
  intros ((Hinj & Halloc) & Hs & Hcur).
  destruct (checkpointed_view cur s c h) as (_ & Hb & He).
  unfold attached, tree. rewrite He, Hb.
  split; [split|split].
  - intros n1 n2 l H1 H2.
    destruct (decide (n1 = cur)) as [->|N1], (decide (n2 = cur)) as [->|N2];
      [reflexivity | | | ].
    + rewrite lookup_insert_eq in H1. injection H1 as <-.
      rewrite lookup_insert_ne in H2 by congruence. symmetry. now apply Hcur.
    + rewrite lookup_insert_eq in H2. injection H2 as <-.
      rewrite lookup_insert_ne in H1 by congruence. now apply Hcur.
    + rewrite lookup_insert_ne in H1, H2 by congruence. eapply Hinj; eassumption.
  - intros n l Hn. destruct (decide (n = cur)) as [->|N].
    + rewrite lookup_insert_eq in Hn. now injection Hn as <-.
    + rewrite lookup_insert_ne in Hn by congruence. eapply Halloc, Hn.
  - exact Hs.
  - intros n Hn. destruct (decide (n = cur)) as [->|N]; [reflexivity|].
    rewrite lookup_insert_ne in Hn by congruence. now apply Hcur.
Qed.

Lemma attached_tree h c cur s : attached h c cur s -> tree h c.
Proof. now intros (? & _). Qed.

(** A call of [get_updated_state] on the attached stream state. *)
Lemma call_get_updated_state_attached stream_instance c cur s record_data h :
  attached h c cur s ->
  let r := call_get_updated_state stream_instance s record_data h in
  match get_updated_state stream_instance (content h s) record_data with
  | Err e => outcome r = Err e
  | Ok u =>
      exists s', outcome r = Ok s'
                 /\ attached (store r) c cur s'
                 /\ content (store r) s' = updated u
                 /\ agree_off cur (view (store r) c) (view h c)
  end.
Proof.
  intros Hat r.
  destruct (call_get_updated_state_run stream_instance s record_data h) as [_ Hrun].
  fold r in Hrun.
  destruct (get_updated_state stream_instance (content h s) record_data)
    as [[b|b]|e]; [| |tauto]; destruct Hrun as [Ho Hs]; rewrite Hs.
  - exists s. split; [exact Ho|]. apply write_attached, Hat.
  - eexists. split; [exact Ho|].
    destruct (alloc_attached h c cur b (attached_tree _ _ _ _ Hat)) as (H1 & H2 & H3).
    split; [exact H1|]. split; [exact H2|]. intros n _. now rewrite H3.
Qed.

(** The start of [_read_incremental]: the stream state is the entry of the
    connector state, or a new empty dictionary when there is none. *)
Lemma _read_incremental_unfold now stream_instance configured_stream connector_state h :
  let cur := stream_name configured_stream in
  let s := default (fresh (dom (blobs h))) (entries h connector_state !! cur) in
  let h0 := match entries h connector_state !! cur with
            | Some _ => h
            | None => Heap (<[s := ∅]> (blobs h)) (tops h)
            end in
  let b := content h0 s in
  let k := _read_incremental_slices now stream_instance configured_stream
             connector_state
             (stream_slices stream_instance incremental
                (Some (cursor_field configured_stream)) (Some b))
             s h0 in
  _read_incremental now stream_instance configured_stream connector_state h =
  Run ((if bool_decide (b = ∅) then []
        else [Log (INFO "Setting state of {} stream to {}"
                     [AStr cur; AVal (b !! cur)])])
       ++ trace k)
      (store k) (outcome k).
Proof.
  cbv zeta. unfold _read_incremental, bind.
  cbn [get_item trace store outcome app].
  destruct (entries h connector_state !! stream_name configured_stream) as [s|];
    cbn [ret new_dict read_dict default trace store outcome app];
    destruct (bool_decide (_ = ∅)); reflexivity.
Qed.

(** ** STATE messages carry the whole connector state *)

Lemma states_app tr1 tr2 : states (tr1 ++ tr2) = states tr1 ++ states tr2.
Proof.
  induction tr1 as [|[[]|] tr1 IH]; cbn; [reflexivity| | |]; now rewrite ?IH.
Qed.

Lemma last_or_cons B D ds : last_or B (D :: ds) = last_or D ds.
Proof. unfold last_or. rewrite last_cons. now destruct (last ds). Qed.

Lemma last_or_app B ds1 ds2 : last_or B (ds1 ++ ds2) = last_or (last_or B ds1) ds2.
Proof.
  revert B. induction ds1 as [|D ds1 IH]; intros B; [reflexivity|].
  cbn [app]. rewrite !last_or_cons. apply IH.
Qed.

Lemma full_maps_app names B ds1 ds2 :
  full_maps names B ds1 -> full_maps names (last_or B ds1) ds2 ->
  full_maps names B (ds1 ++ ds2).
Proof.
  revert B. induction ds1 as [|D ds1 IH]; intros B H1 H2; [exact H2|].
  destruct H1 as [HD H1]. split; [exact HD|].
  apply IH; [exact H1|]. now rewrite last_or_cons in H2.
Qed.

Lemma insert_agree_off cur (b : blob) (S1 S2 : snapshot) :
  agree_off cur S1 S2 -> <[cur := b]> S1 = <[cur := b]> S2.
Proof.
  intros H. apply map_eq. intros n. destruct (decide (n = cur)) as [->|N].
  - now rewrite !lookup_insert_eq.
  - rewrite !lookup_insert_ne by congruence. now apply H.
Qed.

Lemma records_only_states n now tr : records_only n now tr -> states tr = [].
Proof.
  induction 1 as [|e tr He _ IH]; [reflexivity|].
  destruct e as [[]|]; cbn; tauto.
Qed.

Section FullMaps.

Variable now : Z.
Variable stream_instance : Stream.
Variable configured_stream : ConfiguredAirbyteStream.
Variable c : loc.

Let cur := stream_name configured_stream.

Lemma records_full_maps records : forall record_counter s h B,
  attached h c cur s ->
  agree_off cur (view h c) B ->
  let r := _read_incremental_records now stream_instance cur c records
             record_counter s h in
  full_maps [cur] B (states (trace r))
  /\ forall s', outcome r = Ok s' ->
       attached (store r) c cur s'
       /\ agree_off cur (view (store r) c) (last_or B (states (trace r))).
Proof.
  induction records as [|record_data rest IH|e]; intros record_counter s h B Hat Hag.
  - cbn. split; [exact I|]. intros s' [= <-]. split; assumption.
  - cbv zeta. rewrite _read_incremental_records_Yield. cbv zeta.
    pose proof (call_get_updated_state_attached stream_instance c cur s
                  record_data h Hat) as Hcall. cbv zeta in Hcall.
    destruct (get_updated_state stream_instance (content h s) record_data) as [u|e].
    2:{ rewrite Hcall. cbn. split; [exact I | discriminate]. }
    destruct Hcall as (s1 & Ho & Hat1 & _ & Hag1). rewrite Ho.
    assert (Hag1' : agree_off cur
                      (view (store (call_get_updated_state stream_instance s
                                      record_data h)) c) B).
    { intros n Hn. rewrite Hag1 by exact Hn. now apply Hag. }
    destruct (checkpoint_due _ _).
    + set (h1 := store (call_get_updated_state stream_instance s record_data h)) in *.
      destruct (checkpointed_view cur s1 c h1) as (Hv & _ & _).
      pose proof (checkpointed_attached cur s1 c h1 Hat1) as Hat2.
      specialize (IH (S record_counter) s1 (checkpointed cur s1 c h1)
                    (view (checkpointed cur s1 c h1) c) Hat2 (fun _ _ => eq_refl)).
      cbv zeta in IH. destruct IH as [IH1 IH2].
      cbn [trace store outcome checkpoint_events app states].
      rewrite last_or_cons. split; [split|exact IH2]; [|exact IH1].
      exists cur, (content h1 s1). split; [apply list_elem_of_here|].
      rewrite Hv. now apply insert_agree_off.
    + specialize (IH (S record_counter) s1 _ B Hat1 Hag1').
      cbv zeta in IH. cbn [trace store outcome states]. exact IH.
  - cbn. split; [exact I | discriminate].
Qed.

Lemma slices_full_maps slices : forall s h,
  attached h c cur s ->
  let r := _read_incremental_slices now stream_instance configured_stream c
             slices s h in
  full_maps [cur] (view h c) (states (trace r))
  /\ (outcome r = Ok tt ->
      tree (store r) c
      /\ view (store r) c = last_or (view h c) (states (trace r))).
Proof.
  induction slices as [|sl rest IH|e]; intros s h Hat.
  - cbn. split; [exact I|]. intros _. split; [eapply attached_tree, Hat | reflexivity].
  - cbv zeta. rewrite _read_incremental_slices_Yield. cbv zeta.
    match goal with |- context [_read_incremental_records _ _ _ _ ?recs _ _ _] =>
      destruct (records_full_maps recs 0 s h (view h c) Hat (fun _ _ => eq_refl))
        as [H1 H2]; set (k1 := _read_incremental_records now stream_instance cur c
                                 recs 0 s h) in *
    end.
    fold cur. fold k1.
    destruct (outcome k1) as [s1|e] eqn:Ek1.
    2:{ cbn [trace store outcome]. split; [exact H1 | discriminate]. }
    destruct (H2 s1 eq_refl) as [Hat1 Hag1].
    destruct (checkpointed_view cur s1 c (store k1)) as (Hv & _ & _).
    pose proof (checkpointed_attached cur s1 c (store k1) Hat1) as Hat2.
    destruct (IH s1 (checkpointed cur s1 c (store k1)) Hat2) as [IH1 IH2].
    cbn [trace store outcome].
    rewrite !states_app. cbn [checkpoint_events states app].
    assert (HD : view (checkpointed cur s1 c (store k1)) c
                 = <[cur := content (store k1) s1]>
                     (last_or (view h c) (states (trace k1)))).
    { rewrite Hv. now apply insert_agree_off. }
    split.
    + apply full_maps_app; [exact H1|]. split; [|exact IH1].
      exists cur, (content (store k1) s1). split; [apply list_elem_of_here | exact HD].
    + intros Hok. destruct (IH2 Hok) as [Ht Hview]. split; [exact Ht|].
      rewrite Hview, last_or_app, last_or_cons. reflexivity.
  - cbn. split; [exact I | discriminate].
Qed.

Lemma _read_incremental_full_maps h :
  tree h c ->
  let r := _read_incremental now stream_instance configured_stream c h in
  full_maps [cur] (view h c) (states (trace r))
  /\ (outcome r = Ok tt ->
      tree (store r) c
      /\ view (store r) c = last_or (view h c) (states (trace r))).
Proof.
  intros Ht. cbv zeta. rewrite _read_incremental_unfold. cbv zeta. fold cur.
  assert (Hlog : forall b : blob,
            states (if bool_decide (b = ∅) then []
                    else [Log (INFO "Setting state of {} stream to {}"
                                 [AStr cur; AVal (b !! cur)])]) = [])
    by (intros b; now destruct (bool_decide _)).
  destruct (entries h c !! cur) as [s|] eqn:Es; cbn [default].
  - assert (Hat : attached h c cur s).
    { destruct Ht as [Hinj Halloc].
      split; [split; assumption|]. split; [eapply Halloc, Es|].
      intros n Hn. eapply Hinj; eassumption. }
    match goal with |- context [_read_incremental_slices _ _ _ _ ?sl _ _] =>
      destruct (slices_full_maps sl s h Hat) as [H1 H2] end.
    cbn [trace store outcome]. rewrite states_app, Hlog. cbn [app].
    split; assumption.
  - destruct (alloc_attached h c cur ∅ Ht) as (Hat & _ & Hv). cbv zeta in Hat, Hv.
    match goal with |- context [_read_incremental_slices _ _ _ _ ?sl ?s ?h0] =>
      destruct (slices_full_maps sl s h0 Hat) as [H1 H2] end.
    cbn [trace store outcome]. rewrite states_app, Hlog. cbn [app].
    rewrite Hv in H1, H2. split; assumption.
Qed.

End FullMaps.

(** ** The deep copy of the seed state *)

(** The copy only adds dictionaries: the objects of the store it starts from
    are kept, and the entries it builds refer to new objects. *)
Lemma deepcopy_items_frame (old : gset loc) items : forall memo acc h,
  old ⊆ dom (blobs h) ->
  (forall l l', memo !! l = Some l' -> l' ∉ old) ->
  (forall k l', acc !! k = Some l' -> l' ∉ old) ->
  let r := deepcopy_items items memo acc h in
  tops (store r) = tops h
  /\ blobs h ⊆ blobs (store r)
  /\ forall t, outcome r = Ok t -> forall k l', t !! k = Some l' -> l' ∉ old.
Proof.
  induction items as [|[k l] items IH]; intros memo acc h Hold Hmemo Hacc.
  - cbn. split; [reflexivity|]. split; [reflexivity|].
    intros t [= <-]. exact Hacc.
  - cbn [deepcopy_items]. destruct (memo !! l) as [l'|] eqn:Em.
    + apply IH; [exact Hold | exact Hmemo |].
      intros k0 l0. destruct (decide (k0 = k)) as [->|N].
      * rewrite lookup_insert_eq. intros [= <-]. eapply Hmemo, Em.
      * rewrite lookup_insert_ne by congruence. apply Hacc.
    + cbv zeta. unfold bind. cbn [read_dict new_dict trace store outcome app].
      set (l' := fresh (dom (blobs h))).
      assert (Hl' : l' ∉ dom (blobs h)) by apply is_fresh.
      set (h1 := Heap (<[l' := content h l]> (blobs h)) (tops h)).
      specialize (IH (<[l := l']> memo) (<[k := l']> acc) h1).
      cbv zeta in IH. destruct IH as (I1 & I2 & I3).
      * cbn. rewrite dom_insert_L. set_solver.
      * intros l0 l0'. destruct (decide (l0 = l)) as [->|N].
        -- rewrite lookup_insert_eq. intros [= <-]. set_solver.
        -- rewrite lookup_insert_ne by congruence. apply Hmemo.
      * intros k0 l0. destruct (decide (k0 = k)) as [->|N].
        -- rewrite lookup_insert_eq. intros [= <-]. set_solver.
        -- rewrite lookup_insert_ne by congruence. apply Hacc.
      * destruct (outcome (deepcopy_items items _ _ h1)) as [t|e] eqn:Eo;
          cbn [trace store outcome].
        -- split; [exact I1|]. split.
           ++ etransitivity; [|exact I2]. cbn.
              apply insert_subseteq. now apply not_elem_of_dom.
           ++ intros t' [= <-]. now apply I3.
        -- split; [exact I1|]. split; [|discriminate].
           etransitivity; [|exact I2]. cbn.
           apply insert_subseteq. now apply not_elem_of_dom.
Qed.

Lemma content_subseteq h h' l :
  blobs h ⊆ blobs h' -> l ∈ dom (blobs h) -> content h' l = content h l.
Proof.
  intros Hsub [b Hb]%elem_of_dom. unfold content.
  rewrite Hb. now rewrite (lookup_weaken _ _ _ _ Hb Hsub).
Qed.

Lemma deepcopy_items_separate items : forall memo acc h,
  NoDup items.*1 ->
  NoDup items.*2 ->
  (forall l, l ∈ items.*2 -> memo !! l = None) ->
  (forall l, l ∈ items.*2 -> l ∈ dom (blobs h)) ->
  (forall k, k ∈ items.*1 -> acc !! k = None) ->
  separate acc h ->
  let r := deepcopy_items items memo acc h in
  exists t,
    outcome r = Ok t
    /\ separate t (store r)
    /\ blobs h ⊆ blobs (store r)
    /\ (forall k l, (k, l) ∈ items ->
          exists l', t !! k = Some l' /\ content (store r) l' = content h l)
    /\ (forall k, k ∉ items.*1 -> t !! k = acc !! k).
Proof.
  induction items as [|[k l] items IH];
    intros memo acc h Hk Hl Hmemo Hdom Hacc Hsep.
  - cbn. exists acc. split; [reflexivity|]. split; [exact Hsep|].
    split; [reflexivity|]. split; [|reflexivity].
    intros k l Hin. now apply elem_of_nil in Hin.
  - cbn [deepcopy_items]. rewrite (Hmemo l) by (cbn; apply list_elem_of_here).
    cbn in Hk, Hl. apply NoDup_cons in Hk as [Hk1 Hk]. apply NoDup_cons in Hl as [Hl1 Hl].
    cbv zeta. unfold bind. cbn [read_dict new_dict trace store outcome app].
    set (l' := fresh (dom (blobs h))).
    assert (Hl' : l' ∉ dom (blobs h)) by apply is_fresh.
    set (h1 := Heap (<[l' := content h l]> (blobs h)) (tops h)).
    assert (Hsub1 : blobs h ⊆ blobs h1)
      by (cbn; apply insert_subseteq; now apply not_elem_of_dom).
    destruct Hsep as [Hinj Halloc].
    destruct (IH (<[l := l']> memo) (<[k := l']> acc) h1 Hk Hl)
      as (t & Ho & Hsep' & Hsub & Hcopied & Hkept).
    + intros l0 Hl0. rewrite lookup_insert_ne by (intros ->; contradiction).
      apply Hmemo. cbn. now apply list_elem_of_further.
    + intros l0 Hl0. cbn. rewrite dom_insert_L. apply elem_of_union_r.
      apply Hdom. cbn. now apply list_elem_of_further.
    + intros k0 Hk0. rewrite lookup_insert_ne by (intros ->; contradiction).
      apply Hacc. cbn. now apply list_elem_of_further.
    + split.
      * intros n1 n2 l0 H1 H2.
        destruct (decide (n1 = k)) as [->|N1], (decide (n2 = k)) as [->|N2];
          [reflexivity | | | ].
        -- rewrite lookup_insert_eq in H1. injection H1 as <-.
           rewrite lookup_insert_ne in H2 by congruence.
           exfalso. apply Hl'. eapply Halloc, H2.
        -- rewrite lookup_insert_eq in H2. injection H2 as <-.
           rewrite lookup_insert_ne in H1 by congruence.
           exfalso. apply Hl'. eapply Halloc, H1.
        -- rewrite lookup_insert_ne in H1, H2 by congruence.
           eapply Hinj; eassumption.
      * intros n l0. cbn. rewrite dom_insert_L.
        destruct (decide (n = k)) as [->|N].
        -- rewrite lookup_insert_eq. intros [= <-]. set_solver.
        -- rewrite lookup_insert_ne by congruence. intros H0.
           specialize (Halloc n l0 H0). set_solver.
    + rewrite Ho. cbn [trace store outcome]. exists t.
      split; [reflexivity|]. split; [exact Hsep'|].
      split; [etransitivity; eassumption|]. split.
      * intros k0 l0 Hin. apply elem_of_cons in Hin as [[= -> ->]|Hin].
        -- rewrite Hkept by exact Hk1. rewrite lookup_insert_eq.
           exists l'. split; [reflexivity|].
           rewrite (content_subseteq h1 _ l' Hsub).
           ++ unfold content. cbn. now rewrite lookup_insert_eq.
           ++ cbn. rewrite dom_insert_L. set_solver.
        -- destruct (Hcopied k0 l0 Hin) as (l0' & Ht & Hc).
           exists l0'. split; [exact Ht|]. rewrite Hc.
           unfold content. cbn. rewrite lookup_insert_ne; [reflexivity|].
           intros <-. apply Hl'. apply Hdom. cbn. apply list_elem_of_further.
           apply list_elem_of_fmap. now exists (k0, l').
      * intros k0 Hk0. cbn in Hk0. apply not_elem_of_cons in Hk0 as [N Hk0].
        rewrite Hkept by exact Hk0. now rewrite lookup_insert_ne by congruence.
Qed.

Lemma deepcopy_frame state h :
  let r := deepcopy state h in
  exists c,
    outcome r = Ok c
    /\ blobs h ⊆ blobs (store r)
    /\ tops h ⊆ tops (store r)
    /\ (c ∉ dom (tops h))
    /\ forall k l, entries (store r) c !! k = Some l -> l ∉ dom (blobs h).
Proof.
  cbv zeta. unfold deepcopy. fold (seed_entries h state).
  destruct (deepcopy_items_frame (dom (blobs h)) (map_to_list (seed_entries h state))
              ∅ ∅ h) as (H1 & H2 & H3);
    [reflexivity | intros l l'; now rewrite lookup_empty
    | intros k l'; now rewrite lookup_empty |].
  destruct (deepcopy_items_Ok (map_to_list (seed_entries h state)) ∅ ∅ h)
    as (t & Ho & _).
  specialize (H3 t Ho).
  rewrite (bind_Ok _ _ h t Ho). cbn [new_top trace store outcome].
  set (h1 := store (deepcopy_items _ ∅ ∅ h)) in *.
  assert (Hc : fresh (dom (tops h1)) ∉ dom (tops h1)) by apply is_fresh.
  exists (fresh (dom (tops h1))). split; [reflexivity|].
  split; [exact H2|]. split; [|split].
  - rewrite <- H1. apply insert_subseteq. now apply not_elem_of_dom.
  - now rewrite <- H1.
  - unfold entries. cbn. rewrite lookup_insert_eq. exact H3.
Qed.

Lemma separate_NoDup t h : separate t h -> NoDup (map_to_list t).*2.
Proof.
  intros [Hinj _]. apply NoDup_fmap_2_strong; [|apply NoDup_map_to_list].
  intros [k1 l1] [k2 l2] H1%elem_of_map_to_list H2%elem_of_map_to_list Heq.
  cbn in Heq. subst l2. f_equal. eapply Hinj; eassumption.
Qed.

Lemma deepcopy_tree state h :
  separate (seed_entries h state) h ->
  let r := deepcopy state h in
  exists c,
    outcome r = Ok c
    /\ tree (store r) c
    /\ view (store r) c = seed_view h state.
Proof.
  intros Hsep. cbv zeta. unfold deepcopy. fold (seed_entries h state).
  set (T := seed_entries h state) in *.
  destruct (deepcopy_items_separate (map_to_list T) ∅ ∅ h)
    as (t & Ho & [Hinj Halloc] & Hsub & Hcopied & Hkept).
  - apply NoDup_fst_map_to_list.
  - eapply separate_NoDup, Hsep.
  - intros l _. apply lookup_empty.
  - intros l ((k & l0) & -> & Hin%elem_of_map_to_list)%list_elem_of_fmap.
    destruct Hsep as [_ Ha]. eapply Ha, Hin.
  - intros k _. apply lookup_empty.
  - split; intros ? ?; [intros ?|]; now rewrite lookup_empty.
  - rewrite (bind_Ok _ _ h t Ho). cbn [new_top trace store outcome].
    set (h1 := store (deepcopy_items _ ∅ ∅ h)) in *.
    exists (fresh (dom (tops h1))). split; [reflexivity|].
    assert (He : entries (Heap (blobs h1) (<[fresh (dom (tops h1)) := t]> (tops h1)))
                   (fresh (dom (tops h1))) = t)
      by (unfold entries; cbn; now rewrite lookup_insert_eq).
    split.
    + unfold tree. rewrite He. split; assumption.
    + apply map_eq. intros k. unfold seed_view. rewrite view_lookup, He, lookup_fmap.
      fold T. destruct (T !! k) as [l|] eqn:Ek.
      * destruct (Hcopied k l) as (l' & Ht & Hc); [now apply elem_of_map_to_list|].
        rewrite Ht. cbn. f_equal. exact Hc.
      * rewrite Hkept, lookup_empty; [reflexivity|].
        intros ((k0 & l0) & -> & Hin%elem_of_map_to_list)%list_elem_of_fmap.
        cbn in Ek. congruence.
Qed.

Lemma try_except_on_exception {now} src c configured_stream h :
  let inner := read_configured now src c configured_stream h in
  let t := try_except (read_configured now src c configured_stream)
             (on_exception src) h in
  trace t = trace inner ++ match outcome inner with
                           | Ok _ => []
                           | Err _ => [failure_log src]
                           end
  /\ store t = store inner
  /\ outcome t = outcome inner.
Proof.
  cbv zeta. unfold try_except.
  destruct (outcome (read_configured now src c configured_stream h)) as [[]|e] eqn:E.
  - rewrite app_nil_r, E. repeat split.
  - cbn. repeat split.
Qed.

Section FullMapsOfRead.

Variable now : Z.
Variable src : Source.
Variable c : loc.

Lemma _read_stream_full_maps stream_instance configured_stream h :
  tree h c ->
  let r := _read_stream now stream_instance configured_stream c h in
  full_maps [stream_name configured_stream] (view h c) (states (trace r))
  /\ (outcome r = Ok tt ->
      tree (store r) c
      /\ view (store r) c = last_or (view h c) (states (trace r))).
Proof.
  intros Ht. cbv zeta.
  destruct (_read_stream_unfold now stream_instance configured_stream c h)
    as (Htr & Hs & Ho).
  rewrite Htr, Hs, Ho. cbn [states]. rewrite states_app.
  match goal with |- context [states (match ?o with Ok _ => ?a | Err _ => _ end)] =>
    replace (states (match o with Ok _ => a | Err _ => [] end)) with (@nil snapshot)
      by (now destruct o) end.
  rewrite app_nil_r.
  destruct (use_incremental configured_stream stream_instance).
  - now apply _read_incremental_full_maps.
  - destruct (_read_full_refresh_only now stream_instance configured_stream h)
      as [Hrec Hstore].
    rewrite (records_only_states _ _ _ Hrec), Hstore. cbn.
    split; [exact I|]. intros _. split; [exact Ht | reflexivity].
Qed.

Lemma read_configured_full_maps configured_stream h :
  tree h c ->
  let r := read_configured now src c configured_stream h in
  full_maps [stream_name configured_stream] (view h c) (states (trace r))
  /\ (outcome r = Ok tt ->
      tree (store r) c
      /\ view (store r) c = last_or (view h c) (states (trace r))).
Proof.
  intros Ht. unfold read_configured.
  destruct (stream_instances src !! stream_name configured_stream).
  - now apply _read_stream_full_maps.
  - cbn. split; [exact I | discriminate].
Qed.

End FullMapsOfRead.

(** ** STATE messages carry the current entry of every stream *)

Lemma snapshots_messages tr : snapshots (messages tr) = states tr.
Proof.
  unfold snapshots.
  induction tr as [|[[n x t|D]|l] tr IH]; cbn [messages states omap list_omap];
    [reflexivity | exact IH | now rewrite IH | exact IH].
Qed.

Section CurrentEntries.

Variable now : Z.
Variable stream_instance : Stream.
Variable configured_stream : ConfiguredAirbyteStream.
Variable c : loc.

Let cur := stream_name configured_stream.

Lemma records_current records : forall record_counter s h B rest,
  attached h c cur s ->
  agree_off cur (view h c) B ->
  let r := _read_incremental_records now stream_instance cur c records
             record_counter s h in
  match outcome r with
  | Ok s' =>
      current_entries stream_instance cur (last_or B (states (trace r)))
        (content (store r) s') rest
  | Err _ => rest = []
  end ->
  current_entries stream_instance cur B (content h s) (messages (trace r) ++ rest).
Proof.
  induction records as [|record_data records IH|e];
    intros record_counter s h B rest Hat Hag.
  - cbn. trivial.
  - cbv zeta. rewrite _read_incremental_records_Yield. cbv zeta.
    pose proof (call_get_updated_state_attached stream_instance c cur s
                  record_data h Hat) as Hcall. cbv zeta in Hcall.
    destruct (get_updated_state stream_instance (content h s) record_data)
      as [u|e] eqn:Hg.
    2:{ rewrite Hcall. cbn [trace store outcome messages app].
        intros ->. cbn [current_entries]. now rewrite Hg. }
    destruct Hcall as (s1 & Ho & Hat1 & Hc1 & Hag1). rewrite Ho.
    set (h1 := store (call_get_updated_state stream_instance s record_data h)) in *.
    assert (Hag1' : agree_off cur (view h1 c) B).
    { intros n Hn. rewrite Hag1 by exact Hn. now apply Hag. }
    destruct (checkpoint_due _ _).
    + destruct (checkpointed_view cur s1 c h1) as (Hv & _ & _).
      pose proof (checkpointed_attached cur s1 c h1 Hat1) as Hat2.
      cbn [trace store outcome checkpoint_events app messages states].
      rewrite last_or_cons. intros Hrest.
      cbn [current_entries]. rewrite Hg. split.
      * rewrite Hv, Hc1. now apply insert_agree_off.
      * rewrite <- Hc1, <- (checkpointed_content cur s1 c h1 s1).
        apply (IH (S record_counter) s1 (checkpointed cur s1 c h1)
                 (view (checkpointed cur s1 c h1) c) rest Hat2 (fun _ _ => eq_refl)).
        exact Hrest.
    + cbn [trace store outcome app messages states]. intros Hrest.
      cbn [current_entries]. rewrite Hg, <- Hc1.
      apply (IH (S record_counter) s1 h1 B rest Hat1 Hag1'). exact Hrest.
  - cbn. intros ->. exact I.
Qed.

Lemma slices_current slices : forall s h,
  attached h c cur s ->
  let r := _read_incremental_slices now stream_instance configured_stream c
             slices s h in
  current_entries stream_instance cur (view h c) (content h s) (messages (trace r)).
Proof.
  induction slices as [|sl slices IH|e]; intros s h Hat.
  - exact I.
  - cbv zeta. rewrite _read_incremental_slices_Yield. cbv zeta.
    match goal with |- context [_read_incremental_records _ _ _ _ ?recs _ _ _] =>
      pose proof (records_current recs 0 s h (view h c)) as Hrec;
      destruct (records_full_maps now stream_instance configured_stream c recs 0 s h
                  (view h c) Hat (fun _ _ => eq_refl)) as [_ H2];
      set (k1 := _read_incremental_records now stream_instance cur c recs 0 s h) in *
    end.
    fold cur. fold k1. cbv zeta in Hrec.
    destruct (outcome k1) as [s1|e] eqn:Ek1.
    2:{ cbn [trace store outcome]. rewrite <- (app_nil_r (messages (trace k1))).
        apply Hrec; [exact Hat | intros n Hn; reflexivity | reflexivity]. }
    destruct (H2 s1 Ek1) as [Hat1 Hag1].
    destruct (checkpointed_view cur s1 c (store k1)) as (Hv & _ & _).
    pose proof (checkpointed_attached cur s1 c (store k1) Hat1) as Hat2.
    cbn [trace store outcome].
    rewrite !messages_app. cbn [checkpoint_events messages app].
    apply Hrec; [exact Hat | intros n Hn; reflexivity |].
    cbn [current_entries]. split.
    + rewrite Hv. now apply insert_agree_off.
    + rewrite <- (checkpointed_content cur s1 c (store k1) s1).
      apply (IH s1 (checkpointed cur s1 c (store k1)) Hat2).
  - exact I.
Qed.

Lemma _read_incremental_current h :
  tree h c ->
  let r := _read_incremental now stream_instance configured_stream c h in
  current_entries stream_instance cur (view h c) (default ∅ (view h c !! cur))
    (messages (trace r)).
Proof.
  intros Ht. cbv zeta. rewrite _read_incremental_unfold. cbv zeta. fold cur.
  assert (Hlog : forall b : blob,
            messages (if bool_decide (b = ∅) then []
                      else [Log (INFO "Setting state of {} stream to {}"
                                   [AStr cur; AVal (b !! cur)])]) = [])
    by (intros b; now destruct (bool_decide _)).
  destruct (entries h c !! cur) as [s|] eqn:Es; cbn [default].
  - assert (Hat : attached h c cur s).
    { destruct Ht as [Hinj Halloc].
      split; [split; assumption|]. split; [eapply Halloc, Es|].
      intros n Hn. eapply Hinj; eassumption. }
    cbn [trace store outcome]. rewrite messages_app, Hlog. cbn [app].
    rewrite view_lookup, Es. cbn [fmap option_fmap option_map default].
    now apply slices_current.
  - destruct (alloc_attached h c cur ∅ Ht) as (Hat & Hc & Hv). cbv zeta in Hat, Hc, Hv.
    cbn [trace store outcome]. rewrite messages_app, Hlog. cbn [app].
    rewrite view_lookup, Es. cbn [fmap option_fmap option_map default].
    match goal with |- context [_read_incremental_slices _ _ _ _ ?sl ?s0 ?h0] =>
      pose proof (slices_current sl s0 h0 Hat) as H end.
    cbv zeta in H. rewrite Hv, Hc in H. rewrite ?Hc. exact H.
Qed.

End CurrentEntries.

Section CurrentEntriesOfRead.

Variable now : Z.
Variable src : Source.
Variable c : loc.

Lemma read_configured_pass configured_stream h :
  tree h c ->
  pass_entries src configured_stream (view h c)
    (messages (trace (read_configured now src c configured_stream h))).
Proof.
  intros Ht. unfold pass_entries, read_configured.
  destruct (stream_instances src !! stream_name configured_stream) as [inst|];
    [|reflexivity].
  destruct (_read_stream_unfold now inst configured_stream c h) as (Htr & _ & _).
  rewrite Htr. cbn [messages]. rewrite messages_app.
  match goal with |- context [messages (match ?o with Ok _ => ?a | Err _ => _ end)] =>
    replace (messages (match o with Ok _ => a | Err _ => [] end))
      with (@nil AirbyteMessage) by (now destruct o) end.
  rewrite app_nil_r.
  destruct (use_incremental configured_stream inst).
  - now apply _read_incremental_current.
  - destruct (_read_full_refresh_only now inst configured_stream h) as [Hrec _].
    rewrite snapshots_messages. eapply records_only_states, Hrec.
Qed.

Lemma passes_current catalog : forall h,
  tree h c ->
  run_entries src catalog (view h c) (passes now src c catalog h)
  /\ messages (trace (read_catalog now src c catalog h))
     = concat (passes now src c catalog h).
Proof.
  induction catalog as [|cs catalog IH]; intros h Ht.
  - split; reflexivity.
  - cbn [read_catalog passes].
    destruct (@try_except_on_exception now src c cs h) as (Htr & Hs & Ho).
    destruct (read_configured_full_maps now src c cs h Ht) as [_ H2].
    pose proof (read_configured_pass cs h Ht) as Hpass.
    pose (m := try_except (read_configured now src c cs) (on_exception src)).
    fold m in Htr, Hs, Ho. fold m.
    assert (Hms : messages (trace (m h))
                  = messages (trace (read_configured now src c cs h))).
    { rewrite Htr, messages_app. unfold failure_log.
      destruct (outcome _); cbn; now rewrite app_nil_r. }
    rewrite <- Hms in Hpass.
    assert (Hst : states (trace (read_configured now src c cs h))
                  = snapshots (messages (trace (m h))))
      by now rewrite Hms, snapshots_messages.
    rewrite <- Ho, <- Hs, Hst in H2.
    destruct (outcome (m h)) as [[]|e] eqn:Et.
    + rewrite (bind_Ok m _ h tt Et). cbn [trace store outcome run_entries concat].
      destruct (H2 eq_refl) as [Ht' Hv].
      destruct (IH (store (m h)) Ht') as [I1 I2].
      rewrite messages_app, I2, <- Hv. split; [split; assumption | reflexivity].
    + rewrite (bind_Err m _ h e Et). cbn [trace store outcome run_entries concat].
      rewrite app_nil_r. split; [split; [exact Hpass | exact I] | reflexivity].
Qed.

End CurrentEntriesOfRead.

(** C6: when the entries of the seed state are distinct dictionaries, every
    STATE message of [read] carries the whole connector state with the current
    entry of every stream.  The messages of [read] are those of its passes, one
    for every configured stream that the loop reaches.  In the pass of a stream
    read incrementally, every STATE message is the connector state of the
    STATE message before it (at first the seed state) with the entry of that
    stream, and of no other, replaced by its stream state at that point: the
    entry it had when the pass began, updated by [get_updated_state] with every
    record emitted in the pass so far.  The entries of all other streams, those
    synced earlier and those only seeded, are carried along as they are.  The
    other passes emit no STATE message. *)
Theorem state_messages_hold_current_entries now src catalog state h :
  separate (seed_entries h state) h ->
  exists c,
    outcome (deepcopy state h) = Ok c
    /\ let ps := passes now src c catalog (store (deepcopy state h)) in
       messages (trace (read now src catalog state h)) = concat ps
       /\ run_entries src catalog (seed_view h state) ps.
Proof.
  intros Hsep. unfold read.
  destruct (deepcopy_tree state h Hsep) as (c & Ho & Ht & Hv).
  destruct (deepcopy_Ok state h) as (c' & Ho' & Htr).
  exists c. split; [exact Ho|]. cbv zeta.
  rewrite (bind_Ok _ _ h c Ho), Htr. cbn [trace store outcome app].
  rewrite (bind_Ok (log _) _ _ tt eq_refl). cbn [log trace store outcome app messages].
  destruct (passes_current now src c catalog (store (deepcopy state h)) Ht)
    as [H1 H2].
  rewrite Hv in H1. split; [|exact H1].
  destruct (outcome (read_catalog now src c catalog (store (deepcopy state h))))
    as [[]|e] eqn:E.
  - rewrite (bind_Ok _ _ _ tt E). cbn [log trace store outcome].
    rewrite messages_app. cbn [messages]. now rewrite app_nil_r.
  - rewrite (bind_Err _ _ _ e E). exact H2.
Qed.

(** ** The caller's state is left alone *)

Section Frame.

Variable now : Z.
Variable h0 : heap.          (* the store when [read] is called *)
Variable c : loc.            (* the connector state of the run *)

Lemma call_get_updated_state_kept stream_instance s record_data h :
  kept h0 h -> private h0 c h -> s ∉ dom (blobs h0) ->
  let r := call_get_updated_state stream_instance s record_data h in
  kept h0 (store r) /\ private h0 c (store r)
  /\ forall s', outcome r = Ok s' -> s' ∉ dom (blobs h0).
Proof.
  intros [Hb Ht] [Hc Hp] Hs r.
  destruct (call_get_updated_state_run stream_instance s record_data h) as [_ Hrun].
  fold r in Hrun.
  destruct (get_updated_state stream_instance (content h s) record_data)
    as [[b|b]|e]; destruct Hrun as [Ho Hst]; rewrite Hst, Ho.
  - split; [split; [|exact Ht]|split; [split; assumption|]].
    + cbn. apply insert_subseteq_r; [now apply not_elem_of_dom | exact Hb].
    + now intros s' [= <-].
  - assert (Hf : fresh (dom (blobs h)) ∉ dom (blobs h0)).
    { intros Hin. apply (is_fresh (dom (blobs h))).
      eapply subseteq_dom; eassumption. }
    split; [split; [|exact Ht]|split; [split; assumption|]].
    + cbn. apply insert_subseteq_r; [now apply not_elem_of_dom | exact Hb].
    + now intros s' [= <-].
  - split; [split; assumption|]. split; [split; assumption | discriminate].
Qed.

Lemma checkpointed_kept stream_name s h :
  kept h0 h -> private h0 c h -> s ∉ dom (blobs h0) ->
  kept h0 (checkpointed stream_name s c h) /\ private h0 c (checkpointed stream_name s c h).
Proof.
  intros [Hb Ht] [Hc Hp] Hs.
  destruct (checkpointed_view stream_name s c h) as (_ & Hblobs & He).
  split; [split|split].
  - now rewrite Hblobs.
  - unfold checkpointed.
    destruct (_checkpoint_state_run stream_name s c h) as (_ & Hst & _).
    rewrite Hst. cbn.
    apply insert_subseteq_r; [now apply not_elem_of_dom | exact Ht].
  - exact Hc.
  - rewrite He. intros k l. destruct (decide (k = stream_name)) as [->|N].
    + rewrite lookup_insert_eq. now intros [= <-].
    + rewrite lookup_insert_ne by congruence. apply Hp.
Qed.

Lemma records_kept stream_instance stream_name records :
  forall record_counter s h,
  kept h0 h -> private h0 c h -> s ∉ dom (blobs h0) ->
  let r := _read_incremental_records now stream_instance stream_name c records
             record_counter s h in
  kept h0 (store r) /\ private h0 c (store r)
  /\ forall s', outcome r = Ok s' -> s' ∉ dom (blobs h0).
Proof.
  induction records as [|record_data rest IH|e]; intros record_counter s h Hk Hp Hs.
  - cbn. split; [exact Hk|]. split; [exact Hp|]. now intros s' [= <-].
  - cbv zeta. rewrite _read_incremental_records_Yield. cbv zeta.
    destruct (call_get_updated_state_kept stream_instance s record_data h Hk Hp Hs)
      as (Hk1 & Hp1 & Hs1).
    destruct (outcome (call_get_updated_state stream_instance s record_data h))
      as [s1|e].
    2:{ cbn. split; [exact Hk1|]. split; [exact Hp1 | discriminate]. }
    specialize (Hs1 s1 eq_refl).
    destruct (checkpoint_due _ _); cbn [trace store outcome].
    + destruct (checkpointed_kept stream_name s1 _ Hk1 Hp1 Hs1) as [Hk2 Hp2].
      now apply IH.
    + now apply IH.
  - cbn. split; [exact Hk|]. split; [exact Hp | discriminate].
Qed.

Lemma slices_kept stream_instance configured_stream slices : forall s h,
  kept h0 h -> private h0 c h -> s ∉ dom (blobs h0) ->
  let r := _read_incremental_slices now stream_instance configured_stream c
             slices s h in
  kept h0 (store r) /\ private h0 c (store r).
Proof.
  induction slices as [|sl rest IH|e]; intros s h Hk Hp Hs.
  - cbn. split; assumption.
  - cbv zeta. rewrite _read_incremental_slices_Yield. cbv zeta.
    match goal with |- context [_read_incremental_records _ _ ?n _ ?recs _ _ _] =>
      destruct (records_kept stream_instance n recs 0 s h Hk Hp Hs)
        as (Hk1 & Hp1 & Hs1) end.
    destruct (outcome (_read_incremental_records _ _ _ _ _ _ _ _)) as [s1|e].
    2:{ cbn. split; assumption. }
    specialize (Hs1 s1 eq_refl). cbn [trace store outcome].
    destruct (checkpointed_kept (stream_name configured_stream) s1 _ Hk1 Hp1 Hs1)
      as [Hk2 Hp2].
    now apply IH.
  - cbn. split; assumption.
Qed.

Lemma _read_incremental_kept stream_instance configured_stream h :
  kept h0 h -> private h0 c h ->
  let r := _read_incremental now stream_instance configured_stream c h in
  kept h0 (store r) /\ private h0 c (store r).
Proof.
  intros Hk Hp. cbv zeta. rewrite _read_incremental_unfold. cbv zeta.
  cbn [trace store outcome].
  destruct (entries h c !! stream_name configured_stream) as [s|] eqn:Es;
    cbn [default].
  - apply slices_kept; [exact Hk | exact Hp |]. destruct Hp as [_ Hp]. eapply Hp, Es.
  - destruct Hk as [Hb Ht].
    assert (Hf : fresh (dom (blobs h)) ∉ dom (blobs h0)).
    { intros Hin. apply (is_fresh (dom (blobs h))).
      eapply subseteq_dom; eassumption. }
    apply slices_kept; [split; [|exact Ht] | exact Hp | exact Hf].
    cbn. apply insert_subseteq_r; [now apply not_elem_of_dom | exact Hb].
Qed.

Lemma read_catalog_kept src catalog : forall h,
  kept h0 h -> private h0 c h ->
  let r := read_catalog now src c catalog h in
  kept h0 (store r) /\ private h0 c (store r).
Proof.
  induction catalog as [|cs catalog IH]; intros h Hk Hp.
  - cbn. split; assumption.
  - cbv zeta. cbn [read_catalog].
    destruct (@try_except_on_exception now src c cs h) as (_ & Hs & _).
    pose (m := try_except (read_configured now src c cs) (on_exception src)).
    fold m in Hs. fold m.
    assert (Hm : kept h0 (store (m h)) /\ private h0 c (store (m h))).
    { rewrite Hs. unfold read_configured.
      destruct (stream_instances src !! stream_name cs) as [inst|];
        [|cbn; split; assumption].
      destruct (_read_stream_unfold now inst cs c h) as (_ & Hs' & _).
      rewrite Hs'. destruct (use_incremental cs inst).
      - now apply _read_incremental_kept.
      - destruct (_read_full_refresh_only now inst cs h) as [_ ->].
        split; assumption. }
    destruct Hm as [Hk1 Hp1].
    destruct (outcome (m h)) as [[]|e] eqn:Et.
    + rewrite (bind_Ok m _ h tt Et). cbn [trace store outcome]. now apply IH.
    + rewrite (bind_Err m _ h e Et). cbn [trace store outcome]. split; assumption.
Qed.

End Frame.

(** Without the copy the caller would see the updates: the loop over the
    catalog writes into the connector state it is given. *)
Example read_catalog_updates_its_connector_state :
  content (store (read_catalog 0 five_source 1%positive [messages_incremental]
                    (Slack.seeded "messages" {[ "ts" := 1 ]}))) 1%positive
  = {[ "ts" := 5 ]}.
Proof. vm_compute. reflexivity. Qed.

(** C10: [read] works on a deep copy of the seed state: every dictionary of
    the store it is called in, the caller's state and the stream states in it
    among them, is in the store after the run with the content it had,
    whatever the outcome of the run. *)
Theorem read_keeps_caller_state now src catalog state h :
  let r := read now src catalog state h in
  (forall l t, tops h !! l = Some t -> tops (store r) !! l = Some t)
  /\ (forall l b, blobs h !! l = Some b -> blobs (store r) !! l = Some b).
Proof.
  cbv zeta.
  assert (Hkept : kept h (store (read now src catalog state h))).
  { unfold read.
    destruct (deepcopy_frame state h) as (c & Ho & Hb & Ht & Hc & Hp).
    rewrite (bind_Ok _ _ h c Ho).
    rewrite (bind_Ok (log _) _ _ tt eq_refl). cbn [log trace store outcome].
    destruct (read_catalog_kept now h c src catalog (store (deepcopy state h)))
      as [Hk _]; [split; assumption | split; assumption |].
    destruct (outcome (read_catalog now src c catalog (store (deepcopy state h))))
      as [[]|e] eqn:E.
    - rewrite (bind_Ok _ _ _ tt E). exact Hk.
    - rewrite (bind_Err _ _ _ e E). exact Hk. }
  destruct Hkept as [Hb Ht]. split.
  - intros l t Hl. eapply lookup_weaken; eassumption.
  - intros l b Hl. eapply lookup_weaken; eassumption.
Qed.

(** ** The tracked cursor value *)


Lemma Slack_get_updated_state_ts b (x : record_data) ts v :
  x !! "ts" = Some ts ->
  Slack.float ts = Ok v ->
  exists u, Slack.get_updated_state b x = Ok u
            /\ updated u !! "ts" = Some (Z.max v (default 0 (b !! "ts"))).
Proof.
  intros Hts Hv. unfold Slack.get_updated_state. rewrite Hts, Hv.
  destruct (bool_decide (b = ∅)); eexists; (split; [reflexivity|]);
    cbn; apply lookup_insert_eq.
Qed.

Lemma call_get_updated_state_content stream_instance s record_data h u :
  get_updated_state stream_instance (content h s) record_data = Ok u ->
  let r := call_get_updated_state stream_instance s record_data h in
  exists s', outcome r = Ok s' /\ content (store r) s' = updated u.
Proof.
  intros Hu r.
  destruct (call_get_updated_state_run stream_instance s record_data h) as [_ Hrun].
  fold r in Hrun. rewrite Hu in Hrun.
  destruct u as [b|b]; destruct Hrun as [Ho Hs]; rewrite Hs;
    eexists; (split; [exact Ho|]); unfold content; cbn;
    now rewrite lookup_insert_eq.
Qed.

Section Tracked.

Variable now : Z.
Variable stream_instance : Stream.
Variable stream_name : string.
Variable c : loc.

Hypothesis slack_updates :
  get_updated_state stream_instance = Slack.get_updated_state.


End Tracked.



(** ** Records never run ahead of the state *)

Section Ordered.

(** The cursor field of every stream, by stream name. *)
Variable cursor : string -> string.

Lemma seen_after_app seen ms1 ms2 :
  seen_after seen (ms1 ++ ms2) = seen_after (seen_after seen ms1) ms2.
Proof.
  revert seen. induction ms1 as [|[n x t|D] ms1 IH]; intros seen; cbn;
    [reflexivity | apply IH | apply IH].
Qed.

Lemma ordered_app seen ms1 ms2 :
  ordered cursor seen ms1 -> ordered cursor (seen_after seen ms1) ms2 -> ordered cursor seen (ms1 ++ ms2).
Proof.
  revert seen. induction ms1 as [|[n x t|D] ms1 IH]; intros seen H1 H2; cbn in *.
  - exact H2.
  - now apply IH.
  - destruct H1 as [HD H1]. split; [exact HD | now apply IH].
Qed.

Lemma seen_after_records seen ms n x :
  (n, x) ∈ seen_after seen ms <->
  (n, x) ∈ seen \/ exists t, RECORD n x t ∈ ms.
Proof.
  revert seen. induction ms as [|[n' x' t'|D] ms IH]; intros seen; cbn.
  - split; [now left | intros [H|[t H]]; [exact H | now apply elem_of_nil in H]].
  - rewrite IH, elem_of_cons. split.
    + intros [[[= -> ->]|H]|[t H]]; [right; exists t'; apply list_elem_of_here
                                    | now left
                                    | right; exists t; now apply list_elem_of_further].
    + intros [H|[t H]]; [left; now right|].
      apply elem_of_cons in H as [[= -> -> ->]|H]; [left; now left | right; eauto].
  - rewrite IH. split; (intros [H|[t H]]; [now left | right; exists t]).
    + now apply list_elem_of_further.
    + apply elem_of_cons in H as [[=]|H]; exact H.
Qed.

(** The reading of [ordered] on a split of the message list. *)
Lemma ordered_split seen ms pre D post :
  ordered cursor seen ms ->
  ms = pre ++ STATE D :: post ->
  forall n x t, RECORD n x t ∈ pre -> covers cursor D n x.
Proof.
  revert seen ms. induction pre as [|m pre IH]; intros seen ms Ho -> n x t Hin.
  - now apply elem_of_nil in Hin.
  - cbn in Ho. apply elem_of_cons in Hin as [<-|Hin].
    + assert (Hs : (n, x) ∈ seen_after ((n, x) :: seen) pre)
        by (apply seen_after_records; left; apply list_elem_of_here).
      clear IH. revert Ho Hs. generalize ((n, x) :: seen).
      induction pre as [|[n' x' t'|D'] pre IH]; intros seen' Ho Hs; cbn in *.
      * destruct Ho as [HD _]. now apply HD.
      * eapply IH; eassumption.
      * destruct Ho as [_ Ho]. eapply IH; eassumption.
    + destruct m as [n' x' t'|D'].
      * eapply IH; [exact Ho | reflexivity | exact Hin].
      * destruct Ho as [_ Ho]. eapply IH; [exact Ho | reflexivity | exact Hin].
Qed.

End Ordered.

Section OrderedIncremental.

Variable cursor : string -> string.
Variable now : Z.
Variable stream_instance : Stream.
Variable configured_stream : ConfiguredAirbyteStream.
Variable c : loc.

Let cur := stream_name configured_stream.

Hypothesis max_folded : folds_max (cursor cur) stream_instance.

Lemma checkpoint_covers seen h s :
  others_covered cursor c cur seen h -> own_covered cursor cur seen h s ->
  forall n x, (n, x) ∈ seen ->
    covers cursor (<[cur := content h s]> (view h c)) n x.
Proof.
  intros Hoth Hown n x Hin v Hv. destruct (decide (n = cur)) as [->|N].
  - destruct (Hown x Hin v Hv) as (t & Ht & Hle).
    exists (content h s), t. now rewrite lookup_insert_eq.
  - destruct (Hoth n x Hin N v Hv) as (b & t & Hb & Ht & Hle).
    exists b, t. now rewrite lookup_insert_ne by congruence.
Qed.

Lemma checkpointed_covered seen h s :
  attached h c cur s -> others_covered cursor c cur seen h -> own_covered cursor cur seen h s ->
  let h' := checkpointed cur s c h in
  attached h' c cur s /\ all_covered cursor c seen h' /\ own_covered cursor cur seen h' s.
Proof.
  intros Hat Hoth Hown h'. split; [now apply checkpointed_attached|]. split.
  - intros n x Hin. subst h'.
    destruct (checkpointed_view cur s c h) as (-> & _ & _).
    now apply (checkpoint_covers seen).
  - intros x Hin. subst h'. rewrite checkpointed_content. now apply Hown.
Qed.

Lemma all_covered_others seen h : all_covered cursor c seen h -> others_covered cursor c cur seen h.
Proof. intros H n x Hin _. now apply H. Qed.

Lemma records_ordered records : forall record_counter s h seen,
  attached h c cur s -> others_covered cursor c cur seen h -> own_covered cursor cur seen h s ->
  let r := _read_incremental_records now stream_instance cur c records
             record_counter s h in
  ordered cursor seen (messages (trace r))
  /\ forall s', outcome r = Ok s' ->
       attached (store r) c cur s'
       /\ others_covered cursor c cur (seen_after seen (messages (trace r))) (store r)
       /\ own_covered cursor cur (seen_after seen (messages (trace r))) (store r) s'.
Proof.
  induction records as [|x rest IH|e];
    intros record_counter s h seen Hat Hoth Hown.
  - cbn. split; [exact I|]. intros s' [= <-].
    split; [exact Hat | split; [exact Hoth | exact Hown]].
  - cbv zeta. rewrite _read_incremental_records_Yield. cbv zeta.
    pose proof (call_get_updated_state_attached stream_instance c cur s x h Hat)
      as Hcall. cbv zeta in Hcall.
    destruct (get_updated_state stream_instance (content h s) x) as [u|e] eqn:Hg.
    2:{ rewrite Hcall. cbn. split; [exact I | discriminate]. }
    destruct Hcall as (s1 & Ho & Hat1 & Hc1 & Hag1). rewrite Ho.
    destruct (max_folded _ _ _ Hg) as (v & Hxv & Huv).
    set (h1 := store (call_get_updated_state stream_instance s x h)) in *.
    assert (Hoth1 : others_covered cursor c cur ((cur, x) :: seen) h1).
    { intros n y Hin Hn w Hw.
      apply elem_of_cons in Hin as [[= -> ->]|Hin]; [congruence|].
      destruct (Hoth n y Hin Hn w Hw) as (b & t & Hb & Ht & Hle).
      exists b, t. now rewrite Hag1 by exact Hn. }
    assert (Hown1 : own_covered cursor cur ((cur, x) :: seen) h1 s1).
    { intros y Hin w Hw. rewrite Hc1.
      apply elem_of_cons in Hin as [[= ->]|Hin].
      - rewrite Hxv in Hw. injection Hw as <-.
        eexists. split; [exact Huv | lia].
      - destruct (Hown y Hin w Hw) as (t1 & Ht1 & Hle).
        rewrite Ht1 in Huv. eexists. split; [exact Huv | cbn; lia]. }
    destruct (checkpoint_due _ _).
    + destruct (checkpointed_covered _ h1 s1 Hat1 Hoth1 Hown1) as (Hat2 & Hall2 & Hown2).
      destruct (IH (S record_counter) s1 _ _ Hat2 (all_covered_others _ _ Hall2) Hown2)
        as [IH1 IH2].
      cbn [trace store outcome checkpoint_events app messages ordered seen_after].
      split; [split; [exact Hall2 | exact IH1] | exact IH2].
    + destruct (IH (S record_counter) s1 _ _ Hat1 Hoth1 Hown1) as [IH1 IH2].
      cbn [trace store outcome messages ordered seen_after].
      split; [exact IH1 | exact IH2].
  - cbn. split; [exact I | discriminate].
Qed.

Lemma slices_ordered slices : forall s h seen,
  attached h c cur s -> all_covered cursor c seen h -> own_covered cursor cur seen h s ->
  let r := _read_incremental_slices now stream_instance configured_stream c
             slices s h in
  ordered cursor seen (messages (trace r))
  /\ (outcome r = Ok tt ->
      tree (store r) c
      /\ all_covered cursor c (seen_after seen (messages (trace r))) (store r)).
Proof.
  induction slices as [|sl rest IH|e]; intros s h seen Hat Hall Hown.
  - cbn. split; [exact I|]. intros _. split; [eapply attached_tree, Hat | exact Hall].
  - cbv zeta. rewrite _read_incremental_slices_Yield. cbv zeta. fold cur.
    match goal with |- context [_read_incremental_records _ _ _ _ ?recs _ _ _] =>
      destruct (records_ordered recs 0 s h seen Hat (all_covered_others _ _ Hall) Hown)
        as [H1 H2];
      set (k1 := _read_incremental_records now stream_instance cur c recs 0 s h) in *
    end.
    destruct (outcome k1) as [s1|e] eqn:Ek1.
    2:{ cbn [trace store outcome]. split; [exact H1 | discriminate]. }
    destruct (H2 s1 eq_refl) as (Hat1 & Hoth1 & Hown1).
    destruct (checkpointed_covered _ (store k1) s1 Hat1 Hoth1 Hown1)
      as (Hat2 & Hall2 & Hown2).
    destruct (IH s1 _ _ Hat2 Hall2 Hown2) as [IH1 IH2].
    cbn [trace store outcome].
    rewrite !messages_app. cbn [checkpoint_events messages app].
    rewrite seen_after_app. cbn [seen_after].
    split; [|exact IH2].
    apply ordered_app; [exact H1|]. cbn [ordered]. split; [exact Hall2 | exact IH1].
  - cbn. split; [exact I | discriminate].
Qed.

Lemma _read_incremental_ordered h seen :
  tree h c -> all_covered cursor c seen h ->
  let r := _read_incremental now stream_instance configured_stream c h in
  ordered cursor seen (messages (trace r))
  /\ (outcome r = Ok tt ->
      tree (store r) c
      /\ all_covered cursor c (seen_after seen (messages (trace r))) (store r)).
Proof.
  intros Ht Hall. cbv zeta. rewrite _read_incremental_unfold. cbv zeta. fold cur.
  assert (Hlog : forall b : blob,
            messages (if bool_decide (b = ∅) then []
                      else [Log (INFO "Setting state of {} stream to {}"
                                   [AStr cur; AVal (b !! cur)])]) = [])
    by (intros b; now destruct (bool_decide _)).
  destruct (entries h c !! cur) as [s|] eqn:Es; cbn [default].
  - assert (Hat : attached h c cur s).
    { destruct Ht as [Hinj Halloc].
      split; [split; assumption|]. split; [eapply Halloc, Es|].
      intros n Hn. eapply Hinj; eassumption. }
    assert (Hown : own_covered cursor cur seen h s).
    { intros x Hin v Hv. destruct (Hall cur x Hin v Hv) as (b & t & Hb & Hbt & Hle).
      rewrite view_lookup, Es in Hb. injection Hb as <-. eauto. }
    match goal with |- context [_read_incremental_slices _ _ _ _ ?sl _ _] =>
      destruct (slices_ordered sl s h seen Hat Hall Hown) as [H1 H2] end.
    cbn [trace store outcome]. rewrite messages_app, Hlog. cbn [app].
    split; assumption.
  - destruct (alloc_attached h c cur ∅ Ht) as (Hat & _ & Hv). cbv zeta in Hat, Hv.
    set (h0 := Heap (<[fresh (dom (blobs h)) := ∅]> (blobs h)) (tops h)) in *.
    assert (Hall0 : all_covered cursor c seen h0)
      by (intros n x Hin; rewrite Hv; now apply Hall).
    assert (Hown : own_covered cursor cur seen h0 (fresh (dom (blobs h)))).
    { intros x Hin v Hv'. destruct (Hall cur x Hin v Hv') as (b & t & Hb & _).
      rewrite view_lookup, Es in Hb. discriminate. }
    match goal with |- context [_read_incremental_slices _ _ _ _ ?sl ?s ?h'] =>
      destruct (slices_ordered sl s h' seen Hat Hall0 Hown) as [H1 H2] end.
    cbn [trace store outcome]. rewrite messages_app, Hlog. cbn [app].
    split; assumption.
Qed.

End OrderedIncremental.

Section OrderedRead.

Variable cursor : string -> string.
Variable now : Z.
Variable src : Source.
Variable c : loc.

Lemma read_configured_ordered configured_stream h seen :
  (forall inst,
      stream_instances src !! stream_name configured_stream = Some inst ->
      use_incremental configured_stream inst = true
      /\ folds_max (cursor (stream_name configured_stream)) inst) ->
  tree h c -> all_covered cursor c seen h ->
  let r := read_configured now src c configured_stream h in
  ordered cursor seen (messages (trace r))
  /\ (outcome r = Ok tt ->
      tree (store r) c
      /\ all_covered cursor c (seen_after seen (messages (trace r))) (store r)).
Proof.
  intros Hinc Ht Hall. cbv zeta. unfold read_configured.
  destruct (stream_instances src !! stream_name configured_stream) as [inst|].
  2:{ cbn. split; [exact I | discriminate]. }
  destruct (Hinc inst eq_refl) as [Huse Hfold].
  destruct (_read_stream_unfold now inst configured_stream c h) as (Htr & Hs & Ho).
  rewrite Huse in Htr, Hs, Ho.
  assert (Hm : messages (trace (_read_stream now inst configured_stream c h))
               = messages (trace (_read_incremental now inst configured_stream c h))).
  { rewrite Htr. cbn [messages]. rewrite messages_app.
    destruct (outcome _); cbn; now rewrite app_nil_r. }
  rewrite Hm, Hs, Ho.
  now apply _read_incremental_ordered.
Qed.

Lemma read_catalog_ordered catalog : forall h seen,
  incremental_read cursor src catalog ->
  tree h c -> all_covered cursor c seen h ->
  ordered cursor seen (messages (trace (read_catalog now src c catalog h))).
Proof.
  induction catalog as [|cs catalog IH]; intros h seen Hinc Ht Hall.
  - exact I.
  - apply Forall_cons in Hinc as [Hcs Hinc]. cbn [read_catalog].
    destruct (@try_except_on_exception now src c cs h) as (Htr & Hs & Ho).
    destruct (read_configured_ordered cs h seen Hcs Ht Hall) as [H1 H2].
    pose (m := try_except (read_configured now src c cs) (on_exception src)).
    fold m in Htr, Hs, Ho. fold m.
    assert (Hm : messages (trace (m h))
                 = messages (trace (read_configured now src c cs h))).
    { rewrite Htr, messages_app. destruct (outcome _); cbn; now rewrite app_nil_r. }
    rewrite <- Ho, <- Hs, <- Hm in H2. rewrite <- Hm in H1.
    destruct (outcome (m h)) as [[]|e] eqn:Et.
    + rewrite (bind_Ok m _ h tt Et). cbn [trace store outcome].
      destruct (H2 eq_refl) as [Ht' Hall'].
      rewrite messages_app. apply ordered_app; [exact H1|].
      now apply IH.
    + rewrite (bind_Err m _ h e Et). cbn [trace store outcome]. exact H1.
Qed.

End OrderedRead.

(** C1: in a read whose configured streams are all read incrementally with a
    [get_updated_state] that folds the maximum, and whose seed state has
    distinct dictionaries for its streams, every STATE message has, for each
    RECORD emitted before it, an entry for the record's stream whose cursor
    value is at least the record's. *)
Theorem records_not_after_state cursor now src catalog state h :
  separate (seed_entries h state) h ->
  incremental_read cursor src catalog ->
  forall pre D post,
    messages (trace (read now src catalog state h)) = pre ++ STATE D :: post ->
    forall n x t v,
      RECORD n x t ∈ pre ->
      x !! cursor n = Some v ->
      exists b w, D !! n = Some b /\ b !! cursor n = Some w /\ v <= w.
Proof.
  intros Hsep Hinc pre D post Hsplit n x t v Hin Hv.
  assert (Hord : ordered cursor [] (messages (trace (read now src catalog state h)))).
  { unfold read.
    destruct (deepcopy_tree state h Hsep) as (c & Ho & Ht & _).
    destruct (deepcopy_Ok state h) as (c' & _ & Htr).
    rewrite (bind_Ok _ _ h c Ho), Htr. cbn [trace store outcome app].
    rewrite (bind_Ok (log _) _ _ tt eq_refl).
    cbn [log trace store outcome app messages].
    assert (H1 : ordered cursor []
                   (messages (trace (read_catalog now src c catalog
                                       (store (deepcopy state h))))))
      by (apply read_catalog_ordered; [exact Hinc | exact Ht |];
          intros ? ? Hnil; now apply elem_of_nil in Hnil).
    destruct (outcome (read_catalog now src c catalog (store (deepcopy state h))))
      as [[]|e] eqn:E.
    - rewrite (bind_Ok _ _ _ tt E). cbn [log trace store outcome].
      rewrite messages_app. cbn [messages]. now rewrite app_nil_r.
    - rewrite (bind_Err _ _ _ e E). exact H1. }
  exact (ordered_split cursor [] _ pre D post Hord Hsplit n x t Hin v Hv).
Qed.

(** * The Slack streams and the examples *)

Lemma track_max_folds_max stream_instance :
  get_updated_state stream_instance = track_max ->
  folds_max "ts" stream_instance.
Proof.
  intros Hg b x u. rewrite Hg. unfold track_max.
  destruct (x !! "ts") as [v|] eqn:Hv; [|discriminate].
  intros [= <-]. exists v. split; [reflexivity|]. cbn. apply lookup_insert_eq.
Qed.

(** [chunk_date_range] leaves its loop because the start date has passed
    [now], never for lack of fuel. *)
Lemma chunk_loop_terminates now interval fuel : forall start_date intervals,
  (now - start_date) / Slack.day + 1 <= Z.of_nat fuel ->
  exists l, Slack.chunk_loop fuel start_date now interval intervals = Some l.
Proof.
  unfold Slack.day.
  induction fuel as [|fuel IH]; intros start_date intervals Hfuel; cbn [Slack.chunk_loop].
  - destruct (Z.leb_spec start_date now) as [Hle|Hgt]; [|eauto].
    exfalso. cbn in Hfuel. Z.div_mod_to_equations. nia.
  - destruct (Z.leb_spec start_date now) as [Hle|Hgt]; [|eauto].
    apply IH. unfold Slack.day. rewrite Nat2Z.inj_succ in Hfuel.
    Z.div_mod_to_equations. nia.
Qed.

Lemma chunk_date_range_terminates start_date now interval :
  Slack.chunk_loop (Slack.chunk_fuel start_date now) start_date now interval []
  = Some (Slack.chunk_date_range start_date now interval).
Proof.
  unfold Slack.chunk_date_range.
  destruct (chunk_loop_terminates now interval (Slack.chunk_fuel start_date now)
              start_date []) as [l Hl]; [|now rewrite Hl].
  unfold Slack.chunk_fuel.
  destruct (Z.le_gt_cases 0 ((now - start_date) / Slack.day + 1)); lia.
Qed.

(** The slices of [ChannelMessages] do not depend on the cursor value "ts"
    that [get_updated_state] records in the stream state. *)
Lemma stream_slices_ignores_ts default_start_date now (b : blob) ts :
  Slack.stream_slices default_start_date now (Some (<["ts" := ts]> b))
  = Slack.stream_slices default_start_date now (Some b).
Proof.
  unfold Slack.stream_slices.
  change (default ∅ (Some (<["ts" := ts]> b))) with (<["ts" := ts]> b).
  change (default ∅ (Some b)) with b.
  now rewrite lookup_insert_ne by discriminate.
Qed.

(** ** A stream of five records, checkpointed every second record *)

(** The messages of a first read: a STATE after ts = 2, one after ts = 4, and
    the one at the end of the slice after ts = 5. *)
Example five_records_read :
  messages (trace (read 0 five_source [messages_incremental] None (Heap ∅ ∅))) =
  [ RECORD "messages" {[ "ts" := 1 ]} 0; RECORD "messages" {[ "ts" := 2 ]} 0;
    STATE {[ "messages" := {[ "ts" := 2 ]} ]};
    RECORD "messages" {[ "ts" := 3 ]} 0; RECORD "messages" {[ "ts" := 4 ]} 0;
    STATE {[ "messages" := {[ "ts" := 4 ]} ]};
    RECORD "messages" {[ "ts" := 5 ]} 0;
    STATE {[ "messages" := {[ "ts" := 5 ]} ]} ].
Proof. vm_compute. reflexivity. Qed.

Lemma separate_empty h : separate ∅ h.
Proof. split; intros *; now rewrite lookup_empty. Qed.

Lemma separate_seeded stream b :
  separate (seed_entries (Slack.seeded stream b) (Some 1%positive))
    (Slack.seeded stream b).
Proof.
  assert (He : seed_entries (Slack.seeded stream b) (Some 1%positive)
               = {[ stream := 1%positive ]})
    by (unfold seed_entries, entries; cbn; now rewrite lookup_singleton_eq).
  rewrite He. split.
  - intros n1 n2 l [-> _]%lookup_singleton_Some [-> _]%lookup_singleton_Some.
    reflexivity.
  - intros n l [_ <-]%lookup_singleton_Some. cbn. rewrite dom_singleton_L.
    now apply elem_of_singleton.
Qed.

(** The same messages from the source whose state update tracks the maximum
    without a conversion. *)
Example exact_records_read :
  messages (trace (read 0 exact_source [messages_incremental] None (Heap ∅ ∅))) =
  [ RECORD "messages" {[ "ts" := 1 ]} 0; RECORD "messages" {[ "ts" := 2 ]} 0;
    STATE {[ "messages" := {[ "ts" := 2 ]} ]};
    RECORD "messages" {[ "ts" := 3 ]} 0; RECORD "messages" {[ "ts" := 4 ]} 0;
    STATE {[ "messages" := {[ "ts" := 4 ]} ]};
    RECORD "messages" {[ "ts" := 5 ]} 0;
    STATE {[ "messages" := {[ "ts" := 5 ]} ]} ].
Proof. vm_compute. reflexivity. Qed.

Lemma exact_source_incremental :
  incremental_read (fun _ => "ts") exact_source [messages_incremental].
Proof.
  constructor; [|constructor]. intros inst Hl.
  unfold stream_instances in Hl. cbn in Hl. rewrite lookup_insert_eq in Hl.
  injection Hl as <-. split; [reflexivity|].
  now apply track_max_folds_max.
Qed.

Lemma records_not_after_state_witness :
  exists b w,
    ({[ "messages" := {[ "ts" := 2 ]} ]} : snapshot) !! "messages" = Some b
    /\ b !! "ts" = Some w /\ 2 <= w.
Proof.
  apply (records_not_after_state (fun _ => "ts") 0 exact_source
           [messages_incremental] None (Heap ∅ ∅)
           (separate_empty _) exact_source_incremental
           [ RECORD "messages" {[ "ts" := 1 ]} 0; RECORD "messages" {[ "ts" := 2 ]} 0 ]
           {[ "messages" := {[ "ts" := 2 ]} ]}
           [ RECORD "messages" {[ "ts" := 3 ]} 0; RECORD "messages" {[ "ts" := 4 ]} 0;
             STATE {[ "messages" := {[ "ts" := 4 ]} ]};
             RECORD "messages" {[ "ts" := 5 ]} 0;
             STATE {[ "messages" := {[ "ts" := 5 ]} ]} ]
           exact_records_read
           "messages" {[ "ts" := 2 ]} 0 2).
  - apply list_elem_of_further, list_elem_of_here.
  - apply lookup_singleton_eq.
Defined.

(** A seed state with an entry for a stream that is not read: every STATE
    message still carries it. *)
Example seeded_entries_are_carried :
  states (trace (read 0 five_source [messages_incremental] (Some 1%positive)
                   (Slack.seeded "users" {[ "ts" := 7 ]}))) =
  [ {[ "users" := {[ "ts" := 7 ]}; "messages" := {[ "ts" := 2 ]} ]};
    {[ "users" := {[ "ts" := 7 ]}; "messages" := {[ "ts" := 4 ]} ]};
    {[ "users" := {[ "ts" := 7 ]}; "messages" := {[ "ts" := 5 ]} ]} ].
Proof. vm_compute. reflexivity. Qed.

Lemma state_messages_hold_current_entries_witness :
  exists c,
    outcome (deepcopy (Some 1%positive) (Slack.seeded "users" {[ "ts" := 7 ]})) = Ok c
    /\ let ps := passes 0 five_source c [messages_incremental]
                   (store (deepcopy (Some 1%positive)
                             (Slack.seeded "users" {[ "ts" := 7 ]}))) in
       messages (trace (read 0 five_source [messages_incremental] (Some 1%positive)
                          (Slack.seeded "users" {[ "ts" := 7 ]})))
       = concat ps
       /\ run_entries five_source [messages_incremental]
            (seed_view (Slack.seeded "users" {[ "ts" := 7 ]}) (Some 1%positive)) ps.
Proof.
  apply (state_messages_hold_current_entries 0 five_source [messages_incremental]
           (Some 1%positive) (Slack.seeded "users" {[ "ts" := 7 ]})).
  apply separate_seeded.
Defined.

(** A STATE message with a stale entry for the stream being read is not what
    [current_entries] describes: after the record ts = 1 the entry of the
    stream tracks 1, not nothing. *)
Example stale_entry_is_not_current :
  ~ current_entries five_records "messages" ∅ ∅
      [ RECORD "messages" {[ "ts" := 1 ]} 0; STATE {[ "messages" := ∅ ]} ].
Proof.
  intros H. vm_compute in H. destruct H as [H _]. discriminate H.
Qed.


(** A cursor value that a double does not hold is tracked as [float] rounds
    it: 2^53 for the record ts = 2^53 + 1; and a cursor value beyond the range
    of the doubles ends the loop with the OverflowError. *)
Example large_cursor_is_rounded :
  tracked_after
    (_read_incremental_records 0 five_records "messages" 1%positive
       (of_list [ {[ "ts" := 2 ^ 53 + 1 ]} ]) 0 1%positive tracking_ten)
  = Some (2 ^ 53).
Proof. vm_compute. reflexivity. Qed.

Example huge_cursor_overflows :
  outcome
    (_read_incremental_records 0 five_records "messages" 1%positive
       (of_list [ {[ "ts" := 2 ^ 1024 ]} ]) 0 1%positive tracking_ten)
  = Err (OverflowError "int too large to convert to float").
Proof. vm_compute. reflexivity. Qed.


(** ** The Slack source on a small workspace *)

Lemma sync_aborts_on_exception_witness :
  outcome (read 0 failing_source
             ([] ++ channel_messages_incremental :: [messages_incremental])
             None Slack.empty_heap)
  = Err (StreamError "HTTP 500").
Proof.
  refine (proj1 (sync_aborts_on_exception 0 failing_source []
                   channel_messages_incremental [messages_incremental] None
                   Slack.empty_heap 1%positive (StreamError "HTTP 500") _ _ _)).
  - vm_compute. reflexivity.
  - reflexivity.
  - vm_compute. reflexivity.
Defined.

(** The claim of C9 as it is stated fails on this input: the stream
    "channel_messages" raises after one record, and the only exception log
    line names the source and carries no record count. *)
Lemma failure_log_lacks_stream_and_count :
  let r := read 0 failing_source [channel_messages_incremental] None
             Slack.empty_heap in
  outcome r = Err (StreamError "HTTP 500")
  /\ count_records (trace r) = 1%nat
  /\ exception_logs (trace r) =
     [EXCEPTION "Encountered an exception while reading stream {}"
        [AStr "SourceSlack"]]
  /\ reports_failure "channel_messages" 1 (trace r) = false.
Proof. vm_compute. repeat split. Qed.

(** C2 (the code on a failing input): a first read ends with the state
    ts = 16 days + 200 s for "channel_messages"; a second read seeded with that
    state emits the record of ts = 15 days + 100 s again, which is older than
    the seeded cursor value. *)
Theorem resumed_read_repeats_older_record :
  let first := read 0 slack_source Slack.catalog None Slack.empty_heap in
  let latest : snapshot :=
    {[ "channel_messages" := {[ "ts" := 16 * Slack.day + 200 ]} ]} in
  let resumed := Slack.seeded "channel_messages" {[ "ts" := 16 * Slack.day + 200 ]} in
  let second := read 0 slack_source Slack.catalog (Some 1%positive) resumed in
  last (states (trace first)) = Some latest
  /\ seed_view resumed (Some 1%positive) = latest
  /\ messages (trace second) !! 1%nat
     = Some (RECORD "channel_messages" {[ "ts" := 15 * Slack.day + 100 ]} 0)
  /\ 15 * Slack.day + 100 < 16 * Slack.day + 200.
Proof. vm_compute. repeat split. Qed.

(** C4 (the code on failing inputs): seeded with a cursor value "ts" in the
    far future, the read still emits both records of the workspace; seeded with
    a future start date "start_ts", the date range has no chunk and the read
    emits no message at all, so no STATE message either. *)
Theorem future_state_is_not_honoured :
  let future := 1000 * Slack.day in
  let by_cursor :=
    read 0 slack_source Slack.catalog (Some 1%positive)
      (Slack.seeded "channel_messages" {[ "ts" := future ]}) in
  let by_start :=
    read 0 slack_source Slack.catalog (Some 1%positive)
      (Slack.seeded "channel_messages" {[ "start_ts" := future ]}) in
  Forall (fun r : record_data => exists ts, r !! "ts" = Some ts /\ ts < future)
    Slack.two_messages
  /\ count_records (trace by_cursor) = 2%nat
  /\ outcome by_start = Ok tt
  /\ messages (trace by_start) = [].
Proof.
  cbv zeta. split; [|vm_compute; repeat split].
  repeat constructor; eexists; (split; [apply lookup_singleton_eq | reflexivity]).
Qed.

(** * More of [AbstractSource] *)

(** ** The streams by name *)

Lemma foldl_insert_last (n : string) (l : list Stream) : forall m0 : gmap string Stream,
  foldl (fun m s => <[name s := s]> m) m0 l !! n =
  match last (filter (fun s => name s = n) l) with
  | Some s => Some s
  | None => m0 !! n
  end.
Proof.
  induction l as [|a l IH]; intros m0; [reflexivity|].
  cbn [foldl]. rewrite IH, filter_cons.
  destruct (decide (name a = n)) as [Ha|Ha].
  - rewrite last_cons. destruct (last (filter _ l)); [reflexivity|].
    rewrite <- Ha. apply lookup_insert_eq.
  - destruct (last (filter _ l)); [reflexivity|].
    now apply lookup_insert_ne.
Qed.

(** X1: the dictionary of the streams by name that [read] builds gives, for
    a name, the last stream of the source's list that bears it, and nothing
    when no stream does. *)
Theorem stream_instances_last_wins src n :
  stream_instances src !! n = last (filter (fun s => name s = n) (streams src)).
Proof.
  unfold stream_instances. rewrite foldl_insert_last, lookup_empty.
  now destruct (last _).
Qed.

(** ** A configured stream that the source lacks *)

Lemma read_failing now src pre configured_stream post state h c e :
  outcome (deepcopy state h) = Ok c ->
  outcome (read_catalog now src c pre (store (deepcopy state h))) = Ok tt ->
  outcome (read_configured now src c configured_stream
             (store (read_catalog now src c pre (store (deepcopy state h)))))
  = Err e ->
  read now src (pre ++ configured_stream :: post) state h =
  Run (Log (INFO "Starting syncing {}" [AStr (source_name src)])
       :: trace (read_catalog now src c pre (store (deepcopy state h)))
       ++ trace (read_configured now src c configured_stream
                   (store (read_catalog now src c pre (store (deepcopy state h)))))
       ++ [failure_log src])
      (store (read_configured now src c configured_stream
                (store (read_catalog now src c pre (store (deepcopy state h))))))
      (Err e).
Proof.
  intros Hd Hbefore Hfailing. unfold read.
  destruct (deepcopy_Ok state h) as (c' & Hc & Htr).
  rewrite (bind_Ok _ _ h c Hd), Htr. cbn [trace store outcome app].
  rewrite (bind_Ok (log _) _ _ tt eq_refl). cbn [trace store outcome log app].
  set (h1 := store (deepcopy state h)) in *.
  set (before := read_catalog now src c pre h1) in *.
  set (failing := read_configured now src c configured_stream (store before)) in *.
  assert (Hcat : read_catalog now src c (pre ++ configured_stream :: post) h1
                 = Run (trace before ++ trace failing ++ [failure_log src])
                       (store failing) (Err e)).
  { rewrite read_catalog_app. fold before.
    rewrite (bind_Ok _ _ _ tt Hbefore). cbn [trace store outcome read_catalog].
    destruct (@try_except_on_exception now src c configured_stream (store before))
      as (Ht & Hs & Ho).
    fold failing in Ht, Hs, Ho. rewrite Hfailing in Ht, Ho.
    rewrite (bind_Err _ _ _ e Ho). now rewrite Ht, Hs. }
  rewrite (bind_Err _ _ _ e); rewrite Hcat; reflexivity.
Qed.

(** X2: a configured stream that the source does not have is found out only
    when the loop reaches it: the streams configured before it are read, then
    [read] raises the KeyError of the name, with the messages of the earlier
    streams and the store they left. *)
Theorem unknown_stream_raises_when_reached now src pre configured_stream post
    state h c :
  outcome (deepcopy state h) = Ok c ->
  stream_instances src !! stream_name configured_stream = None ->
  let before := read_catalog now src c pre (store (deepcopy state h)) in
  outcome before = Ok tt ->
  let r := read now src (pre ++ configured_stream :: post) state h in
  outcome r = Err (KeyError (stream_name configured_stream))
  /\ messages (trace r) = messages (trace before)
  /\ store r = store before.
Proof.
  intros Hd Hnone before Hbefore r.
  assert (Hfail : read_configured now src c configured_stream (store before)
                  = Run [] (store before)
                      (Err (KeyError (stream_name configured_stream))))
    by (unfold read_configured; now rewrite Hnone).
  subst r. rewrite (read_failing now src pre configured_stream post state h c
                      (KeyError (stream_name configured_stream)) Hd Hbefore);
    [|fold before; now rewrite Hfail].
  fold before. rewrite Hfail. cbn [trace store outcome app messages].
  split; [reflexivity|]. split; [|reflexivity].
  rewrite messages_app. cbn. apply app_nil_r.
Qed.

Lemma unknown_stream_raises_when_reached_witness :
  let r := read 0 five_source ([messages_incremental] ++ users_incremental :: [])
             None (Heap ∅ ∅) in
  outcome r = Err (KeyError "users")
  /\ messages (trace r)
     = messages (trace (read_catalog 0 five_source 1%positive [messages_incremental]
                          (store (deepcopy None (Heap ∅ ∅)))))
  /\ store r = store (read_catalog 0 five_source 1%positive [messages_incremental]
                        (store (deepcopy None (Heap ∅ ∅)))).
Proof.
  apply (unknown_stream_raises_when_reached 0 five_source [messages_incremental]
           users_incremental [] None (Heap ∅ ∅) 1%positive).
  - vm_compute. reflexivity.
  - vm_compute. reflexivity.
  - vm_compute. reflexivity.
Defined.

(** ** The incremental path at its edges *)

Lemma content_alloc_empty h l :
  content (Heap (<[fresh (dom (blobs h)) := ∅]> (blobs h)) (tops h)) l = content h l.
Proof.
  unfold content. cbn. destruct (decide (l = fresh (dom (blobs h)))) as [->|N].
  - rewrite lookup_insert_eq.
    rewrite (proj1 (not_elem_of_dom (blobs h) _) (is_fresh _)). reflexivity.
  - now rewrite lookup_insert_ne by congruence.
Qed.

(** The content of the stream state that [_read_incremental] starts from. *)
Lemma start_content h c n :
  content (match entries h c !! n with
           | Some _ => h
           | None =>
               Heap (<[default (fresh (dom (blobs h))) (entries h c !! n) := ∅]>
                       (blobs h)) (tops h)
           end)
          (default (fresh (dom (blobs h))) (entries h c !! n))
  = default ∅ (view h c !! n).
Proof.
  rewrite view_lookup. destruct (entries h c !! n) as [s|]; cbn; [reflexivity|].
  unfold content. cbn. now rewrite lookup_insert_eq.
Qed.

(** X3: when the stream yields no slice for the state it is given,
    [_read_incremental] ends normally without any message, and the connector
    state reads as before: no entry is made for the stream, and no STATE
    message tells the state that was seeded. *)
Theorem no_slice_no_state now stream_instance configured_stream c h :
  stream_slices stream_instance incremental
    (Some (cursor_field configured_stream))
    (Some (default ∅ (view h c !! stream_name configured_stream))) = Done ->
  let r := _read_incremental now stream_instance configured_stream c h in
  outcome r = Ok tt
  /\ messages (trace r) = []
  /\ view (store r) c = view h c.
Proof.
  intros Hdone. cbv zeta. rewrite _read_incremental_unfold. cbv zeta.
  rewrite start_content, Hdone. cbn [_read_incremental_slices ret trace store outcome].
  rewrite app_nil_r. split; [reflexivity|]. split.
  - now destruct (bool_decide _).
  - destruct (entries h c !! stream_name configured_stream); [reflexivity|].
    cbn [default]. unfold view. cbn. apply map_fmap_ext. intros k l _.
    apply content_alloc_empty.
Qed.

Lemma no_slice_no_state_witness :
  let h := Slack.seeded "channel_messages" {[ "start_ts" := 1000 * Slack.day ]} in
  let r := _read_incremental 0
             (Slack.ChannelMessages None (14 * Slack.day) sync_time Slack.workspace)
             channel_messages_incremental 1%positive h in
  outcome r = Ok tt
  /\ messages (trace r) = []
  /\ view (store r) 1%positive = view h 1%positive.
Proof.
  apply (no_slice_no_state 0
           (Slack.ChannelMessages None (14 * Slack.day) sync_time Slack.workspace)
           channel_messages_incremental 1%positive
           (Slack.seeded "channel_messages" {[ "start_ts" := 1000 * Slack.day ]})).
  vm_compute. reflexivity.
Defined.

Lemma slices_end_with_flush now stream_instance configured_stream c slices :
  forall s h,
  slices <> Done ->
  let r := _read_incremental_slices now stream_instance configured_stream c
             slices s h in
  outcome r = Ok tt ->
  last (messages (trace r)) = Some (STATE (view (store r) c))
  /\ exists s', entries (store r) c !! stream_name configured_stream = Some s'
                /\ view (store r) c !! stream_name configured_stream
                   = Some (content (store r) s').
Proof.
  induction slices as [|sl rest IH|e]; intros s h Hne; [congruence| |discriminate].
  cbv zeta. rewrite _read_incremental_slices_Yield. cbv zeta.
  set (k1 := _read_incremental_records _ _ _ _ _ _ _ _).
  destruct (outcome k1) as [s1|e]; [|discriminate].
  cbn [trace store outcome].
  set (h2 := checkpointed (stream_name configured_stream) s1 c (store k1)).
  destruct rest as [|sl' rest'|e].
  - intros _. cbn [_read_incremental_slices ret trace store outcome].
    rewrite app_nil_r, messages_app. cbn [checkpoint_events messages].
    fold h2. rewrite last_snoc. split; [reflexivity|].
    destruct (checkpointed_view (stream_name configured_stream) s1 c (store k1))
      as (_ & _ & He).
    fold h2 in He. exists s1. rewrite view_lookup, He, lookup_insert_eq. now split.
  - intros Hok. destruct (IH s1 h2 ltac:(discriminate) Hok) as [Hlast Hentry].
    split; [|exact Hentry].
    rewrite !messages_app, !last_app, Hlast. reflexivity.
  - discriminate.
Qed.

(** X4: when the stream yields at least one slice and the incremental read of
    it ends normally, the last message is a STATE message that carries the
    connector state as the run leaves it, and that state has an entry for the
    stream: the state at the end of the last slice is always flushed. *)
Theorem incremental_read_ends_with_flush now stream_instance configured_stream c h
    sl rest :
  stream_slices stream_instance incremental
    (Some (cursor_field configured_stream))
    (Some (default ∅ (view h c !! stream_name configured_stream)))
  = Yield sl rest ->
  let r := _read_incremental now stream_instance configured_stream c h in
  outcome r = Ok tt ->
  last (messages (trace r)) = Some (STATE (view (store r) c))
  /\ exists s', entries (store r) c !! stream_name configured_stream = Some s'
                /\ view (store r) c !! stream_name configured_stream
                   = Some (content (store r) s').
Proof.
  intros Hsl. cbv zeta. rewrite _read_incremental_unfold. cbv zeta.
  rewrite start_content, Hsl. cbn [trace store outcome]. intros Hok.
  match goal with |- context [_read_incremental_slices ?a ?b ?c' ?d ?e ?f ?g] =>
    destruct (slices_end_with_flush a b c' d e f g ltac:(discriminate) Hok)
      as [Hlast Hentry] end.
  split; [|exact Hentry].
  rewrite messages_app, last_app, Hlast. reflexivity.
Qed.

Lemma incremental_read_ends_with_flush_witness :
  let r := _read_incremental 0 five_records messages_incremental 1%positive
             (Heap ∅ {[ 1%positive := ∅ ]}) in
  last (messages (trace r)) = Some (STATE (view (store r) 1%positive))
  /\ exists s', entries (store r) 1%positive !! "messages" = Some s'
                /\ view (store r) 1%positive !! "messages"
                   = Some (content (store r) s').
Proof.
  apply (incremental_read_ends_with_flush 0 five_records messages_incremental
           1%positive (Heap ∅ {[ 1%positive := ∅ ]}) None Done).
  - reflexivity.
  - vm_compute. reflexivity.
Defined.

(** A checkpoint is due at a record counter exactly when the checkpoint
    interval is present, is not zero, and divides the counter. *)
Lemma checkpoint_due_iff checkpoint_interval record_counter :
  checkpoint_due checkpoint_interval record_counter = true <->
  exists k, checkpoint_interval = Some k /\ k <> 0 /\ (k | Z.of_nat record_counter).
Proof.
  unfold checkpoint_due. destruct checkpoint_interval as [k|].
  - rewrite andb_true_iff, negb_true_iff, Z.eqb_neq, Z.eqb_eq. split.
    + intros [Hk Hmod]. exists k. split; [reflexivity|]. split; [exact Hk|].
      now apply Z.mod_divide.
    + intros (k' & [= <-] & Hk & Hdiv). split; [exact Hk|].
      now apply Z.mod_divide.
  - split; [discriminate | intros (k & [=] & _)].
Qed.

(** ** A record without the cursor field *)

Lemma of_list_app {A} (l1 l2 : list A) :
  of_list (l1 ++ l2) = gen_app (of_list l1) (of_list l2).
Proof. induction l1 as [|a l1 IH]; cbn; [reflexivity | now rewrite IH]. Qed.

(** X5: with the state updates of the Slack message streams, the first record
    without "ts", or with a "ts" beyond the range of [float], is emitted like
    any other, and then the loop raises the KeyError of "ts", or the
    OverflowError of the conversion: the record is the last message, the
    records after it are not read, and all the records up to it have been
    emitted. *)
Theorem record_without_cursor_is_emitted_then_raises now stream_instance stream_name
    c rs1 (x : record_data) e rs2 :
  get_updated_state stream_instance = Slack.get_updated_state ->
  Forall convertible rs1 ->
  refused x e ->
  forall record_counter s h,
    let r := _read_incremental_records now stream_instance stream_name c
               (of_list (rs1 ++ x :: rs2)) record_counter s h in
    outcome r = Err e
    /\ last (messages (trace r)) = Some (RECORD stream_name x now)
    /\ count_records (trace r) = S (length rs1).
Proof.
  intros Hg Hts Hx. induction Hts as [|y rs1 (ts & v & Hy & Hv) Hts IH];
    intros record_counter s h; cbv zeta; cbn [app of_list];
    rewrite _read_incremental_records_Yield; cbv zeta.
  - destruct (call_get_updated_state_run stream_instance s x h) as [_ Hrun].
    rewrite Hg in Hrun. unfold Slack.get_updated_state in Hrun.
    destruct Hx as [[Hx ->]|(ts & Hx & He)]; rewrite Hx in Hrun;
      [|rewrite He in Hrun]; destruct Hrun as [Ho _]; rewrite Ho; cbn;
      repeat split.
  - destruct (Slack_get_updated_state_ts (content h s) y ts v Hy Hv) as (u & Hu & _).
    rewrite <- Hg in Hu.
    destruct (call_get_updated_state_content stream_instance s y h u Hu)
      as (s1 & Ho & _).
    rewrite Ho.
    destruct (checkpoint_due _ _);
      match goal with |- context [_read_incremental_records _ _ _ _ _ ?n ?s' ?h'] =>
        destruct (IH n s' h') as (I1 & I2 & I3) end;
      cbn [trace store outcome checkpoint_events app messages count_records
           is_record length];
      (split; [exact I1|]); split.
    + rewrite !last_cons, I2. reflexivity.
    + rewrite I3. reflexivity.
    + rewrite last_cons, I2. reflexivity.
    + rewrite I3. reflexivity.
Qed.

Lemma record_without_cursor_is_emitted_then_raises_witness :
  let r := _read_incremental_records 0 five_records "messages" 1%positive
             (of_list (two_records ++ no_ts :: two_records)) 0 1%positive
             tracking_ten in
  outcome r = Err (KeyError "ts")
  /\ last (messages (trace r)) = Some (RECORD "messages" no_ts 0)
  /\ count_records (trace r) = S (length two_records).
Proof.
  apply (record_without_cursor_is_emitted_then_raises 0 five_records "messages"
           1%positive two_records no_ts (KeyError "ts") two_records eq_refl).
  - unfold two_records.
    apply Forall_cons; split; [apply small_convertible; vm_compute; discriminate|].
    apply Forall_cons; split; [apply small_convertible; vm_compute; discriminate|].
    apply Forall_nil_2.
  - left. split; reflexivity.
Defined.

(** ** The full-refresh path, record by record *)

Lemma _read_full_refresh_records_of_list now n (records : list record_data) h :
  _read_full_refresh_records now n (of_list records) h =
  Run ((fun data => Emit (RECORD n data now)) <$> records) h (Ok tt).
Proof.
  induction records as [|record rest IH]; [reflexivity|].
  cbn [of_list _read_full_refresh_records]. unfold bind. cbn. now rewrite IH.
Qed.

Lemma _read_full_refresh_slices_of_list now stream_instance configured_stream
    (slices : list slice) (records_of : slice -> list record_data) h :
  (forall sl, sl ∈ slices ->
     read_records stream_instance full_refresh
       (Some (cursor_field configured_stream)) sl None = of_list (records_of sl)) ->
  _read_full_refresh_slices now stream_instance configured_stream (of_list slices) h =
  Run ((fun data => Emit (RECORD (stream_name configured_stream) data now))
         <$> (slices ≫= records_of)) h (Ok tt).
Proof.
  induction slices as [|sl rest IH]; intros H; [reflexivity|].
  cbn [of_list _read_full_refresh_slices].
  rewrite (H sl) by apply list_elem_of_here.
  unfold bind. rewrite _read_full_refresh_records_of_list. cbn [outcome store trace].
  rewrite IH by (intros sl' Hsl'; apply H; now apply list_elem_of_further).
  cbn [outcome store trace]. now rewrite bind_cons, fmap_app.
Qed.

Lemma messages_records n now (records : list record_data) :
  messages ((fun data => Emit (RECORD n data now)) <$> records)
  = (fun data => RECORD n data now) <$> records
  /\ count_records ((fun data => Emit (RECORD n data now)) <$> records)
     = length records.
Proof.
  induction records as [|record rest [IH1 IH2]]; [split; reflexivity|].
  cbn. now rewrite IH1, IH2.
Qed.

(** X6: a full-refresh read of a stream whose slices and records end
    normally emits one RECORD message for every record of every slice, in the
    order of the slices and of their records, under the configured stream's
    name; it ends normally, and its last log line tells the number of these
    records. *)
Theorem full_refresh_emits_every_record now stream_instance configured_stream
    connector_state h (slices : list slice) (records_of : slice -> list record_data) :
  use_incremental configured_stream stream_instance = false ->
  stream_slices stream_instance full_refresh
    (Some (cursor_field configured_stream)) None = of_list slices ->
  (forall sl, sl ∈ slices ->
     read_records stream_instance full_refresh
       (Some (cursor_field configured_stream)) sl None = of_list (records_of sl)) ->
  let r := _read_stream now stream_instance configured_stream connector_state h in
  let records := slices ≫= records_of in
  outcome r = Ok tt
  /\ messages (trace r)
     = (fun data => RECORD (stream_name configured_stream) data now) <$> records
  /\ last (trace r)
     = Some (Log (INFO "Read {} records from {} stream"
                    [ANat (length records); AStr (stream_name configured_stream)])).
Proof.
  intros Hfull Hslices Hrecords. cbv zeta.
  destruct (_read_stream_unfold now stream_instance configured_stream
              connector_state h) as (Ht & _ & Ho).
  rewrite Hfull in Ht, Ho. unfold _read_full_refresh in Ht, Ho.
  rewrite Hslices in Ht, Ho.
  rewrite (_read_full_refresh_slices_of_list now stream_instance configured_stream
             slices records_of h Hrecords) in Ht, Ho.
  cbn [trace outcome] in Ht, Ho.
  destruct (messages_records (stream_name configured_stream) now
              (slices ≫= records_of)) as [Hm Hc].
  rewrite Hc in Ht.
  split; [exact Ho|]. rewrite Ht. split.
  - cbn [messages]. rewrite messages_app, Hm. cbn [messages]. apply app_nil_r.
  - rewrite last_cons, last_snoc. reflexivity.
Qed.

Lemma full_refresh_emits_every_record_witness :
  let r := _read_stream 5 full_refresh_stream users_incremental 1%positive
             (Heap ∅ ∅) in
  outcome r = Ok tt
  /\ messages (trace r)
     = [ RECORD "users" {[ "id" := 1 ]} 5; RECORD "users" {[ "id" := 2 ]} 5 ]
  /\ last (trace r)
     = Some (Log (INFO "Read {} records from {} stream" [ANat 2; AStr "users"])).
Proof.
  exact (full_refresh_emits_every_record 5 full_refresh_stream users_incremental
           1%positive (Heap ∅ ∅) [None]
           (fun _ => [ {[ "id" := 1 ]}; {[ "id" := 2 ]} ])
           eq_refl eq_refl (fun _ _ => eq_refl)).
Defined.

(** ** The incremental path, record by record *)

Lemma record_messages_app tr1 tr2 :
  record_messages (tr1 ++ tr2) = record_messages tr1 ++ record_messages tr2.
Proof. apply omap_app. Qed.

Lemma records_emitted now stream_instance stream_name connector_state rs :
  forall record_counter stream_state h,
  Forall (accepted stream_instance) rs ->
  let r := _read_incremental_records now stream_instance stream_name
             connector_state (of_list rs) record_counter stream_state h in
  (exists s', outcome r = Ok s')
  /\ record_messages (trace r) = (fun d => RECORD stream_name d now) <$> rs.
Proof.
  induction rs as [|record_data rs IH]; intros record_counter stream_state h Hacc.
  - cbn. split; [eauto|reflexivity].
  - apply Forall_cons in Hacc as [Ha Hacc].
    cbv zeta. cbn [of_list]. rewrite _read_incremental_records_Yield. cbv zeta.
    destruct (call_get_updated_state_run stream_instance stream_state record_data h)
      as [_ Hrun].
    destruct (Ha (content h stream_state)) as [u Hu]. rewrite Hu in Hrun.
    assert (Hs1 : exists s1, outcome (call_get_updated_state stream_instance
                                        stream_state record_data h) = Ok s1)
      by (destruct u; destruct Hrun; eauto).
    destruct Hs1 as [s1 Hs1]. rewrite Hs1.
    destruct (checkpoint_due (state_checkpoint_interval stream_instance)
                (S record_counter));
      match goal with
      | |- context [_read_incremental_records ?a ?b ?c ?d ?e ?f ?g ?h'] =>
          destruct (IH (S record_counter) s1 h' Hacc) as (Hok & Hrec)
      end;
      cbn [trace store outcome checkpoint_events app];
      (split; [exact Hok|]);
      cbn [record_messages omap list_omap fmap list_fmap];
      f_equal; exact Hrec.
Qed.

(** X7: over slices whose records are all accepted by [get_updated_state],
    the incremental loop ends normally and its RECORD messages are the
    records of the slices, every one exactly once, in the order of the slices
    and of their records, under the configured stream's name: the STATE
    messages in between neither drop nor repeat a record. *)
Theorem incremental_slices_emit_every_record now stream_instance configured_stream
    connector_state (slices : list slice) (records_of : slice -> list record_data) :
  (forall sl, sl ∈ slices -> forall b,
     read_records stream_instance incremental
       (or_None (cursor_field configured_stream)) sl (Some b)
     = of_list (records_of sl)) ->
  (forall sl, sl ∈ slices -> Forall (accepted stream_instance) (records_of sl)) ->
  forall stream_state h,
    let r := _read_incremental_slices now stream_instance configured_stream
               connector_state (of_list slices) stream_state h in
    outcome r = Ok tt
    /\ record_messages (trace r)
       = (fun d => RECORD (stream_name configured_stream) d now)
           <$> (slices ≫= records_of).
Proof.
  induction slices as [|sl slices IH]; intros Hrecords Hacc stream_state h.
  - cbn. split; reflexivity.
  - cbv zeta. cbn [of_list]. rewrite _read_incremental_slices_Yield. cbv zeta.
    rewrite (Hrecords sl) by apply list_elem_of_here.
    destruct (records_emitted now stream_instance (stream_name configured_stream)
                connector_state (records_of sl) 0 stream_state h
                (Hacc sl (list_elem_of_here _ _))) as ([s1 Hs1] & Hrec).
    rewrite Hs1.
    match goal with
    | |- context [_read_incremental_slices ?a ?b ?c ?d ?e ?f ?h'] =>
        destruct (IH (fun sl' Hsl' => Hrecords sl' (list_elem_of_further _ _ _ Hsl'))
                     (fun sl' Hsl' => Hacc sl' (list_elem_of_further _ _ _ Hsl'))
                     f h') as (Hok & Hrest)
    end.
    cbn [trace store outcome]. split; [exact Hok|].
    rewrite !record_messages_app, Hrec, Hrest, bind_cons, fmap_app.
    reflexivity.
Qed.

Lemma incremental_slices_emit_every_record_witness :
  let r := _read_incremental_slices 0 five_records messages_incremental 1%positive
             (of_list [None]) 1%positive (Heap {[ 1%positive := ∅ ]} ∅) in
  outcome r = Ok tt
  /\ record_messages (trace r)
     = (fun ts => RECORD "messages" {[ "ts" := ts ]} 0) <$> [1; 2; 3; 4; 5].
Proof.
  refine (incremental_slices_emit_every_record 0 five_records messages_incremental
            1%positive [None]
            (fun _ => (fun ts => ({[ "ts" := ts ]} : record_data)) <$> [1; 2; 3; 4; 5])
            _ _ 1%positive (Heap {[ 1%positive := ∅ ]} ∅)).
  - intros sl _ b. reflexivity.
  - intros sl _. exact (five_accepted five_records eq_refl).
Defined.

(** ** A checkpoint interval of zero *)

Lemma records_without_checkpoint now stream_instance stream_name connector_state rs :
  (forall k, state_checkpoint_interval stream_instance = Some k -> k = 0) ->
  forall record_counter stream_state h,
  Forall (accepted stream_instance) rs ->
  let r := _read_incremental_records now stream_instance stream_name
             connector_state (of_list rs) record_counter stream_state h in
  (exists s', outcome r = Ok s')
  /\ messages (trace r) = (fun d => RECORD stream_name d now) <$> rs.
Proof.
  intros Hzero.
  induction rs as [|record_data rs IH]; intros record_counter stream_state h Hacc.
  - cbn. split; [eauto|reflexivity].
  - apply Forall_cons in Hacc as [Ha Hacc].
    cbv zeta. cbn [of_list]. rewrite _read_incremental_records_Yield. cbv zeta.
    destruct (call_get_updated_state_run stream_instance stream_state record_data h)
      as [_ Hrun].
    destruct (Ha (content h stream_state)) as [u Hu]. rewrite Hu in Hrun.
    assert (Hs1 : exists s1, outcome (call_get_updated_state stream_instance
                                        stream_state record_data h) = Ok s1)
      by (destruct u; destruct Hrun; eauto).
    destruct Hs1 as [s1 Hs1]. rewrite Hs1.
    destruct (checkpoint_due (state_checkpoint_interval stream_instance)
                (S record_counter)) eqn:Hdue.
    + apply checkpoint_due_iff in Hdue as (k & Hk & Hne & _).
      now destruct (Hne (Hzero k Hk)).
    + match goal with
      | |- context [_read_incremental_records ?a ?b ?c ?d ?e ?f ?g ?h'] =>
          destruct (IH (S record_counter) s1 h' Hacc) as (Hok & Hrec)
      end.
      cbn [trace store outcome messages fmap list_fmap].
      split; [exact Hok|]. f_equal. exact Hrec.
Qed.

(** X8: a checkpoint interval of zero is never divided by and behaves as no
    interval at all.  Over slices whose records are all accepted by
    [get_updated_state], the incremental loop ends normally and its messages
    are, slice after slice, the records of the slice and then one STATE
    message: no STATE message stands between the records of a slice. *)
Theorem zero_interval_never_checkpoints now stream_instance configured_stream
    connector_state (slices : list slice) (records_of : slice -> list record_data) :
  (forall k, state_checkpoint_interval stream_instance = Some k -> k = 0) ->
  (forall sl, sl ∈ slices -> forall b,
     read_records stream_instance incremental
       (or_None (cursor_field configured_stream)) sl (Some b)
     = of_list (records_of sl)) ->
  (forall sl, sl ∈ slices -> Forall (accepted stream_instance) (records_of sl)) ->
  forall stream_state h,
    let r := _read_incremental_slices now stream_instance configured_stream
               connector_state (of_list slices) stream_state h in
    outcome r = Ok tt
    /\ type_of <$> messages (trace r)
       = slices ≫= fun sl =>
           replicate (length (records_of sl)) Type_RECORD ++ [Type_STATE].
Proof.
  intros Hzero.
  induction slices as [|sl slices IH]; intros Hrecords Hacc stream_state h.
  - cbn. split; reflexivity.
  - cbv zeta. cbn [of_list]. rewrite _read_incremental_slices_Yield. cbv zeta.
    rewrite (Hrecords sl) by apply list_elem_of_here.
    destruct (records_without_checkpoint now stream_instance
                (stream_name configured_stream) connector_state (records_of sl)
                Hzero 0 stream_state h (Hacc sl (list_elem_of_here _ _)))
      as ([s1 Hs1] & Hrec).
    rewrite Hs1.
    match goal with
    | |- context [_read_incremental_slices ?a ?b ?c ?d ?e ?f ?h'] =>
        destruct (IH (fun sl' Hsl' => Hrecords sl' (list_elem_of_further _ _ _ Hsl'))
                     (fun sl' Hsl' => Hacc sl' (list_elem_of_further _ _ _ Hsl'))
                     f h') as (Hok & Hrest)
    end.
    cbn [trace store outcome]. split; [exact Hok|].
    rewrite !messages_app, !fmap_app, Hrec, Hrest, bind_cons.
    rewrite <- app_assoc. f_equal.
    rewrite <- list_fmap_compose. clear.
    induction (records_of sl) as [|d ds IHd]; [reflexivity|].
    cbn. now rewrite <- IHd.
Qed.

Lemma zero_interval_never_checkpoints_witness :
  let r := _read_incremental_slices 0 zero_interval messages_incremental 1%positive
             (of_list [None]) 1%positive (Heap {[ 1%positive := ∅ ]} ∅) in
  outcome r = Ok tt
  /\ type_of <$> messages (trace r)
     = [ Type_RECORD; Type_RECORD; Type_RECORD; Type_RECORD; Type_RECORD; Type_STATE ].
Proof.
  refine (zero_interval_never_checkpoints 0 zero_interval messages_incremental
            1%positive [None]
            (fun _ => (fun ts => ({[ "ts" := ts ]} : record_data)) <$> [1; 2; 3; 4; 5])
            _ _ _ 1%positive (Heap {[ 1%positive := ∅ ]} ∅)).
  - intros k [= <-]. reflexivity.
  - intros sl _ b. reflexivity.
  - intros sl _. exact (five_accepted zero_interval eq_refl).
Defined.

(** * More of the Slack connector *)

(** ** The date range *)

Lemma chunk_fuel_past start_date now :
  now < start_date -> Slack.chunk_fuel start_date now = O.
Proof.
  intros H. unfold Slack.chunk_fuel, Slack.day.
  assert ((now - start_date) / 86400 + 1 <= 0)
    by (Z.div_mod_to_equations; lia).
  lia.
Qed.

Lemma chunk_fuel_step start_date now :
  start_date <= now ->
  Slack.chunk_fuel start_date now = S (Slack.chunk_fuel (start_date + Slack.day) now).
Proof.
  intros H. unfold Slack.chunk_fuel, Slack.day.
  replace (now - (start_date + 86400)) with (now - start_date + (-1) * 86400) by lia.
  rewrite Z.div_add by lia.
  assert (0 <= (now - start_date) / 86400) by (apply Z.div_pos; lia).
  lia.
Qed.

Lemma chunk_loop_spec now interval n : forall start_date intervals,
  Slack.chunk_fuel start_date now = n ->
  Slack.chunk_loop n start_date now interval intervals =
  Some (intervals
        ++ ((fun i => Slack.chunk (start_date + Z.of_nat i * Slack.day) interval)
              <$> seq 0 n)).
Proof.
  induction n as [|n IH]; intros start_date intervals Hn; cbn [Slack.chunk_loop].
  - destruct (Z.leb_spec start_date now) as [Hle|Hgt].
    + rewrite (chunk_fuel_step _ _ Hle) in Hn. discriminate.
    + cbn. now rewrite app_nil_r.
  - destruct (Z.leb_spec start_date now) as [Hle|Hgt].
    + rewrite (chunk_fuel_step _ _ Hle) in Hn. injection Hn as Hn.
      rewrite (IH _ _ Hn), <- app_assoc. do 2 f_equal.
      cbn [seq fmap list_fmap app]. rewrite Z.mul_0_l, Z.add_0_r. f_equal.
      rewrite <- fmap_S_seq, <- list_fmap_compose.
      apply list_fmap_ext. intros _ i _. cbn. f_equal. lia.
    + rewrite (chunk_fuel_past _ _ Hgt) in Hn. discriminate.
Qed.

Lemma chunk_date_range_days start_date now interval :
  Slack.chunk_date_range start_date now interval =
  (fun i => Slack.chunk (start_date + Z.of_nat i * Slack.day) interval)
    <$> seq 0 (Slack.chunk_fuel start_date now).
Proof.
  unfold Slack.chunk_date_range.
  now rewrite (chunk_loop_spec now interval _ start_date [] eq_refl).
Qed.

(** X9: [chunk_date_range] returns one chunk for every day from the start
    date up to now, in order: the i-th begins i days after the start date and
    ends [interval] days later.  Their number is one more than the number of
    whole days between the start date and now, and zero when the start date
    is after now. *)
Theorem chunk_date_range_spec start_date now interval :
  Slack.chunk_date_range start_date now interval =
    (fun i => Slack.chunk (start_date + Z.of_nat i * Slack.day) interval)
      <$> seq 0 (Slack.chunk_fuel start_date now)
  /\ Z.of_nat (length (Slack.chunk_date_range start_date now interval))
     = Z.max 0 ((now - start_date) / Slack.day + 1).
Proof.
  split; [apply chunk_date_range_days|].
  rewrite chunk_date_range_days, length_fmap, length_seq.
  unfold Slack.chunk_fuel. lia.
Qed.

(** X10: with an interval of at least one day, every instant from the start
    date up to now lies in a chunk of the date range: in the day that begins
    at the chunk's "oldest", and before its "latest". *)
Theorem instant_in_a_chunk start_date now interval ts :
  1 <= interval ->
  start_date <= ts <= now ->
  exists chunk oldest latest,
    chunk ∈ Slack.chunk_date_range start_date now interval
    /\ chunk !! "oldest" = Some oldest
    /\ chunk !! "latest" = Some latest
    /\ oldest <= ts < oldest + Slack.day
    /\ ts < latest.
Proof.
  intros Hint [Hlo Hhi].
  pose proof (chunk_date_range_days start_date now interval) as Heq.
  set (i := Z.to_nat ((ts - start_date) / Slack.day)).
  assert (Hi0 : 0 <= (ts - start_date) / Slack.day)
    by (apply Z.div_pos; unfold Slack.day; lia).
  assert (Hi : (i < Slack.chunk_fuel start_date now)%nat).
  { unfold i, Slack.chunk_fuel.
    assert ((ts - start_date) / Slack.day <= (now - start_date) / Slack.day)
      by (apply Z.div_le_mono; unfold Slack.day; lia).
    lia. }
  exists (Slack.chunk (start_date + Z.of_nat i * Slack.day) interval),
    (start_date + Z.of_nat i * Slack.day),
    (start_date + Z.of_nat i * Slack.day + interval * Slack.day).
  split; [|split; [|split]].
  - rewrite Heq. apply list_elem_of_fmap. exists i. split; [reflexivity|].
    apply elem_of_seq. lia.
  - unfold Slack.chunk. apply lookup_insert_eq.
  - unfold Slack.chunk. rewrite lookup_insert_ne by discriminate.
    apply lookup_singleton_eq.
  - unfold i. rewrite Z2Nat.id by exact Hi0. unfold Slack.day in *.
    Z.div_mod_to_equations. nia.
Qed.

Lemma instant_in_a_chunk_witness :
  exists chunk oldest latest,
    chunk ∈ Slack.chunk_date_range 0 (3 * Slack.day) 1
    /\ chunk !! "oldest" = Some oldest
    /\ chunk !! "latest" = Some latest
    /\ oldest <= 100000 < oldest + Slack.day
    /\ 100000 < latest.
Proof.
  apply (instant_in_a_chunk 0 (3 * Slack.day) 1 100000); [lia|].
  unfold Slack.day. lia.
Defined.

(** ** Requests and pages *)

Lemma page_params {A} (response : SlackStream.Response A) key :
  SlackStream.request_params (SlackStream.next_page_token response) !! key =
  if bool_decide (key = "limit") then Some (PNum 100)
  else if bool_decide (key = "cursor")
       then match SlackStream.next_cursor response with
            | Some c => if bool_decide (c = "") then None else Some (PStr c)
            | None => None
            end
       else None.
Proof.
  unfold SlackStream.next_page_token, SlackStream.request_params.
  assert (Hl : forall k, ({[ "limit" := PNum 100 ]} : gmap string param) !! k
                         = if bool_decide (k = "limit") then Some (PNum 100) else None).
  { intros k. case_bool_decide as Hk.
    - subst k. apply lookup_singleton_eq.
    - apply lookup_singleton_ne. congruence. }
  destruct (SlackStream.next_cursor response) as [c|].
  - destruct (bool_decide (c = "")).
    + rewrite Hl. repeat case_bool_decide; reflexivity.
    + destruct (decide (key = "cursor")) as [->|Hc].
      * rewrite (lookup_union_Some_l _ _ _ (PStr c)) by apply lookup_singleton_eq.
        reflexivity.
      * rewrite lookup_union_r by (apply lookup_singleton_ne; congruence).
        rewrite Hl. repeat case_bool_decide; congruence.
  - rewrite Hl. repeat case_bool_decide; reflexivity.
Qed.

(** X11: the request of a page, key by key.  Every stream asks for 100 items
    under "limit" and passes the cursor of the previous page on under
    "cursor" when that page named one that is not empty, and has no other key
    of its own accord.  [Channels] adds the type of the channels;
    [ChannelMembers] adds the channel of its slice under "channel" and raises
    the KeyError of "channel_id" for a slice without it; a message stream
    adds every key of its slice, and a key of the slice replaces the limit or
    the cursor of the same name. *)
Theorem requests_carry_limit_and_cursor {A} (response : SlackStream.Response A)
    (stream_slice : gmap string Z) :
  let token := SlackStream.next_page_token response in
  let page key : option param :=
    if bool_decide (key = "limit") then Some (PNum 100)
    else if bool_decide (key = "cursor")
         then match SlackStream.next_cursor response with
              | Some c => if bool_decide (c = "") then None else Some (PStr c)
              | None => None
              end
         else None in
  (forall key, SlackStream.request_params token !! key = page key)
  /\ (forall key,
        Channels.request_params token !! key
        = if bool_decide (key = "types") then Some (PStr "public_channel")
          else page key)
  /\ match stream_slice !! "channel_id" with
     | Some channel_id =>
         exists p,
           ChannelMembers.request_params (Some stream_slice) token = Ok p
           /\ forall key,
                p !! key = if bool_decide (key = "channel")
                           then Some (PNum channel_id) else page key
     | None =>
         ChannelMembers.request_params (Some stream_slice) token
         = Err (KeyError "channel_id")
     end
  /\ exists p,
       IncrementalMessageStream.request_params (Some stream_slice) token = Ok p
       /\ forall key,
            p !! key = match stream_slice !! key with
                       | Some value => Some (PNum value)
                       | None => page key
                       end.
Proof.
  cbv zeta. split; [|split; [|split]].
  - apply page_params.
  - intros key. unfold Channels.request_params. case_bool_decide as Hk.
    + subst key. apply lookup_insert_eq.
    + rewrite lookup_insert_ne by congruence. apply page_params.
  - unfold ChannelMembers.request_params.
    destruct (stream_slice !! "channel_id") as [channel_id|]; [|reflexivity].
    eexists. split; [reflexivity|]. intros key. case_bool_decide as Hk.
    + subst key. apply lookup_insert_eq.
    + rewrite lookup_insert_ne by congruence. apply page_params.
  - unfold IncrementalMessageStream.request_params. eexists. split; [reflexivity|].
    intros key. destruct (stream_slice !! key) as [value|] eqn:Hk.
    + apply lookup_union_Some_raw. left. rewrite lookup_fmap, Hk. reflexivity.
    + rewrite lookup_union_r by (rewrite lookup_fmap, Hk; reflexivity).
      apply page_params.
Qed.

(** [ChannelMembers.parse_response] looks at the slice only when a member is
    yielded: with a slice that has no "channel_id", an empty page ends without
    an error and any other page raises before its first record. *)
Lemma parse_response_joined (response : SlackStream.Response Z)
    (stream_slice : gmap string Z) :
  ChannelMembers.parse_response response (Some stream_slice) =
  match stream_slice !! "channel_id" with
  | Some channel_id =>
      of_list ((fun member_id =>
                  {[ "member_id" := member_id; "channel_id" := channel_id ]})
                 <$> SlackStream.parse_response response)
  | None =>
      match SlackStream.parse_response response with
      | [] => Done
      | _ :: _ => Raise (KeyError "channel_id")
      end
  end.
Proof.
  unfold ChannelMembers.parse_response.
  destruct (stream_slice !! "channel_id") as [channel_id|].
  - induction (SlackStream.parse_response response) as [|m ms IH];
      [reflexivity|].
    cbn [fmap list_fmap of_list]. now rewrite <- IH.
  - destruct (SlackStream.parse_response response); reflexivity.
Qed.

(** X12: [ChannelMembers] makes one slice for every channel record, in order,
    and its own requests and pages accept each of them: the request of the
    slice names the channel by the record's "id", and every member of a page
    is put beside that channel, one row for each member. *)
Theorem channel_member_slices_are_read_by_channel (channel_records : list record_data) :
  Forall (fun channel_record : record_data => is_Some (channel_record !! "id"))
    channel_records ->
  exists slices,
    ChannelMembers.stream_slices (of_list channel_records) = of_list slices
    /\ Forall2
         (fun (channel_record : record_data) (stream_slice : slice) =>
            exists id,
              channel_record !! "id" = Some id
              /\ (forall token, exists params,
                    ChannelMembers.request_params stream_slice token = Ok params
                    /\ params !! "channel" = Some (PNum id))
              /\ forall response,
                   ChannelMembers.parse_response response stream_slice
                   = of_list
                       ((fun member_id =>
                           {[ "member_id" := member_id; "channel_id" := id ]})
                          <$> SlackStream.parse_response response))
         channel_records slices.
Proof.
  induction 1 as [|channel_record channel_records [id Hid] _ (slices & Hs & Hall)].
  - exists []. split; [reflexivity|constructor].
  - exists (Some {[ "channel_id" := id ]} :: slices). split.
    + unfold ChannelMembers.stream_slices in *.
      cbn [of_list gen_bind]. rewrite Hid, Hs. reflexivity.
    + constructor; [|exact Hall].
      exists id. split; [exact Hid|]. split.
      * intros token. unfold ChannelMembers.request_params.
        rewrite lookup_singleton_eq. eexists. split; [reflexivity|].
        apply lookup_insert_eq.
      * intros response. rewrite parse_response_joined.
        now rewrite lookup_singleton_eq.
Qed.

Lemma channel_member_slices_are_read_by_channel_witness :
  exists slices,
    ChannelMembers.stream_slices
      (of_list [ ({[ "id" := 3 ]} : record_data); {[ "id" := 5 ]} ])
    = of_list slices
    /\ length slices = 2%nat.
Proof.
  destruct (channel_member_slices_are_read_by_channel
              [ ({[ "id" := 3 ]} : record_data); {[ "id" := 5 ]} ])
    as (slices & Hs & Hall).
  - repeat constructor; eexists; apply lookup_singleton_eq.
  - exists slices. split; [exact Hs|].
    now rewrite <- (Forall2_length _ _ _ Hall).
Defined.

(** ** The messages of a slice *)

(** X13: a slice that names no channel is read channel by channel.  For a
    workspace whose channel listing and message pages end normally,
    [ChannelMessages.read_records] yields the messages of every channel, in
    the order of the channels, each asked for with the keys of the slice and
    the channel. *)
Theorem messages_of_every_channel api (stream_slice : gmap string Z)
    (channels : list Z) (messages_of : gmap string Z -> list record_data) :
  stream_slice !! "channel" = None ->
  Slack.channels api = of_list channels ->
  (forall params, Slack.history api params = of_list (messages_of params)) ->
  Slack.read_records api (Some stream_slice)
  = of_list (channels ≫= fun channel =>
             messages_of (<["channel" := channel]> stream_slice)).
Proof.
  intros Hnone Hch Hhist. unfold Slack.read_records.
  rewrite bool_decide_eq_false_2 by (rewrite Hnone; now intros [? [=]]).
  rewrite Hch. clear Hch.
  induction channels as [|channel channels IH]; [reflexivity|].
  cbn [of_list]. rewrite bind_cons, of_list_app, Hhist, IH. reflexivity.
Qed.

Lemma messages_of_every_channel_witness :
  Slack.read_records Slack.workspace
    (Some {[ "oldest" := 15 * Slack.day; "latest" := 16 * Slack.day ]})
  = of_list [ {[ "ts" := 15 * Slack.day + 100 ]} ].
Proof.
  rewrite (messages_of_every_channel Slack.workspace
             {[ "oldest" := 15 * Slack.day; "latest" := 16 * Slack.day ]} [1]
             (fun params =>
                filter (fun r => Slack.in_window params r = true) Slack.two_messages));
    [vm_compute; reflexivity | vm_compute; reflexivity | reflexivity
    | intros params; reflexivity].
Defined.

(** ** Threads *)

Lemma gen_bind_of_list {A B} (l : list A) (f : A -> gen B) (g : A -> list B) :
  (forall a, a ∈ l -> f a = of_list (g a)) ->
  gen_bind (of_list l) f = of_list (l ≫= g).
Proof.
  induction l as [|a l IH]; intros H; [reflexivity|].
  cbn [of_list gen_bind]. rewrite bind_cons, of_list_app.
  rewrite (H a) by apply list_elem_of_here.
  rewrite IH; [reflexivity|].
  intros b Hb. apply H. now apply list_elem_of_further.
Qed.

(** X14: the slices of [Threads], for a workspace whose channel listing and
    message pages end normally and whose messages all carry "ts".  The
    messages are read in chunks of one day, from the lookback window before
    the "start_ts" of the stream state when it has one and from the default
    start date otherwise; there is one slice for every message of every
    channel in every chunk, in that order, naming the channel and the "ts" of
    the message. *)
Theorem threads_slices lookback default_start_date now api stream_state
    (channels : list Z) (messages_of : gmap string Z -> list record_data) :
  Slack.channels api = of_list channels ->
  (forall params, Slack.history api params = of_list (messages_of params)) ->
  (forall params message, message ∈ messages_of params -> is_Some (message !! "ts")) ->
  let messages_start_date :=
    match default ∅ stream_state !! "start_ts" with
    | Some start_ts => start_ts - lookback * Slack.day
    | None => default_start_date
    end in
  Threads.stream_slices lookback default_start_date now api stream_state =
  of_list
    (Slack.chunk_date_range messages_start_date now 1 ≫= fun message_chunk =>
     channels ≫= fun channel =>
     messages_of (<["channel" := channel]> message_chunk) ≫= fun message =>
     match message !! "ts" with
     | Some ts => [Some {[ "channel" := channel; "ts" := ts ]}]
     | None => []
     end).
Proof.
  intros Hch Hhist Hts start. unfold Threads.stream_slices. fold start.
  assert (Hs : Slack.stream_slices start now (Some {[ "start_ts" := start ]})
               = Slack.chunk_date_range start now 1).
  { unfold Slack.stream_slices.
    change (default ∅ (Some {[ "start_ts" := start ]}))
      with ({[ "start_ts" := start ]} : gmap string Z).
    now rewrite lookup_singleton_eq. }
  rewrite Hs.
  apply gen_bind_of_list. intros message_chunk _.
  rewrite Hch. apply gen_bind_of_list. intros channel _.
  unfold Slack.read_records.
  rewrite bool_decide_eq_true_2
    by (rewrite lookup_insert_eq; eexists; reflexivity).
  rewrite Hhist. apply gen_bind_of_list. intros message Hm.
  destruct (Hts _ _ Hm) as [ts ->]. reflexivity.
Qed.

Lemma workspace_messages_carry_ts params message :
  message ∈ filter (fun r => Slack.in_window params r = true) Slack.two_messages ->
  is_Some (message !! "ts").
Proof.
  intros H. apply list_elem_of_filter in H as [_ H].
  unfold Slack.two_messages in H.
  apply elem_of_cons in H as [->|H]; [eexists; apply lookup_singleton_eq|].
  apply elem_of_cons in H as [->|H]; [eexists; apply lookup_singleton_eq|].
  now apply elem_of_nil in H.
Qed.

Lemma threads_slices_witness :
  Threads.stream_slices 7 (sync_time - 14 * Slack.day) sync_time Slack.workspace
    (Some {[ "start_ts" := 23 * Slack.day ]})
  = of_list [ Some {[ "channel" := 1; "ts" := 16 * Slack.day + 200 ]} ].
Proof.
  rewrite (threads_slices 7 (sync_time - 14 * Slack.day) sync_time Slack.workspace
             (Some {[ "start_ts" := 23 * Slack.day ]}) [1]
             (fun params =>
                filter (fun r => Slack.in_window params r = true) Slack.two_messages)
             eq_refl (fun _ => eq_refl) workspace_messages_carry_ts).
  vm_compute. reflexivity.
Defined.

(** ** The connection check *)

(** X15: the check of the Slack source never raises.  It succeeds exactly
    when the user listing answers with at least one member; with no member it
    fails with the connector's own message, and when the listing raises it
    fails with the text of the exception. *)
Theorem slack_check_succeeds_iff_users (users_list : res (option (list Z))) :
  let result := check (SourceSlackCheck.check_connection users_list) in
  (status result = SUCCEEDED
   <-> exists user users, users_list = Ok (Some (user :: users)))
  /\ message result =
     match users_list with
     | Ok (Some (_ :: _)) => None
     | Ok _ => Some "There are no users in the given Slack instance"
     | Err e => Some (str_exn e)
     end.
Proof.
  destruct users_list as [[[|user users]|]|e]; cbn;
    (split; [split|reflexivity]);
    solve [ discriminate | intros (? & ? & ?); discriminate | intros _; eauto ].
Qed.

(** * Dictionaries that keep the order of their keys *)

Lemma dict_get_setitem {V} (d : Dict.t V) key value key' :
  Dict.get (Dict.setitem d key value) key' =
  if String.eqb key key' then Some value else Dict.get d key'.
Proof.
  induction d as [|[k v] d IH]; cbn.
  - reflexivity.
  - destruct (String.eqb_spec k key) as [->|Hk]; cbn.
    + now destruct (String.eqb key key').
    + rewrite IH. destruct (String.eqb_spec k key') as [->|Hk'];
        [|reflexivity].
      destruct (String.eqb_spec key key') as [->|_]; [now destruct Hk|reflexivity].
Qed.

Lemma dict_setitem_fresh {V} (d : Dict.t V) key value :
  key ∉ Dict.keys d -> Dict.setitem d key value = d ++ [(key, value)].
Proof.
  unfold Dict.keys. induction d as [|[k v] d IH]; intros H; [reflexivity|].
  cbn [fmap list_fmap fst] in H. apply not_elem_of_cons in H as [Hk H].
  cbn. destruct (String.eqb_spec k key) as [->|_]; [now destruct Hk|].
  now rewrite IH.
Qed.

(** * The base client *)

Lemma startswith_app prefix rest :
  Client.startswith (String.append prefix rest) prefix = true.
Proof.
  induction prefix as [|a prefix IH]; [reflexivity|].
  change (String.append (String a prefix) rest)
    with (String a (String.append prefix rest)).
  cbn [Client.startswith]. now rewrite Ascii.eqb_refl, IH.
Qed.

Lemma startswith_from s prefix :
  Client.startswith s prefix = true ->
  s = String.append prefix (Client.from (String.length prefix) s).
Proof.
  revert s. induction prefix as [|a prefix IH]; intros s H; [reflexivity|].
  destruct s as [|b s]; [discriminate|]. cbn [Client.startswith] in H.
  apply andb_true_iff in H as [Hab H]. apply Ascii.eqb_eq in Hab as ->.
  cbn [String.length Client.from].
  change (String.append (String b prefix) (Client.from (String.length prefix) s))
    with (String b (String.append prefix (Client.from (String.length prefix) s))).
  f_equal. now apply IH.
Qed.

Lemma from_app prefix rest :
  Client.from (String.length prefix) (String.append prefix rest) = rest.
Proof. induction prefix as [|a prefix IH]; [reflexivity|exact IH]. Qed.

Lemma get_enumerated {Method} (members : list (string * Method)) :
  NoDup members.*1 ->
  forall (mapping : Dict.t Method) name method,
    Dict.get
      (foldl (fun mapping '(name, method) =>
                if Client.startswith name Client.prefix
                then Dict.setitem mapping
                       (Client.from (String.length Client.prefix) name) method
                else mapping) mapping members) name = Some method
    <-> (String.append Client.prefix name, method) ∈ members
        \/ (Dict.get mapping name = Some method
            /\ String.append Client.prefix name ∉ members.*1).
Proof.
  induction members as [|[member f] members IH]; intros Hnd mapping name method.
  - cbn. split; [intros H; right; split; [exact H|apply not_elem_of_nil]|].
    intros [H|[H _]]; [now apply elem_of_nil in H|exact H].
  - cbn [fmap list_fmap fst] in Hnd. apply NoDup_cons in Hnd as [Hfresh Hnd].
    cbn [foldl]. rewrite (IH Hnd). cbn [fmap list_fmap fst].
    rewrite elem_of_cons, not_elem_of_cons.
    assert (Hin : forall x, (member, x) ∈ members -> False).
    { intros x Hx. apply Hfresh. apply list_elem_of_fmap. now exists (member, x). }
    destruct (Client.startswith member Client.prefix) eqn:Hsw.
    + rewrite dict_get_setitem.
      destruct (String.eqb_spec (Client.from (String.length Client.prefix) member)
                  name) as [Hn|Hn].
      * assert (Hm : member = String.append Client.prefix name)
          by (rewrite <- Hn; now apply startswith_from).
        rewrite <- Hm. split.
        -- intros [H|[[= ->] _]]; [now apply Hin in H|]. left. now left.
        -- intros [[[= ->]|H]|[_ [H _]]];
             [right; split; [reflexivity|exact Hfresh]|now apply Hin in H|now destruct H].
      * assert (Hm : String.append Client.prefix name <> member).
        { intros <-. apply Hn, from_app. }
        split.
        -- intros [H|[H1 H2]]; [left; now right|right; auto].
        -- intros [[[= H _]|H]|[H1 [_ H2]]];
             [now destruct Hm|now left|right; auto].
    + assert (Hm : String.append Client.prefix name <> member).
      { intros <-. now rewrite startswith_app in Hsw. }
      split.
      * intros [H|[H1 H2]]; [left; now right|right; auto].
      * intros [[[= H _]|H]|[H1 [_ H2]]];
          [now destruct Hm|now left|right; auto].
Qed.

(** X16: the client reads a stream with the function of its class whose name
    is "stream__" followed by the name of the stream, and raises the
    ValueError exactly for the names that have no such function. *)
Theorem stream_method_is_the_prefixed_function {Method}
    (members : list (string * Method)) name :
  NoDup members.*1 ->
  (forall method,
     Client._get_stream_method Method (Client._enumerate_methods Method members) name
     = Client.Found method
     <-> (String.append "stream__" name, method) ∈ members)
  /\ ((exists msg,
        Client._get_stream_method Method (Client._enumerate_methods Method members) name
        = Client.ValueError msg)
      <-> String.append "stream__" name ∉ members.*1).
Proof.
  intros Hnd.
  pose proof (get_enumerated members Hnd [] name) as H.
  unfold Client._get_stream_method, Client._enumerate_methods.
  destruct (Dict.get _ name) as [f|] eqn:Hget.
  - assert (Hf : (String.append Client.prefix name, f) ∈ members).
    { destruct (proj1 (H f) eq_refl) as [Hf|[Hf _]]; [exact Hf|discriminate]. }
    split.
    + intros method. split.
      * now intros [= <-].
      * intros Hm. pose proof (proj2 (H method) (or_introl Hm)) as [= ->].
        reflexivity.
    + split; [intros [msg [=]]|].
      intros Hn. destruct Hn. apply list_elem_of_fmap.
      now exists (String.append Client.prefix name, f).
  - split.
    + intros method. split; [discriminate|].
      intros Hm. now pose proof (proj2 (H method) (or_introl Hm)).
    + split; [|intros _; eauto].
      intros _ Hin. apply list_elem_of_fmap in Hin as [[n f] [Hn Hin]].
      cbn in Hn. subst n.
      now pose proof (proj2 (H f) (or_introl Hin)).
Qed.

Lemma client_members_NoDup : NoDup client_members.*1.
Proof. apply (bool_decide_unpack _). vm_compute. reflexivity. Qed.

Lemma stream_method_is_the_prefixed_function_witness :
  Client._get_stream_method nat (Client._enumerate_methods nat client_members) "users"
  = Client.Found 2%nat.
Proof.
  apply (proj1 (stream_method_is_the_prefixed_function client_members "users"
                  client_members_NoDup) 2%nat).
  unfold client_members. do 2 apply list_elem_of_further. apply list_elem_of_here.
Defined.

Lemma enumerated_spec {Method} (members : list (string * Method)) :
  NoDup members.*1 ->
  forall mapping : Dict.t Method,
    (forall name, name ∈ members.*1 -> Client.startswith name Client.prefix = true ->
                  Client.from (String.length Client.prefix) name ∉ mapping.*1) ->
    foldl (fun mapping '(name, method) =>
             if Client.startswith name Client.prefix
             then Dict.setitem mapping
                    (Client.from (String.length Client.prefix) name) method
             else mapping) mapping members
    = mapping
      ++ ((fun m : string * Method =>
             (Client.from (String.length Client.prefix) m.1, m.2))
            <$> filter (fun m => Client.startswith m.1 Client.prefix = true) members).
Proof.
  induction members as [|[member f] members IH]; intros Hnd mapping Hfresh.
  - cbn. now rewrite app_nil_r.
  - cbn [fmap list_fmap fst] in Hnd, Hfresh. apply NoDup_cons in Hnd as [Hnew Hnd].
    cbn [foldl].
    destruct (Client.startswith member Client.prefix) eqn:Hsw.
    + rewrite filter_cons_True by exact Hsw.
      rewrite dict_setitem_fresh
        by (apply Hfresh; [apply list_elem_of_here|exact Hsw]).
      rewrite (IH Hnd).
      * cbn [fmap list_fmap fst snd]. now rewrite <- app_assoc.
      * intros name Hin Hname. rewrite fmap_app. cbn [fmap list_fmap fst].
        rewrite elem_of_app, list_elem_of_singleton. intros [H|H].
        -- revert H. apply Hfresh; [now apply list_elem_of_further|exact Hname].
        -- apply Hnew.
           rewrite (startswith_from member _ Hsw), <- H, <- startswith_from
             by exact Hname.
           exact Hin.
    + rewrite filter_cons_False
        by (change (Client.startswith member Client.prefix <> true);
            now rewrite Hsw).
      apply (IH Hnd). intros name Hin. apply Hfresh. now apply list_elem_of_further.
Qed.

Lemma streams_of_list {Method Schema} (get_schema : string -> res Schema)
    stream_has_state (schema_of : string -> Schema) (d : Dict.t Method) :
  (forall name, get_schema name = Ok (schema_of name)) ->
  Client.streams Method Schema get_schema stream_has_state d
  = of_list
      ((fun name =>
          {| Client.stream_name := name;
             Client.json_schema := schema_of name;
             Client.supported_sync_modes :=
               if stream_has_state name then [full_refresh; incremental]
               else [full_refresh];
             Client.source_defined_cursor := stream_has_state name |}) <$> d.*1).
Proof.
  intros Hschema. induction d as [|[name method] d IH]; [reflexivity|].
  cbn [Client.streams fmap list_fmap fst of_list]. rewrite Hschema, IH.
  now destruct (stream_has_state name).
Qed.

(** X17: when the schema loader has a schema for every name, the client lists
    one stream for every function of its class whose name begins with
    "stream__", in the order of the functions and under the name that follows
    the prefix; each listed stream supports full refresh, and incremental
    syncs with a source-defined cursor exactly when [stream_has_state] holds
    for it; and every listed stream can be read: [_get_stream_method] finds
    its method. *)
Theorem streams_lists_the_stream_functions {Method Schema}
    (get_schema : string -> res Schema) stream_has_state
    (schema_of : string -> Schema) (members : list (string * Method)) :
  NoDup members.*1 ->
  (forall name, get_schema name = Ok (schema_of name)) ->
  let _stream_methods := Client._enumerate_methods Method members in
  let names :=
    Client.from 8
      <$> filter (fun name => Client.startswith name "stream__" = true) members.*1 in
  Client.streams Method Schema get_schema stream_has_state _stream_methods
  = of_list
      ((fun name =>
          {| Client.stream_name := name;
             Client.json_schema := schema_of name;
             Client.supported_sync_modes :=
               if stream_has_state name then [full_refresh; incremental]
               else [full_refresh];
             Client.source_defined_cursor := stream_has_state name |}) <$> names)
  /\ Forall (fun name =>
               exists method,
                 Client._get_stream_method Method _stream_methods name
                 = Client.Found method) names.
Proof.
  intros Hnd Hschema _stream_methods names.
  assert (Hd : _stream_methods
               = (fun m : string * Method =>
                    (Client.from (String.length Client.prefix) m.1, m.2))
                   <$> filter (fun m => Client.startswith m.1 Client.prefix = true)
                         members).
  { unfold _stream_methods, Client._enumerate_methods.
    rewrite (enumerated_spec members Hnd []); [reflexivity|].
    intros name _ _. apply not_elem_of_nil. }
  assert (Hnames : _stream_methods.*1 = names).
  { rewrite Hd. unfold names. clear.
    induction members as [|[member f] members IH]; [reflexivity|].
    cbn [fmap list_fmap fst].
    destruct (Client.startswith member Client.prefix) eqn:Hsw.
    - rewrite filter_cons_True by exact Hsw.
      rewrite (filter_cons_True _ member) by exact Hsw.
      cbn [fmap list_fmap fst]. f_equal. exact IH.
    - rewrite filter_cons_False
        by (change (Client.startswith member Client.prefix <> true);
            now rewrite Hsw).
      rewrite (filter_cons_False _ member)
        by (change (Client.startswith member Client.prefix <> true);
            now rewrite Hsw).
      exact IH. }
  split.
  - rewrite (streams_of_list get_schema stream_has_state schema_of _ Hschema).
    now rewrite Hnames.
  - apply Forall_forall. intros name Hin. unfold names in Hin.
    apply list_elem_of_fmap in Hin as [member [-> Hin]].
    apply list_elem_of_filter in Hin as [Hsw Hin].
    apply list_elem_of_fmap in Hin as [[member' f] [Hm Hin]]. cbn in Hm. subst member'.
    exists f. unfold Client._get_stream_method.
    assert (Hget : Dict.get _stream_methods (Client.from 8 member) = Some f).
    { apply (proj2 (get_enumerated members Hnd [] (Client.from 8 member) f)).
      left. change 8%nat with (String.length Client.prefix).
      now rewrite <- startswith_from. }
    now rewrite Hget.
Qed.

Lemma streams_lists_the_stream_functions_witness :
  Client.streams nat Z (fun _ => Ok 0) (fun name => bool_decide (name = "users"))
    (Client._enumerate_methods nat client_members)
  = of_list
      [ {| Client.stream_name := "accounts"; Client.json_schema := 0;
           Client.supported_sync_modes := [full_refresh];
           Client.source_defined_cursor := false |};
        {| Client.stream_name := "users"; Client.json_schema := 0;
           Client.supported_sync_modes := [full_refresh; incremental];
           Client.source_defined_cursor := true |} ].
Proof.
  exact (proj1 (streams_lists_the_stream_functions (fun _ => Ok 0)
                  (fun name => bool_decide (name = "users")) (fun _ => 0)
                  client_members client_members_NoDup (fun _ => eq_refl))).
Defined.

(** * The Smartsheets connector *)

(** ** The data of a row *)

Lemma foldl_insert_list_to_map (pairs : list (string * Z)) (acc : record_data) :
  foldl (fun data '(column, value) => <[column := value]> data) acc pairs
  = list_to_map (reverse pairs) ∪ acc.
Proof.
  revert acc. induction pairs as [|[k v] pairs IH]; intros acc.
  - cbn. now rewrite (left_id_L ∅ (∪)).
  - cbn [foldl]. rewrite IH, reverse_cons, list_to_map_app.
    cbn [list_to_map foldr]. rewrite <- (assoc_L (∪)). f_equal.
    cbn [fst snd]. now rewrite insert_empty, <- insert_union_singleton_l.
Qed.

(** X18: the data of a record pairs the columns of the schema with the cells
    of the row by position.  With columns that are all different, a value is
    under a column exactly when the column and the value stand at the same
    place, so cells beyond the last column are dropped and columns beyond the
    last cell are left out. *)
Theorem cell_lands_under_its_column (columns : list string) (values : list Z)
    column value :
  NoDup columns ->
  Smartsheets.data_of columns values !! column = Some value
  <-> exists i, columns !! i = Some column /\ values !! i = Some value.
Proof.
  intros Hnd. unfold Smartsheets.data_of.
  rewrite foldl_insert_list_to_map, (right_id_L ∅ (∪)).
  assert (Hfst : NoDup (zip columns values).*1).
  { revert values. induction Hnd as [|c cs Hc Hnd IH]; intros [|v vs];
      try apply NoDup_nil_2.
    cbn. apply NoDup_cons. split; [|apply IH].
    intros Hin. apply Hc. apply list_elem_of_fmap in Hin as [[c' v'] [-> Hin]].
    now apply elem_of_zip_l in Hin. }
  rewrite <- elem_of_list_to_map by (rewrite fmap_reverse, reverse_Permutation; exact Hfst).
  rewrite elem_of_reverse, list_elem_of_lookup.
  split.
  - intros [i Hi]. exists i.
    apply lookup_zip_with_Some in Hi as (c & v & [= -> ->] & Hc & Hv). auto.
  - intros [i [Hc Hv]]. exists i. apply lookup_zip_with_Some. eauto.
Qed.

Lemma cell_lands_under_its_column_witness :
  Smartsheets.data_of ["name"; "age"] [1; 30; 99] !! "age" = Some 30
  <-> exists i, ["name"; "age"] !! i = Some "age" /\ [1; 30; 99] !! i = Some 30.
Proof.
  apply (cell_lands_under_its_column ["name"; "age"] [1; 30; 99] "age" 30).
  apply (bool_decide_unpack _). vm_compute. reflexivity.
Defined.

(** ** Reading the rows *)


(** ** Reading the rows *)

Lemma cell_values_ok (values : list Z) :
  Smartsheets.cell_values (Some <$> values) = Smartsheets.Returned values.
Proof.
  induction values as [|v values IH]; [reflexivity|].
  cbn [fmap list_fmap Smartsheets.cell_values]. cbn [fmap list_fmap] in IH.
  now rewrite IH.
Qed.

Lemma cell_values_empty_cell (cells : list (option Z)) :
  None ∈ cells ->
  Smartsheets.cell_values cells = Smartsheets.Raised (Smartsheets.KeyError "value").
Proof.
  induction cells as [|[v|] cells IH]; intros H.
  - now apply elem_of_nil in H.
  - apply elem_of_cons in H as [H|H]; [discriminate|].
    cbn. now rewrite IH.
  - reflexivity.
Qed.

Lemma read_rows_app now columns name (values : list (list Z)) later :
  Smartsheets.read_rows now columns name
    (((fun row_values : list Z => Some (Some <$> row_values)) <$> values) ++ later)
  = ((Smartsheets.encode now columns name <$> values)
       ++ (Smartsheets.read_rows now columns name later).1,
     (Smartsheets.read_rows now columns name later).2).
Proof.
  induction values as [|v values IH].
  - cbn. now destruct (Smartsheets.read_rows now columns name later).
  - cbn [fmap list_fmap app Smartsheets.read_rows Smartsheets.row_values].
    rewrite cell_values_ok. cbn [fmap list_fmap] in IH. now rewrite IH.
Qed.

Lemma read_sheet_rows now columns name sheet title count sheet_rows :
  Smartsheets.sheet_name sheet = Some title ->
  Smartsheets.totalRowCount sheet = Some count ->
  Smartsheets.rows sheet = Some sheet_rows ->
  Smartsheets.read_sheet now columns name (Smartsheets.Returned sheet)
  = (Smartsheets.Info "Starting syncing spreadsheet {}" [Smartsheets.Str title]
       :: Smartsheets.Info "Row count: {}" [Smartsheets.Num count]
       :: (Smartsheets.read_rows now columns name sheet_rows).1,
     (Smartsheets.read_rows now columns name sheet_rows).2).
Proof.
  intros Hn Hc Hr. unfold Smartsheets.read_sheet. rewrite Hn, Hc, Hr.
  now destruct (Smartsheets.read_rows now columns name sheet_rows).
Qed.

Lemma sheet_is_read_row_by_row_run now get_sheet config stream token id columns
    sheet title count (values : list (list Z)) :
  Smartsheets.access_token config = Some token ->
  Smartsheets.spreadsheet_id config = Some id ->
  Smartsheets.properties stream = Some (Smartsheets.PDict columns) ->
  get_sheet O = Smartsheets.Returned sheet ->
  Smartsheets.sheet_name sheet = Some title ->
  Smartsheets.totalRowCount sheet = Some count ->
  Smartsheets.rows sheet
  = Some ((fun row_values : list Z => Some (Some <$> row_values)) <$> values) ->
  Smartsheets.read now get_sheet config [stream]
  = ([ Smartsheets.Info "Starting syncing spreadsheet {}" [Smartsheets.Str title];
       Smartsheets.Info "Row count: {}" [Smartsheets.Num count] ]
       ++ ((fun row_values =>
              Smartsheets.Yielded
                (RECORD (Smartsheets.name stream)
                   (Smartsheets.data_of columns row_values) (now * 1000)))
             <$> values)
       ++ [ Smartsheets.Info "Finished syncing spreadsheet with ID: {}"
              [Smartsheets.Str id] ],
     None).
Proof.
  intros Ht Hid Hp Hs Hn Hc Hr.
  unfold Smartsheets.read. rewrite Ht, Hid.
  cbn [Smartsheets.read_streams]. rewrite Hp, Hs.
  rewrite (read_sheet_rows now _ _ sheet title count _ Hn Hc Hr).
  rewrite <- (app_nil_r (_ <$> values)), read_rows_app.
  cbn [Smartsheets.read_rows fst snd app]. now rewrite !app_nil_r.
Qed.

(** X19: a stream whose schema names its columns in a dictionary, read from a
    sheet whose rows all have their cells and whose cells all have a value:
    the read logs the sheet's name and row count, yields one RECORD message
    for every row, in order, under the stream's name and with the data of the
    row, logs the end of the sync and ends normally. *)
Theorem sheet_is_read_row_by_row now get_sheet config stream token id columns
    sheet title count (values : list (list Z)) :
  Smartsheets.access_token config = Some token ->
  Smartsheets.spreadsheet_id config = Some id ->
  Smartsheets.properties stream = Some (Smartsheets.PDict columns) ->
  get_sheet O = Smartsheets.Returned sheet ->
  Smartsheets.sheet_name sheet = Some title ->
  Smartsheets.totalRowCount sheet = Some count ->
  Smartsheets.rows sheet
  = Some ((fun row_values : list Z => Some (Some <$> row_values)) <$> values) ->
  Smartsheets.read now get_sheet config [stream]
  = ([ Smartsheets.Info "Starting syncing spreadsheet {}" [Smartsheets.Str title];
       Smartsheets.Info "Row count: {}" [Smartsheets.Num count] ]
       ++ ((fun row_values =>
              Smartsheets.Yielded
                (RECORD (Smartsheets.name stream)
                   (Smartsheets.data_of columns row_values) (now * 1000)))
             <$> values)
       ++ [ Smartsheets.Info "Finished syncing spreadsheet with ID: {}"
              [Smartsheets.Str id] ],
     None).
Proof. apply sheet_is_read_row_by_row_run. Qed.

Lemma sheet_is_read_row_by_row_witness :
  Smartsheets.records
    (Smartsheets.read 7 (fun _ => Smartsheets.Returned
                                    (Smartsheets.sheet_of [Smartsheets.full_row]))
       Smartsheets.credentials [Smartsheets.people]).1
  = [ RECORD "people" {[ "name" := 1; "age" := 30 ]} 7000 ].
Proof.
  rewrite (sheet_is_read_row_by_row 7 _ Smartsheets.credentials Smartsheets.people
             "token" "42" ["name"; "age"]
             (Smartsheets.sheet_of [Smartsheets.full_row]) "People" 1 [[1; 30]]
             eq_refl eq_refl eq_refl eq_refl eq_refl eq_refl eq_refl).
  vm_compute. reflexivity.
Defined.

(** X20: a cell without "value" ends the whole read.  The rows before it are
    yielded, the row itself and the rows after it are not, the failure is
    logged under the name of the stream, and the KeyError of "value" is
    raised: the streams configured after this one are not read and the end
    of the sync is not logged. *)
Theorem empty_cell_aborts_the_read now get_sheet config stream later token id
    columns sheet title count (values : list (list Z)) cells rows_after :
  Smartsheets.access_token config = Some token ->
  Smartsheets.spreadsheet_id config = Some id ->
  Smartsheets.properties stream = Some (Smartsheets.PDict columns) ->
  get_sheet O = Smartsheets.Returned sheet ->
  Smartsheets.sheet_name sheet = Some title ->
  Smartsheets.totalRowCount sheet = Some count ->
  Smartsheets.rows sheet
  = Some (((fun row_values : list Z => Some (Some <$> row_values)) <$> values)
            ++ Some cells :: rows_after) ->
  None ∈ cells ->
  Smartsheets.read now get_sheet config (stream :: later)
  = ([ Smartsheets.Info "Starting syncing spreadsheet {}" [Smartsheets.Str title];
       Smartsheets.Info "Row count: {}" [Smartsheets.Num count] ]
       ++ ((fun row_values =>
              Smartsheets.Yielded
                (RECORD (Smartsheets.name stream)
                   (Smartsheets.data_of columns row_values) (now * 1000)))
             <$> values)
       ++ [ Smartsheets.Error "Could not read smartsheet: {}"
              [Smartsheets.Str (Smartsheets.name stream)] ],
     Some (Smartsheets.KeyError "value")).
Proof.
  intros Ht Hid Hp Hs Hn Hc Hr Hcell.
  unfold Smartsheets.read. rewrite Ht, Hid.
  cbn [Smartsheets.read_streams]. rewrite Hp, Hs.
  rewrite (read_sheet_rows now _ _ sheet title count _ Hn Hc Hr).
  rewrite read_rows_app.
  cbn [Smartsheets.read_rows Smartsheets.row_values].
  rewrite (cell_values_empty_cell cells Hcell).
  cbn [fst snd app]. now rewrite !app_nil_r.
Qed.

Lemma empty_cell_aborts_the_read_witness :
  let r := Smartsheets.read 7
             (fun _ => Smartsheets.Returned
                         (Smartsheets.sheet_of
                            [Smartsheets.full_row; Smartsheets.row_with_empty_cell;
                             Smartsheets.full_row]))
             Smartsheets.credentials [Smartsheets.people; Smartsheets.people] in
  r.2 = Some (Smartsheets.KeyError "value")
  /\ Smartsheets.records r.1 = [ RECORD "people" {[ "name" := 1; "age" := 30 ]} 7000 ].
Proof.
  cbv zeta.
  rewrite (empty_cell_aborts_the_read 7 _ Smartsheets.credentials Smartsheets.people
             [Smartsheets.people] "token" "42" ["name"; "age"]
             (Smartsheets.sheet_of
                [Smartsheets.full_row; Smartsheets.row_with_empty_cell;
                 Smartsheets.full_row])
             "People" 3 [[1; 30]] [Some 2; None] [Smartsheets.full_row]
             eq_refl eq_refl eq_refl eq_refl eq_refl eq_refl eq_refl
             (list_elem_of_further _ _ _ (list_elem_of_here _ _))).
  split; [reflexivity|]. vm_compute. reflexivity.
Defined.

(** X21: properties that are neither a list nor a dictionary.  For the first
    configured stream the columns are unbound, so no row is yielded: the read
    logs the complaint about the properties and one error for every row, and
    still ends normally. *)
Theorem unreadable_properties_yield_no_record now get_sheet config stream token id
    sheet title count (values : list (list Z)) :
  Smartsheets.access_token config = Some token ->
  Smartsheets.spreadsheet_id config = Some id ->
  Smartsheets.properties stream = Some Smartsheets.POther ->
  get_sheet O = Smartsheets.Returned sheet ->
  Smartsheets.sheet_name sheet = Some title ->
  Smartsheets.totalRowCount sheet = Some count ->
  Smartsheets.rows sheet
  = Some ((fun row_values : list Z => Some (Some <$> row_values)) <$> values) ->
  Smartsheets.read now get_sheet config [stream]
  = ([ Smartsheets.Error "Could not read properties from the JSONschema in this stream" [];
       Smartsheets.Info "Starting syncing spreadsheet {}" [Smartsheets.Str title];
       Smartsheets.Info "Row count: {}" [Smartsheets.Num count] ]
       ++ ((fun _ =>
              Smartsheets.Error
                "Unable to encode row into an AirbyteMessage with the following error: {}"
                [Smartsheets.Exn (Smartsheets.UnboundLocalError "columns")])
             <$> values)
       ++ [ Smartsheets.Info "Finished syncing spreadsheet with ID: {}"
              [Smartsheets.Str id] ],
     None).
Proof.
  intros Ht Hid Hp Hs Hn Hc Hr.
  unfold Smartsheets.read. rewrite Ht, Hid.
  cbn [Smartsheets.read_streams]. rewrite Hp, Hs.
  rewrite (read_sheet_rows now _ _ sheet title count _ Hn Hc Hr).
  rewrite <- (app_nil_r (_ <$> values)), read_rows_app.
  cbn [Smartsheets.read_rows fst snd app]. now rewrite !app_nil_r.
Qed.

Lemma unreadable_properties_yield_no_record_witness :
  Smartsheets.records
    (Smartsheets.read 7 (fun _ => Smartsheets.Returned
                                    (Smartsheets.sheet_of [Smartsheets.full_row]))
       Smartsheets.credentials [Smartsheets.untyped]).1
  = [].
Proof.
  rewrite (unreadable_properties_yield_no_record 7 _ Smartsheets.credentials
             Smartsheets.untyped "token" "42"
             (Smartsheets.sheet_of [Smartsheets.full_row]) "People" 1 [[1; 30]]
             eq_refl eq_refl eq_refl eq_refl eq_refl eq_refl eq_refl).
  vm_compute. reflexivity.
Defined.

Lemma records_app events1 events2 :
  Smartsheets.records (events1 ++ events2)
  = Smartsheets.records events1 ++ Smartsheets.records events2.
Proof. apply omap_app. Qed.

Lemma records_yielded (f : list Z -> AirbyteMessage) (values : list (list Z)) :
  Smartsheets.records ((fun v => Smartsheets.Yielded (f v)) <$> values) = f <$> values.
Proof.
  induction values as [|v values IH]; [reflexivity|].
  cbn. unfold Smartsheets.records in IH. cbn in IH. now rewrite IH.
Qed.

(** X22: after a stream whose schema named its columns, a stream whose
    properties are neither a list nor a dictionary is read with the columns
    of the stream before it: its rows are yielded under its own name, with
    their cells under the other stream's columns. *)
Theorem columns_are_kept_from_the_stream_before now get_sheet config first second
    token id columns sheet1 title1 count1 (values1 : list (list Z))
    sheet2 title2 count2 (values2 : list (list Z)) :
  Smartsheets.access_token config = Some token ->
  Smartsheets.spreadsheet_id config = Some id ->
  Smartsheets.properties first = Some (Smartsheets.PDict columns) ->
  Smartsheets.properties second = Some Smartsheets.POther ->
  get_sheet 0%nat = Smartsheets.Returned sheet1 ->
  Smartsheets.sheet_name sheet1 = Some title1 ->
  Smartsheets.totalRowCount sheet1 = Some count1 ->
  Smartsheets.rows sheet1
  = Some ((fun row_values : list Z => Some (Some <$> row_values)) <$> values1) ->
  get_sheet 1%nat = Smartsheets.Returned sheet2 ->
  Smartsheets.sheet_name sheet2 = Some title2 ->
  Smartsheets.totalRowCount sheet2 = Some count2 ->
  Smartsheets.rows sheet2
  = Some ((fun row_values : list Z => Some (Some <$> row_values)) <$> values2) ->
  let r := Smartsheets.read now get_sheet config [first; second] in
  r.2 = None
  /\ Smartsheets.records r.1
     = ((fun row_values =>
           RECORD (Smartsheets.name first)
             (Smartsheets.data_of columns row_values) (now * 1000)) <$> values1)
       ++ ((fun row_values =>
              RECORD (Smartsheets.name second)
                (Smartsheets.data_of columns row_values) (now * 1000)) <$> values2).
Proof.
  intros Ht Hid Hp1 Hp2 Hs1 Hn1 Hc1 Hr1 Hs2 Hn2 Hc2 Hr2.
  unfold Smartsheets.read. rewrite Ht, Hid.
  cbn [Smartsheets.read_streams]. rewrite Hp1, Hs1, Hp2, Hs2.
  rewrite (read_sheet_rows now _ _ sheet1 title1 count1 _ Hn1 Hc1 Hr1).
  rewrite (read_sheet_rows now _ _ sheet2 title2 count2 _ Hn2 Hc2 Hr2).
  rewrite <- (app_nil_r (_ <$> values1)), <- (app_nil_r (_ <$> values2)).
  rewrite !read_rows_app.
  cbn [Smartsheets.read_rows fst snd app]. rewrite !app_nil_r.
  split; [reflexivity|].
  cbn [Smartsheets.records omap list_omap].
  change (omap ?f ?l) with (Smartsheets.records l) at 1.
  rewrite records_app.
  unfold Smartsheets.encode.
  rewrite (records_yielded
             (fun v => RECORD (Smartsheets.name first)
                         (Smartsheets.data_of columns v) (now * 1000))).
  f_equal.
  cbn [Smartsheets.records omap list_omap app].
  change (omap ?f ?l) with (Smartsheets.records l) at 1.
  rewrite records_app.
  rewrite (records_yielded
             (fun v => RECORD (Smartsheets.name second)
                         (Smartsheets.data_of columns v) (now * 1000))).
  cbn. now rewrite app_nil_r.
Qed.

Lemma columns_are_kept_from_the_stream_before_witness :
  Smartsheets.records
    (Smartsheets.read 7 (fun _ => Smartsheets.Returned
                                    (Smartsheets.sheet_of [Smartsheets.full_row]))
       Smartsheets.credentials [Smartsheets.people; Smartsheets.untyped]).1
  = [ RECORD "people" {[ "name" := 1; "age" := 30 ]} 7000;
      RECORD "untyped" {[ "name" := 1; "age" := 30 ]} 7000 ].
Proof.
  rewrite (proj2 (columns_are_kept_from_the_stream_before 7 _ Smartsheets.credentials
                    Smartsheets.people Smartsheets.untyped "token" "42"
                    ["name"; "age"]
                    (Smartsheets.sheet_of [Smartsheets.full_row]) "People" 1 [[1; 30]]
                    (Smartsheets.sheet_of [Smartsheets.full_row]) "People" 1 [[1; 30]]
                    eq_refl eq_refl eq_refl eq_refl eq_refl eq_refl eq_refl eq_refl
                    eq_refl eq_refl eq_refl eq_refl)).
  vm_compute. reflexivity.
Defined.

(** ** The schema of a sheet *)

Lemma column_info_foldl (typed : list (string * string)) acc :
  Smartsheets.column_info
    ((fun c : string * string =>
        {| Smartsheets.title := Some c.1; Smartsheets.col_type := Some c.2 |})
       <$> typed) acc
  = Smartsheets.Returned
      (foldl (fun acc (c : string * string) =>
                Dict.setitem acc c.1 (Smartsheets.get_prop c.2)) acc typed).
Proof.
  revert acc. induction typed as [|[t ty] typed IH]; intros acc; [reflexivity|].
  cbn [fmap list_fmap Smartsheets.column_info Smartsheets.title
         Smartsheets.col_type fst snd foldl].
  apply IH.
Qed.

Lemma column_info_props (typed : list (string * string)) :
  let props : Dict.t Smartsheets.Prop_ :=
    foldl (fun acc (c : string * string) =>
             Dict.setitem acc c.1 (Smartsheets.get_prop c.2)) [] typed in
  (forall t, is_Some (Dict.get props t) <-> t ∈ typed.*1)
  /\ (forall t p, Dict.get props t = Some p ->
                  exists ty, (t, ty) ∈ typed /\ p = Smartsheets.get_prop ty).
Proof.
  induction typed as [|[t' ty'] typed [IH1 IH2]] using rev_ind; cbn zeta.
  - cbn [foldl Dict.get]. split.
    + intros t. split; [intros [? [=]]|].
      intros H. now apply elem_of_nil in H.
    + intros t p [=].
  - rewrite foldl_app. cbn [foldl fst snd]. split.
    + intros t. rewrite fmap_app, elem_of_app. cbn [fmap list_fmap fst].
      rewrite list_elem_of_singleton, <- IH1, dict_get_setitem.
      destruct (String.eqb_spec t' t) as [->|Hne].
      * split; [auto|eauto].
      * split; [auto|]. intros [H|H]; [exact H|now destruct Hne].
    + intros t p. rewrite dict_get_setitem.
      destruct (String.eqb_spec t' t) as [->|Hne].
      * intros [= <-]. exists ty'. split; [|reflexivity].
        apply elem_of_app. right. apply list_elem_of_here.
      * intros H.
        destruct (IH2 t p H) as (ty & Hin & ->). exists ty. split; [|reflexivity].
        apply elem_of_app. now left.
Qed.

Lemma column_info_keys (typed : list (string * string)) :
  NoDup typed.*1 ->
  Dict.keys
    (foldl (fun acc (c : string * string) =>
              Dict.setitem acc c.1 (Smartsheets.get_prop c.2)) [] typed)
  = typed.*1.
Proof.
  induction typed as [|[t' ty'] typed IH] using rev_ind; intros Hnd;
    [reflexivity|].
  rewrite fmap_app in Hnd. apply NoDup_app in Hnd as (Hnd & Hfresh & _).
  rewrite foldl_app. cbn [foldl fst snd].
  rewrite dict_setitem_fresh.
  - unfold Dict.keys in *. rewrite !fmap_app, IH by exact Hnd. reflexivity.
  - rewrite IH by exact Hnd. intros Hin. apply (Hfresh t' Hin).
    apply list_elem_of_here.
Qed.

(** X23: for the columns of a sheet, each with its title and type, the schema
    has one property for every title and no other; every property has the
    type "string", with the format "date" for a DATE column, "date-time" for
    a DATETIME column and no format for any other type of column. *)
Theorem json_schema_types_every_column (typed : list (string * string)) :
  let columns :=
    (fun c : string * string =>
       {| Smartsheets.title := Some c.1; Smartsheets.col_type := Some c.2 |})
      <$> typed in
  exists props,
    Smartsheets.get_json_schema (Some columns) = Smartsheets.Returned props
    /\ (forall t, is_Some (Dict.get props t) <-> t ∈ typed.*1)
    /\ (forall t p, Dict.get props t = Some p ->
          Smartsheets.type p = "string"
          /\ exists ty, (t, ty) ∈ typed
               /\ Smartsheets.format p
                  = if bool_decide (ty = "DATE") then Some "date"
                    else if bool_decide (ty = "DATETIME") then Some "date-time"
                    else None).
Proof.
  cbn zeta. unfold Smartsheets.get_json_schema. rewrite column_info_foldl.
  eexists. split; [reflexivity|].
  destruct (column_info_props typed) as [H1 H2]. split; [exact H1|].
  intros t p Hp. destruct (H2 t p Hp) as (ty & Hin & ->).
  unfold Smartsheets.get_prop. split.
  - repeat case_bool_decide; reflexivity.
  - exists ty. split; [exact Hin|].
    repeat case_bool_decide; subst; try reflexivity; discriminate.
Qed.

(** ** From discovery to the records *)

(** X24: a sheet whose columns have titles that are all different is
    discovered as one stream under the sheet's name; and a stream configured
    with that name and the keys of the discovered properties, read from the
    same sheet, yields for every row the cells under the titles of the
    columns, in the order of the columns. *)
Theorem discovered_stream_reads_rows_by_title now config token id sheet title count
    (typed : list (string * string)) (values : list (list Z)) :
  Smartsheets.access_token config = Some token ->
  Smartsheets.spreadsheet_id config = Some id ->
  Smartsheets.sheet_name sheet = Some title ->
  Smartsheets.totalRowCount sheet = Some count ->
  Smartsheets.sheet_columns sheet
  = Some ((fun c : string * string =>
             {| Smartsheets.title := Some c.1; Smartsheets.col_type := Some c.2 |})
            <$> typed) ->
  NoDup typed.*1 ->
  Smartsheets.rows sheet
  = Some ((fun row_values : list Z => Some (Some <$> row_values)) <$> values) ->
  exists props,
    (Smartsheets.discover config (Smartsheets.Returned sheet)).2
    = Smartsheets.Returned
        [ {| Smartsheets.stream := title; Smartsheets.json_schema := props |} ]
    /\ forall configured,
         Smartsheets.name configured = title ->
         Smartsheets.properties configured
         = Some (Smartsheets.PDict (Dict.keys props)) ->
         Smartsheets.records
           (Smartsheets.read now (fun _ => Smartsheets.Returned sheet) config
              [configured]).1
         = (fun row_values =>
              RECORD title (Smartsheets.data_of typed.*1 row_values) (now * 1000))
             <$> values.
Proof.
  intros Ht Hid Hn Hc Hcols Hnd Hr.
  unfold Smartsheets.discover. rewrite Ht, Hid, Hcols, Hn.
  unfold Smartsheets.get_json_schema. rewrite column_info_foldl.
  eexists. split; [reflexivity|].
  intros configured Hname Hprops. rewrite column_info_keys in Hprops by exact Hnd.
  rewrite (sheet_is_read_row_by_row_run now _ config configured token id typed.*1
             sheet title count values Ht Hid Hprops eq_refl Hn Hc Hr).
  cbn [fst]. rewrite Hname.
  cbn [Smartsheets.records omap list_omap app].
  change (omap ?f ?l) with (Smartsheets.records l) at 1.
  rewrite records_app.
  rewrite (records_yielded
             (fun v => RECORD title (Smartsheets.data_of typed.*1 v) (now * 1000))).
  cbn. now rewrite app_nil_r.
Qed.

Lemma name_age_NoDup :
  NoDup [("name", "TEXT_NUMBER"); ("age", "TEXT_NUMBER")].*1.
Proof. apply (bool_decide_unpack _). vm_compute. reflexivity. Qed.

Lemma discovered_stream_reads_rows_by_title_witness :
  exists props,
    (Smartsheets.discover Smartsheets.credentials
       (Smartsheets.Returned (Smartsheets.sheet_of [Smartsheets.full_row]))).2
    = Smartsheets.Returned
        [ {| Smartsheets.stream := "People"; Smartsheets.json_schema := props |} ]
    /\ forall configured,
         Smartsheets.name configured = "People" ->
         Smartsheets.properties configured
         = Some (Smartsheets.PDict (Dict.keys props)) ->
         Smartsheets.records
           (Smartsheets.read 7
              (fun _ => Smartsheets.Returned
                          (Smartsheets.sheet_of [Smartsheets.full_row]))
              Smartsheets.credentials [configured]).1
         = [ RECORD "People" {[ "name" := 1; "age" := 30 ]} 7000 ].
Proof.
  destruct (discovered_stream_reads_rows_by_title 7 Smartsheets.credentials
              "token" "42" (Smartsheets.sheet_of [Smartsheets.full_row]) "People" 1
              [("name", "TEXT_NUMBER"); ("age", "TEXT_NUMBER")] [[1; 30]]
              eq_refl eq_refl eq_refl eq_refl eq_refl
              name_age_NoDup eq_refl) as (props & Hd & Hread).
  exists props. split; [exact Hd|].
  intros configured Hname Hprops. rewrite (Hread configured Hname Hprops).
  vm_compute. reflexivity.
Defined.
